(* ===== verification/_CoqProject ===== *)
-Q . S2P
Prelude.v
JsSet.v
Board.v
Rules.v
Engine.v
Driver.v
NextCell.v
Backtrack.v
Init.v
Main.v
Reach.v
Editing.v
Animation.v
Presentation.v
CachedOptions.v
