(* ===== verification/Prelude.v ===== *)
(** * A verification development of sudoku-colors' solver (src/solver.js)

    The program.  [src/solver.js] defines one prototype object,
    [SudokuSolver], that keeps a 9x9 [matrix] of cell values, a set
    [fixed] of the coordinates given by the puzzle, and three arrays of
    nine JS "sets" ([row], [column], [quadrant]: objects whose keys are
    the digits still free in that line or 3x3 block).  Its parts are:
    - the board state: [reset], [parse], [init], [isFixed],
      [_getQuadrantNumber], [forEachCell], [getQuadrant] (lines 15-56,
      103-117, 173-175, 335-350);
    - the constraint engine: [_calcOptions], [allocate], [updateOptions],
      [unallocate] (lines 58-75, 181-219), which keep the three families
      of sets in step with the matrix and signal completion by throwing
      ["SolvedException"] when the 81st cell is filled;
    - the search driver: [determineNextCell], [solveCell], [solve]
      (lines 119-171), a depth-first backtracking search that records
      the committed allocations in [solution] while the recursion unwinds;
    - presentation (rendering, colouring, animation, DOM editing:
      lines 221-333, 352-360), which reads the state above and, in
      [colorFixed], [doStep], [animate] and [updateCell], updates it;
    - an options cache [allOptions] ([_calcNecessaryOptions],
      [_updateAllOptions], [getOptions]: lines 77-101, 177-179) that no
      line assigns.
    Sets come from an external [Set] helper object and [fill] from an
    external array helper; neither is under src/.

    The library (all files use stdpp; none loads MathComp), in
    dependency order:
    - [Prelude] (this file): the [sudoku_scope] notations for 9x9 grids
      as lists of lists, the generic grid lemmas ([lookup2], [insert2],
      [count2], [index_of] for JS [indexOf]), the [sudoku] hint database
      and the development's tactics.
    - [JsSet]: the external [Set] and [fill] helpers, modelled from their
      use and the spec (the only spec-modelled part): a JS object used
      as a set of integer keys is a [gset nat]; [for .. in] enumerates
      integer keys in ascending order.
    - [Board]: JS values ([jsval]: [undefined], [null], [NaN], numbers,
      the digit strings that [for .. in] produces), the solver's [state]
      record, [parse], [reset], the quadrant map, [isFixed],
      [forEachCell], [getQuadrant]; states equal up to [cycles].
    - [Rules]: the abstract side: the digit of a cell, units, candidates
      recomputed from the grid ([grid_options]), consistent, complete and
      solved grids, solutions of a puzzle, with boolean checkers.
    - [Engine]: [_calcOptions], [updateOptions], [allocate] (its thrown
      completion signal is the constructor [SolvedExc] of its result),
      [unallocate] with its three [indexOf] scans; the bookkeeping
      invariant [inv]; the refinement of the incremental sets by
      [grid_options] ([calcOptions_refines]); the allocate/unallocate
      round trip; preservation of [inv] by both operations (the
      allocation lemmas are stated for any [num], so that the givens of
      [init] go through the same lemmas as the search's digits).
    - [Driver]: [determineNextCell] as the code's nested loops with the
      function-scoped [countOptions] and the never-updated [min];
      [solveCell] with fuel and its candidate loop [try_numbers]; [solve].
    - [NextCell]: [determineNextCell] equals a plain reference selector
      ([determineNextCell_ref]).
    - [Backtrack]: termination and fuel independence of [solveCell],
      restoration of the state on failure, soundness (a reported solution
      is solved and keeps every non-empty cell, when the givens do not
      clash), the trace and its replay, completeness (a puzzle with a
      solution is solved).
    - [Init]: [init], its loop over the cells, the uncaught exception on
      a full puzzle, and [colorFixed]; the loop invariant is [inv] of the
      grid whose givens not yet visited are empty ([InitFacts.blank]).
    - [Main]: [init] followed by [solve]: sound and complete for puzzle
      strings, and never successful on a puzzle with a cell that is
      neither a digit nor empty (the code does not validate its input);
      the easy puzzle of the spec, loaded and solved, serves the
      witnesses.
    - [Reach]: the search's three state changes ([allocate] of a
      candidate, [unallocate] of a placed digit, [solution.push]) as a
      step relation [search_step]; by rule induction on its reflexive
      transitive closure, every state reachable from a loaded puzzle
      satisfies [inv], whatever the interleaving.
    - [Editing]: [updateCell]; typing and deleting a candidate is a round
      trip (the typed value is a number or a digit string: the page that
      supplies it is not under src/).
    - [Animation]: the state effect of [animate] and [doStep]; the
      [animateLoop] timer chain as a tick function on pending and
      completed states, which always completes (liveness, by an
      [eventually] predicate); after any successful search the solver's
      sets are stale and the state breaks [inv], while for every puzzle
      string with consistent givens the sets are empty once the replay
      of [animate] has run (folds that only remove digits, and a
      pigeonhole argument on the units of a solved grid).
    - [Presentation]: what the page shows, computed from the state: the
      colour components of [mergeColors] (rationals: [255 - 255 * k / 10]
      is a multiple of 0.5, exact in binary floating point), which under
      [inv] are [255 - 25.5 k] for the number [k] of digits each unit of
      the cell lacks; the cells [colorRelatedCells] paints, and the HTML
      [renderNumbers] writes after [init].
    - [CachedOptions]: [_calcNecessaryOptions], [_updateAllOptions] and
      [getOptions] with the cache as an argument ([None] is the
      [undefined] the program always has, [Some g] a grid); on a 9x9
      cache [_calcNecessaryOptions] throws exactly when the asked cell
      is empty and a related open cell has no option (the emptiness
      test reads the wrong cell), and otherwise refreshes the entries of
      the cells sharing a unit with it.

    State and effects.  The JS object's fields are the fields of
    [Board.state]; the module-level counter [cycles] (line 3) is a field
    too, since [allocate] increments it.  Every operation is a function
    from state to state; the exceptions thrown by [allocate] are result
    constructors ([alloc_result], [init_result]), and [solveCell]'s
    [try .. catch] is a match on them.  The state equivalence
    [Board.state_eqv] (equality of every field but [cycles]) is the
    relation under which a failed search leaves the state unchanged; the
    operations are [Proper] for it.  Row and column indices are [nat]:
    the code's for-in keys are strings, which JS converts back to the
    same indices wherever they are used.

    Fuel.  [Driver.solveCell] takes fuel; each recursive call fills one
    more null cell of the matrix, so fuel one more than the number of
    null cells is enough ([Backtrack.solve_terminates]); [Driver.solve]
    supplies exactly that, and the result does not depend on any larger
    fuel ([Backtrack.solveCell_mono]).  The all-empty puzzle of the
    spec is covered by [init_solve_complete] (any puzzle with a
    solution), not evaluated: the heuristic's search on it is too long
    for [vm_compute].

    Assumptions.  When [determineNextCell] finds no cell it returns [{}]
    and [solveCell] iterates over [_calcOptions(undefined, undefined)];
    the model takes that set to be empty (no key to enumerate), so
    [solveCell] returns false.  [fill] calls its function once per
    element, so the nine sets of an array are distinct objects.

    [this.allOptions] is never assigned, so [init]'s call of
    [_updateAllOptions] iterates over [undefined] and does nothing
    ([CachedOptions._updateAllOptions] on [None] returns the state and no
    exception); [init]'s model omits it.

    Not modelled: the DOM itself (renderTable only creates empty cells;
    the page writes of doStep and colorCell, the transient yellow
    highlight and the [offsetHeight] reads), the timers beyond the order
    of their ticks ([setTimeout], stopAnimation's [clearTimeout]), the
    hex formatting by the external [Math2.dec2hex] in mergeColors, and
    the value of a cell holding [NaN] in [updateCell] (a set of digits
    cannot hold the key ["NaN"]).
*)

From stdpp Require Export base list gmap sorting.
From Stdlib Require Export ZArith Lia.

Declare Scope sudoku_scope.
Delimit Scope sudoku_scope with sudoku.
Open Scope sudoku_scope.

Create HintDb sudoku discriminated.
Create Rewrite HintDb grid.

(** ** Grids as lists of rows *)

Section Grid.
Context {A : Type}.

  (** [g[r][c]], [None] when a row or column index is missing. *)
Definition lookup2 (g : list (list A)) (r c : nat) : option A :=
    g !! r ≫= (λ row, row !! c).

  (** [g[r][c] = x], in place; nothing changes out of range. *)
Definition insert2 (r c : nat) (x : A) (g : list (list A)) : list (list A) :=
    alter (λ row, <[c := x]> row) r g.

  (** The number of cells on which [p] holds. *)
Definition count2 (p : A → bool) (g : list (list A)) : nat :=
    sum_list (map (λ row, length (List.filter p row)) g).

  (** Every row has [n] cells and there are [m] rows. *)
Definition shape2 (m n : nat) (g : list (list A)) : Prop :=
    length g = m ∧ Forall (λ row, length row = n) g.

Lemma lookup2_insert2_eq g r c x y :
    lookup2 g r c = Some y → lookup2 (insert2 r c x g) r c = Some x.
  Proof.
    unfold lookup2, insert2. rewrite list_lookup_alter_eq.
    destruct (g !! r) as [row|]; simpl; [|done].
    intros Hy. apply list_lookup_insert_eq. eapply lookup_lt_Some; eauto.
  Qed.

Lemma lookup2_insert2_ne g r c r' c' x :
    (r, c) ≠ (r', c') → lookup2 (insert2 r c x g) r' c' = lookup2 g r' c'.
  Proof.
    unfold lookup2, insert2. intros Hne.
    destruct (decide (r = r')) as [<-|Hr].
    - rewrite list_lookup_alter_eq. destruct (g !! r); simpl; [|done].
      rewrite list_lookup_insert_ne; congruence.
    - by rewrite list_lookup_alter_ne.
  Qed.

Lemma lookup2_insert2 g r c r' c' x y :
    lookup2 g r c = Some y →
    lookup2 (insert2 r c x g) r' c' =
      if decide ((r, c) = (r', c')) then Some x else lookup2 g r' c'.
  Proof.
    intros Hy. case_decide as Heq.
    - simplify_eq. by eapply lookup2_insert2_eq.
    - by apply lookup2_insert2_ne.
  Qed.

Lemma insert2_insert2 g r c x y :
    insert2 r c x (insert2 r c y g) = insert2 r c x g.
  Proof.
    unfold insert2. rewrite list_alter_alter_eq.
    apply list_alter_ext; [|done]. intros row _. apply list_insert_insert_eq.
  Qed.

Lemma insert2_id g r c x :
    lookup2 g r c = Some x → insert2 r c x g = g.
  Proof.
    unfold lookup2, insert2. intros H.
    destruct (g !! r) as [row|] eqn:Hr; simpl in H; [|done].
    apply list_eq. intros i. destruct (decide (i = r)) as [->|Hi].
    - rewrite list_lookup_alter_eq, Hr. simpl. by rewrite list_insert_id.
    - by rewrite list_lookup_alter_ne.
  Qed.

Lemma shape2_insert2 m n g r c x :
    shape2 m n g → shape2 m n (insert2 r c x g).
  Proof.
    unfold shape2, insert2. intros [Hm Hn]. split.
    - by rewrite length_alter.
    - apply Forall_lookup. intros i row Hi.
      destruct (decide (i = r)) as [->|Hne].
      + rewrite list_lookup_alter_eq in Hi.
        destruct (g !! r) as [row0|] eqn:Hr; simplify_eq/=.
        rewrite length_insert. eapply Forall_lookup_1 in Hn; eauto.
      + rewrite list_lookup_alter_ne in Hi by done.
        eapply Forall_lookup_1 in Hn; eauto.
  Qed.

Lemma shape2_lookup2 m n g r c :
    shape2 m n g → r < m → c < n → is_Some (lookup2 g r c).
  Proof.
    unfold shape2, lookup2. intros [Hm Hn] Hr Hc.
    destruct (lookup_lt_is_Some_2 g r) as [row Hrow]; [lia|].
    rewrite Hrow. simpl. apply lookup_lt_is_Some_2.
    eapply Forall_lookup_1 in Hn; eauto. lia.
  Qed.

Lemma lookup2_bounds m n g r c x :
    shape2 m n g → lookup2 g r c = Some x → r < m ∧ c < n.
  Proof.
    unfold shape2, lookup2. intros [Hm Hn] H.
    destruct (g !! r) as [row|] eqn:Hr; simpl in H; [|done].
    pose proof (lookup_lt_Some _ _ _ Hr). pose proof (lookup_lt_Some _ _ _ H).
    eapply Forall_lookup_1 in Hn; eauto. lia.
  Qed.

(** A write out of range does nothing. *)
Lemma insert2_None g r c x : lookup2 g r c = None → insert2 r c x g = g.
  Proof.
    unfold lookup2, insert2. intros H.
    rewrite (list_alter_ext _ id g g r); [by apply list_alter_id|intros row Hrow|done].
    rewrite Hrow in H. simpl in H. apply list_insert_ge. by apply lookup_ge_None.
  Qed.

Lemma count2_le m n p g : shape2 m n g → count2 p g ≤ m * n.
  Proof.
    unfold shape2, count2. intros [<- Hn]. induction Hn as [|row g Hrow _ IH]; simpl; [lia|].
    pose proof (List.filter_length_le p row). lia.
  Qed.

(** A full count means every cell satisfies the predicate. *)
Lemma count2_full m n p g :
  shape2 m n g → count2 p g = m * n → ∀ r c x, lookup2 g r c = Some x → p x = true.
Proof.
  intros [<- Hn]. induction Hn as [|row g Hrow Hall IH]; intros Hc r c x Hx;
    [by destruct r|].
  pose proof (count2_le (length g) n p g (conj eq_refl Hall)).
  pose proof (List.filter_length_le p row).
  unfold count2 in *. simpl in Hc. destruct r as [|r]; simpl in *.
  - apply lookup_lt_Some in Hx as Hlt. unfold lookup2 in Hx. simpl in Hx.
    assert (Hf : forallb p row = true) by (apply List.filter_length_forallb; lia).
    rewrite forallb_forall in Hf. apply Hf, list_elem_of_In.
    by eapply list_elem_of_lookup_2.
  - apply (IH ltac:(lia) r c x). done.
Qed.

(** Conversely, a predicate that holds on every cell counts them all. *)
Lemma count2_all m n p g :
  shape2 m n g → (∀ r c x, lookup2 g r c = Some x → p x = true) → count2 p g = m * n.
Proof.
  intros [<- Hn]. induction Hn as [|row g Hrow Hall IH]; intros H; [done|].
  unfold count2 in *. simpl. rewrite IH by (intros r c x; apply (H (S r))).
  rewrite forallb_filter_id; [simpl; lia|]. apply forallb_forall.
  intros x Hx%list_elem_of_In. apply list_elem_of_lookup_1 in Hx as [c Hc].
  apply (H 0 c x). unfold lookup2. done.
Qed.

(** A predicate that holds on no cell counts none. *)
Lemma count2_zero p g : (∀ r c x, lookup2 g r c = Some x → p x = false) → count2 p g = 0.
Proof.
  unfold count2, lookup2. induction g as [|row g IH]; intros H; [done|]. simpl.
  rewrite IH by (intros r c x; apply (H (S r))).
  assert (Hr : ∀ c x, row !! c = Some x → p x = false) by (intros c x; apply (H 0 c x)).
  clear H IH. induction row as [|x row IHr]; [done|]. simpl.
  rewrite (Hr 0 x eq_refl). apply IHr. intros c y. apply (Hr (S c)).
Qed.

Lemma count2_insert2 (p : A → bool) g r c x y :
    lookup2 g r c = Some y →
    count2 p (insert2 r c x g) + (if p y then 1 else 0) =
    count2 p g + (if p x then 1 else 0).
  Proof.
    unfold lookup2, insert2, count2. revert r.
    induction g as [|row g IH]; intros [|r] H; simplify_eq/=.
    - clear IH. revert c H. induction row as [|z row IHr]; intros [|c] H; simplify_eq/=.
      + destruct (p x), (p y); simpl; lia.
      + specialize (IHr c H). destruct (p z); simpl in *; lia.
    - specialize (IH r H). lia.
  Qed.
End Grid.

(** [List.map] looked up. *)
Lemma lookup_map {A B} (f : A → B) (l : list A) i : List.map f l !! i = f <$> l !! i.
Proof. revert i. induction l as [|x l IH]; intros [|i]; simpl; auto. Qed.

Notation "g .[ r , c ]" := (lookup2 g r c)
  (at level 1, format "g .[ r ,  c ]") : sudoku_scope.
Notation "g .[ r , c := x ]" := (insert2 r c x g)
  (at level 1, format "g .[ r ,  c  :=  x ]") : sudoku_scope.

#[export] Hint Resolve shape2_insert2 : sudoku.
#[export] Hint Rewrite @insert2_insert2 : grid.

(** ** JS [Array.prototype.indexOf] *)

Section IndexOf.
Context {A : Type} (eqb : A → A → bool).

  (** The first index of an element [eqb]-equal to [x], or [-1]. *)
Fixpoint index_of (x : A) (l : list A) : Z :=
    match l with
    | [] => (-1)%Z
    | y :: l' => if eqb x y then 0%Z
                 else let i := index_of x l' in
                      if (i <? 0)%Z then (-1)%Z else (i + 1)%Z
    end.

Lemma index_of_ge x l : (-1 <= index_of x l)%Z.
  Proof.
    induction l as [|y l IH]; simpl; [lia|].
    destruct (eqb x y); [lia|]. destruct (Z.ltb_spec (index_of x l) 0); lia.
  Qed.

Lemma index_of_absent x l :
    index_of x l = (-1)%Z ↔ Forall (λ y, eqb x y = false) l.
  Proof.
    induction l as [|y l IH]; simpl.
    - split; [constructor|done].
    - rewrite Forall_cons, <- IH. pose proof (index_of_ge x l).
      destruct (eqb x y); [split; [done|intros [? _]; congruence]|].
      destruct (Z.ltb_spec (index_of x l) 0); split; intros; try lia;
        intuition lia.
  Qed.
End IndexOf.

(** ** Tactics *)

(** Turn the boolean tests the code makes into propositions. *)
Ltac bool_to_prop :=
  repeat match goal with
  | H : (_ && _)%bool = true |- _ => apply andb_true_iff in H as [? ?]
  | H : negb _ = true |- _ => apply negb_true_iff in H
  | H : bool_decide _ = true |- _ => apply bool_decide_eq_true in H
  | H : bool_decide _ = false |- _ => apply bool_decide_eq_false in H
  | H : Nat.eqb _ _ = true |- _ => apply Nat.eqb_eq in H
  | H : Nat.eqb _ _ = false |- _ => apply Nat.eqb_neq in H
  | H : Z.eqb _ _ = true |- _ => apply Z.eqb_eq in H
  | H : Z.eqb _ _ = false |- _ => apply Z.eqb_neq in H
  end.
