(* ===== verification/JsSet.v ===== *)
(** * The external [Set] and [fill] helpers

    [src/solver.js] calls [Set.make], [Set.add], [Set.remove],
    [Set.intersection], [Set.count], tests membership with the [in]
    operator and enumerates a set with [for (k in s)]; it builds its
    arrays of sets with [fill([], f, 9)].  These helpers are not under
    src/; they are modelled here from how the solver uses them and from
    the spec (sets of digits, "constant-time set intersection"): a JS
    object used as a set of integer keys is a [gset nat], and
    [for .. in] visits the integer keys of an object in ascending
    numeric order, so [keys] sorts the elements. *)

From S2P Require Import Prelude.

Module JsSet.

  (** [Set.make(k1, ..., kn)]: an object with the keys [k1 .. kn]. *)
Definition make (ks : list nat) : gset nat := list_to_set ks.

  (** [Set.add(s, k)] and [Set.remove(s, k)], in place on [s]. *)
Definition add (s : gset nat) (k : nat) : gset nat := {[k]} ∪ s.
Definition remove (s : gset nat) (k : nat) : gset nat := s ∖ {[k]}.

  (** [k in s]. *)
Definition mem (k : nat) (s : gset nat) : bool := bool_decide (k ∈ s).

  (** [Set.intersection(a, b, c)]: a fresh object. *)
Definition intersection (a b c : gset nat) : gset nat := a ∩ b ∩ c.

  (** [Set.count(s)]: the number of keys. *)
Definition count (s : gset nat) : nat := size s.

  (** The order in which [for (k in s)] visits the keys. *)
Definition keys (s : gset nat) : list nat := merge_sort (≤) (elements s).

  (** [fill([], f, n)]: an array of [n] results of calling [f]. *)
Definition fill {A} (f : unit → A) (n : nat) : list A := replicate n (f tt).

Lemma elem_of_keys k s : k ∈ keys s ↔ k ∈ s.
  Proof.
    unfold keys. rewrite (merge_sort_Permutation (≤) (elements s)).
    apply elem_of_elements.
  Qed.

Lemma NoDup_keys s : NoDup (keys s).
  Proof.
    unfold keys. rewrite (merge_sort_Permutation (≤) (elements s)).
    apply NoDup_elements.
  Qed.

Lemma keys_sorted s : Sorted (≤) (keys s).
  Proof. apply Sorted_merge_sort. intros x y. lia. Qed.

Lemma length_keys s : length (keys s) = count s.
  Proof.
    unfold keys, count. rewrite (merge_sort_Permutation (≤) (elements s)).
    reflexivity.
  Qed.

Lemma mem_spec k s : mem k s = true ↔ k ∈ s.
  Proof. apply bool_decide_eq_true. Qed.

Lemma elem_of_intersection k a b c :
    k ∈ intersection a b c ↔ k ∈ a ∧ k ∈ b ∧ k ∈ c.
  Proof. unfold intersection. set_solver. Qed.

  (** The [if (k in s) Set.remove(s, k)] of the code is a plain removal. *)
Lemma guarded_remove k s :
    (if mem k s then remove s k else s) = remove s k.
  Proof.
    unfold mem, remove. case_bool_decide; [done|]. set_solver.
  Qed.

  (** Adding back a removed key restores the set. *)
Lemma add_remove k s : k ∈ s → add (remove s k) k = s.
  Proof.
    unfold add, remove. intros Hk. apply set_eq. intros x.
    rewrite elem_of_union, elem_of_difference, elem_of_singleton.
    destruct (decide (x = k)); naive_solver.
  Qed.

  (** Removing an absent key from the [i]-th set of an array. *)
Lemma remove_at_absent (l : list (gset nat)) i k :
    k ∉ l !!! i → <[i := remove (l !!! i) k]> l = l.
  Proof.
    intros Hk. assert (remove (l !!! i) k = l !!! i) as -> by (unfold remove; set_solver).
    destruct (decide (i < length l)).
    - apply list_insert_id. by apply list_lookup_lookup_total_lt.
    - apply list_insert_ge. lia.
  Qed.

  (** [if (k in l[i]) Set.remove(l[i], k)] on an array of sets. *)
Lemma guarded_remove_at (l : list (gset nat)) i k :
    (if mem k (l !!! i) then <[i := remove (l !!! i) k]> l else l) =
    <[i := remove (l !!! i) k]> l.
  Proof.
    destruct (mem k (l !!! i)) eqn:E; [done|].
    symmetry. apply remove_at_absent. intros Hk. apply mem_spec in Hk. congruence.
  Qed.

  (** Removing a present key from [l[i]] and adding it back restores [l]. *)
Lemma add_remove_at (l : list (gset nat)) i k :
    i < length l → k ∈ l !!! i →
    <[i := add (<[i := remove (l !!! i) k]> l !!! i) k]> (<[i := remove (l !!! i) k]> l) = l.
  Proof.
    intros Hi Hk. rewrite list_lookup_total_insert_eq, add_remove by done.
    rewrite list_insert_insert_eq. apply list_insert_id.
    by apply list_lookup_lookup_total_lt.
  Qed.
End JsSet.

#[export] Hint Rewrite JsSet.guarded_remove : grid.
