(* ===== verification/Board.v ===== *)
(** * Board state: JS values, the solver object, parsing and reset

    [jsval] holds the values a matrix cell takes in [src/solver.js]:
    [undefined] (a missing index), [null] (an empty cell, from ["_"]),
    [NaN] and the numbers that [parseInt] gives for the characters of the
    puzzle, and the digit strings that [solveCell] writes (it allocates
    the keys of a [for .. in] loop, which are strings).  [state] is the
    solver object (lines 5-10 and the fields set by [reset], 335-350)
    together with the module-level counter [cycles] (line 3). *)

From S2P Require Import Prelude JsSet.
From Stdlib Require Import Ascii String.

Module Board.

Inductive jsval :=
  | JUndef
  | JNull
  | JNaN
  | JNum (n : nat)
  | JStr (n : nat).   (* the decimal string of [n], a [for .. in] key *)

#[export] Instance jsval_eq_dec : EqDecision jsval.
  Proof. solve_decision. Defined.

  (** The two JS types of the [number] argument of [allocate] and
      [unallocate]: a number in [init], a key string in [solveCell]. *)
Inductive num := NumV (n : nat) | StrV (n : nat).

Definition num_val (x : num) : jsval :=
    match x with NumV n => JNum n | StrV n => JStr n end.

  (** The property key [x] denotes in [x in s] and [Set.add(s, x)]. *)
Definition num_key (x : num) : nat :=
    match x with NumV n | StrV n => n end.

  (** [v == null]. *)
Definition is_nullish (v : jsval) : bool :=
    match v with JUndef | JNull => true | _ => false end.

  (** [if (v)]. *)
Definition truthy (v : jsval) : bool :=
    match v with
    | JNum n => negb (n =? 0)
    | JStr _ => true
    | _ => false
    end.

  (** [v === w], the comparison of [indexOf]. *)
Definition strict_eq (v w : jsval) : bool :=
    match v, w with
    | JUndef, JUndef | JNull, JNull => true
    | JNum n, JNum m | JStr n, JStr m => n =? m
    | _, _ => false
    end.

  (** [parseInt(ch)] for a one-character string. *)
Definition parseInt_char (ch : ascii) : jsval :=
    let n := nat_of_ascii ch in
    if (48 <=? n) && (n <=? 57) then JNum (n - 48) else JNaN.

  (** The callback of [parse]'s [map] (line 16). *)
Definition parse_cell (ch : ascii) : jsval :=
    if ascii_dec ch "_"%char then JNull else parseInt_char ch.

  (** [a.slice(b, e)]. *)
Definition slice {A} (l : list A) (b e : nat) : list A := take (e - b) (drop b l).

  (** [parse(input)] (lines 15-22). *)
Definition parse (input : string) : list (list jsval) :=
    let mapped := map parse_cell (list_ascii_of_string input) in
    map (λ r, slice mapped (r * 9) (r * 9 + 9)) (seq 0 9).

  (** One element of [solution]: [{number, row, column}]. *)
Record step := mkStep { s_number : nat; s_row : nat; s_column : nat }.

Record state := mkState {
    sudokuString : string;
    matrix : list (list jsval);
    fixed : gset (nat * nat);
    row : list (gset nat);
    column : list (gset nat);
    quadrant : list (gset nat);
    allocated : Z;
    solution : list step;
    cycles : nat
  }.

  (** Field updates. *)
Definition set_matrix (m : list (list jsval)) (st : state) : state :=
    mkState (sudokuString st) m (fixed st) (row st) (column st) (quadrant st)
      (allocated st) (solution st) (cycles st).
Definition set_fixed (f : gset (nat * nat)) (st : state) : state :=
    mkState (sudokuString st) (matrix st) f (row st) (column st) (quadrant st)
      (allocated st) (solution st) (cycles st).
Definition set_row (rs : list (gset nat)) (st : state) : state :=
    mkState (sudokuString st) (matrix st) (fixed st) rs (column st) (quadrant st)
      (allocated st) (solution st) (cycles st).
Definition set_column (cs : list (gset nat)) (st : state) : state :=
    mkState (sudokuString st) (matrix st) (fixed st) (row st) cs (quadrant st)
      (allocated st) (solution st) (cycles st).
Definition set_quadrant (qs : list (gset nat)) (st : state) : state :=
    mkState (sudokuString st) (matrix st) (fixed st) (row st) (column st) qs
      (allocated st) (solution st) (cycles st).
Definition set_allocated (a : Z) (st : state) : state :=
    mkState (sudokuString st) (matrix st) (fixed st) (row st) (column st)
      (quadrant st) a (solution st) (cycles st).
Definition set_solution (s : list step) (st : state) : state :=
    mkState (sudokuString st) (matrix st) (fixed st) (row st) (column st)
      (quadrant st) (allocated st) s (cycles st).
Definition set_cycles (n : nat) (st : state) : state :=
    mkState (sudokuString st) (matrix st) (fixed st) (row st) (column st)
      (quadrant st) (allocated st) (solution st) n.
Definition set_sudokuString (s : string) (st : state) : state :=
    mkState s (matrix st) (fixed st) (row st) (column st) (quadrant st)
      (allocated st) (solution st) (cycles st).

  (** [_numbers()] (lines 49-51). *)
Definition _numbers (u : unit) : gset nat := JsSet.make [1; 2; 3; 4; 5; 6; 7; 8; 9].

  (** [_getQuadrantNumber(row, column)] (lines 54-56). *)
Definition _getQuadrantNumber (r c : nat) : nat := (r / 3) * 3 + c / 3.

  (** [this.matrix[r][c]]. *)
Definition cell (st : state) (r c : nat) : jsval :=
    default JUndef ((matrix st).[r, c]).

  (** [isFixed(row, column)] (lines 173-175): the key ["r,c"] of the
      coordinate pair in the object [fixed]. *)
Definition isFixed (st : state) (r c : nat) : bool :=
    bool_decide ((r, c) ∈ fixed st).

  (** The coordinates [forEachCell] visits, row-major (lines 103-107). *)
Definition all_cells : list (nat * nat) := list_prod (seq 0 9) (seq 0 9).

  (** [forEachCell(fun)]: the calls [fun(matrix[r][c], r, c)] in order. *)
Definition forEachCell (st : state) : list (jsval * nat * nat) :=
    map (λ '(r, c), (cell st r c, r, c)) all_cells.

  (** [getQuadrant(row, column)] (lines 109-117). *)
Definition getQuadrant (st : state) (r c : nat) : list jsval :=
    let q := _getQuadrantNumber r c in
    map (λ '(v, _, _), v)
      (filter (λ '(_, r', c'), _getQuadrantNumber r' c' = q) (forEachCell st)).

  (** [reset()] (lines 335-350); [stopAnimation] only clears a timer, and
      [this.matrix = null] is the empty matrix. *)
Definition reset (st : state) : state :=
    {| sudokuString := "";
       solution := [];
       matrix := [];
       allocated := 0;
       fixed := ∅;
       row := JsSet.fill _numbers 9;
       column := JsSet.fill _numbers 9;
       quadrant := JsSet.fill _numbers 9;
       cycles := cycles st |}.

  (** ** Equality of states up to the statistic [cycles] *)

Definition erase_cycles (st : state) : state := set_cycles 0 st.

  (** Two solver states agree on everything but [cycles]. *)
Inductive state_eqv (st1 st2 : state) : Prop :=
  | state_eqv_intro : erase_cycles st1 = erase_cycles st2 → state_eqv st1 st2.

#[export] Instance state_equiv : Equiv state := state_eqv.

#[export] Instance state_equiv_equivalence : Equivalence (≡@{state}).
  Proof.
    split; unfold equiv, state_equiv.
    - by constructor.
    - intros ?? []. by constructor.
    - intros ??? [H1] [H2]. constructor. congruence.
  Qed.

Lemma state_equiv_fields st1 st2 :
    st1 ≡ st2 ↔
      sudokuString st1 = sudokuString st2 ∧ matrix st1 = matrix st2 ∧
      fixed st1 = fixed st2 ∧ row st1 = row st2 ∧ column st1 = column st2 ∧
      quadrant st1 = quadrant st2 ∧ allocated st1 = allocated st2 ∧
      solution st1 = solution st2.
  Proof.
    destruct st1, st2. unfold equiv, state_equiv. split.
    - intros [H]. unfold erase_cycles, set_cycles in H. simpl in H.
      injection H. naive_solver.
    - intros (? & ? & ? & ? & ? & ? & ? & ?). simpl in *. subst. by constructor.
  Qed.

Lemma state_eq st1 st2 :
  sudokuString st1 = sudokuString st2 → matrix st1 = matrix st2 →
  fixed st1 = fixed st2 → row st1 = row st2 → column st1 = column st2 →
  quadrant st1 = quadrant st2 → allocated st1 = allocated st2 →
  solution st1 = solution st2 → cycles st1 = cycles st2 → st1 = st2.
Proof. destruct st1, st2; simpl; intros; by subst. Qed.

Lemma set_cycles_equiv n st : set_cycles n st ≡ st.
  Proof. by apply state_equiv_fields. Qed.

Lemma state_equiv_set_cycles st1 st2 : st1 ≡ st2 → st1 = set_cycles (cycles st1) st2.
  Proof.
    rewrite state_equiv_fields. destruct st1, st2; simpl.
    intros (-> & -> & -> & -> & -> & -> & -> & ->). done.
  Qed.

  (** The reads of the solver do not see [cycles]. *)
#[export] Instance matrix_proper : Proper ((≡) ==> (=)) matrix.
  Proof. intros ?? H. apply state_equiv_fields in H. naive_solver. Qed.
#[export] Instance fixed_proper : Proper ((≡) ==> (=)) fixed.
  Proof. intros ?? H. apply state_equiv_fields in H. naive_solver. Qed.
#[export] Instance row_proper : Proper ((≡) ==> (=)) row.
  Proof. intros ?? H. apply state_equiv_fields in H. naive_solver. Qed.
#[export] Instance column_proper : Proper ((≡) ==> (=)) column.
  Proof. intros ?? H. apply state_equiv_fields in H. naive_solver. Qed.
#[export] Instance quadrant_proper : Proper ((≡) ==> (=)) quadrant.
  Proof. intros ?? H. apply state_equiv_fields in H. naive_solver. Qed.
#[export] Instance allocated_proper : Proper ((≡) ==> (=)) allocated.
  Proof. intros ?? H. apply state_equiv_fields in H. naive_solver. Qed.
#[export] Instance solution_proper : Proper ((≡) ==> (=)) solution.
  Proof. intros ?? H. apply state_equiv_fields in H. naive_solver. Qed.

#[export] Instance cell_proper : Proper ((≡) ==> (=) ==> (=) ==> (=)) cell.
  Proof. intros ?? H ?? -> ?? ->. unfold cell. by rewrite (matrix_proper _ _ H). Qed.
#[export] Instance isFixed_proper : Proper ((≡) ==> (=) ==> (=) ==> (=)) isFixed.
  Proof. intros ?? H ?? -> ?? ->. unfold isFixed. by rewrite (fixed_proper _ _ H). Qed.
(** A published puzzle with 30 givens, used by the examples. *)
Definition easy_puzzle : string :=
  "53__7____6__195____98____6_8___6___34__8_3__17___2___6_6____28____419__5____8__79".
End Board.

Export Board.
