(* ===== verification/Rules.v ===== *)
(** * The rules of sudoku, stated on the solver's matrix

    The abstract side of the development: which digit a matrix cell
    holds, the three kinds of units (rows, columns, the 3x3 blocks that
    [_getQuadrantNumber] numbers), the candidates of a cell recomputed
    from the grid ([grid_options], what the spec calls
    [candidates(row, col)]), and what a solved grid is.  Every predicate
    has a boolean version so that concrete grids are checked by
    computation. *)

From S2P Require Import Prelude JsSet Board.

Module Rules.

  (** The digit a cell holds: [if (value)] makes [0] and [NaN] no digit. *)
Definition digit_of (v : jsval) : option nat :=
    match v with
    | JNum n => if n =? 0 then None else Some n
    | JStr n => Some n
    | _ => None
    end.

Definition digit_at (g : list (list jsval)) (r c : nat) : option nat :=
    g.[r, c] ≫= digit_of.

  (** The three kinds of units: a unit is the set of cells on which
      [fam_index] takes one value ([row], [column], [_getQuadrantNumber]). *)
Inductive family := FRow | FCol | FQuad.

#[export] Instance family_eq_dec : EqDecision family.
  Proof. solve_decision. Defined.

Definition families : list family := [FRow; FCol; FQuad].

Definition fam_index (f : family) (r c : nat) : nat :=
    match f with
    | FRow => r
    | FCol => c
    | FQuad => _getQuadrantNumber r c
    end.

  (** Two coordinates share a row, a column or a block. *)
Definition same_unit (r c r' c' : nat) : bool :=
    existsb (λ f, fam_index f r c =? fam_index f r' c') families.

  (** Some cell of unit [i] of kind [f] holds [d]. *)
Definition in_unit (g : list (list jsval)) (f : family) (i d : nat) : bool :=
    existsb (λ '(r, c), (fam_index f r c =? i) &&
                        bool_decide (digit_at g r c = Some d)) all_cells.

Definition in_row g r d := in_unit g FRow r d.
Definition in_col g c d := in_unit g FCol c d.
Definition in_quad g q d := in_unit g FQuad q d.

  (** The digits a cell may take, recomputed from the grid. *)
Definition grid_options (g : list (list jsval)) (r c : nat) : gset nat :=
    list_to_set (List.filter
      (λ d, forallb (λ f, negb (in_unit g f (fam_index f r c) d)) families)
      (seq 1 9)).

  (** No unit holds a digit twice. *)
Definition consistent (g : list (list jsval)) : Prop :=
    ∀ r c r' c' d, (r, c) ≠ (r', c') → same_unit r c r' c' = true →
      digit_at g r c = Some d → digit_at g r' c' ≠ Some d.

  (** Every cell holds a digit from 1 to 9. *)
Definition complete (g : list (list jsval)) : Prop :=
    ∀ r c, r < 9 → c < 9 → ∃ d, digit_at g r c = Some d ∧ 1 ≤ d ≤ 9.

Definition solved (g : list (list jsval)) : Prop := complete g ∧ consistent g.

  (** Boolean checkers for concrete grids. *)
Definition complete_b (g : list (list jsval)) : bool :=
    forallb (λ '(r, c), match digit_at g r c with
                        | Some d => (1 <=? d) && (d <=? 9)
                        | None => false
                        end) all_cells.

Definition consistent_b (g : list (list jsval)) : bool :=
    forallb (λ '(r, c), forallb (λ '(r', c'),
      bool_decide ((r, c) = (r', c')) || negb (same_unit r c r' c') ||
      match digit_at g r c with
      | Some d => bool_decide (digit_at g r' c' ≠ Some d)
      | None => true
      end) all_cells) all_cells.

  (** No digit the search wrote (a key string) repeats in a unit. *)
Definition placed_ok (g : list (list jsval)) : Prop :=
  ∀ r c d r' c', g.[r, c] = Some (JStr d) → (r', c') ≠ (r, c) →
    same_unit r c r' c' = true → digit_at g r' c' ≠ Some d.

  (** No given (a number of the puzzle string) repeats in a unit. *)
Definition givens_consistent (g : list (list jsval)) : Prop :=
  ∀ r c n r' c', n ≠ 0 → g.[r, c] = Some (JNum n) → (r', c') ≠ (r, c) →
    same_unit r c r' c' = true → g.[r', c'] ≠ Some (JNum n).

  (** A solution, as a 9x9 grid of digits, of the puzzle [g]: a valid
      filled grid that agrees with every cell of [g] that is not empty. *)
Definition sol_at (sol : list (list nat)) (r c : nat) : nat := default 0 (sol.[r, c]).

Definition solution_of (sol : list (list nat)) (g : list (list jsval)) : Prop :=
  (∀ r c, r < 9 → c < 9 → 1 ≤ sol_at sol r c ≤ 9) ∧
  (∀ r c r' c', r < 9 → c < 9 → r' < 9 → c' < 9 → (r, c) ≠ (r', c') →
     same_unit r c r' c' = true → sol_at sol r c ≠ sol_at sol r' c') ∧
  (∀ r c, r < 9 → c < 9 →
     g.[r, c] = Some JNull ∨ digit_at g r c = Some (sol_at sol r c)).

  (** The boolean version of [solution_of], for concrete grids. *)
Definition solution_of_b (sol : list (list nat)) (g : list (list jsval)) : bool :=
  forallb (λ '(r, c),
    (1 <=? sol_at sol r c) && (sol_at sol r c <=? 9) &&
    (bool_decide (g.[r, c] = Some JNull) ||
     bool_decide (digit_at g r c = Some (sol_at sol r c))) &&
    forallb (λ '(r', c'), bool_decide ((r, c) = (r', c')) || negb (same_unit r c r' c') ||
                          negb (sol_at sol r c =? sol_at sol r' c')) all_cells) all_cells.

  (** ** Lemmas *)

Lemma elem_of_all_cells r c : (r, c) ∈ all_cells ↔ r < 9 ∧ c < 9.
  Proof.
    unfold all_cells. rewrite list_elem_of_In, in_prod_iff, <- !list_elem_of_In,
      !elem_of_seq. lia.
  Qed.

Lemma digit_at_bounds g r c d :
    shape2 9 9 g → digit_at g r c = Some d → r < 9 ∧ c < 9.
  Proof.
    unfold digit_at. intros Hs H.
    destruct (g.[r, c]) eqn:E; simpl in H; [|done]. by eapply lookup2_bounds.
  Qed.

Lemma digit_at_insert2 g r c r' c' v y :
    g.[r, c] = Some y →
    digit_at (g.[r, c := v]) r' c' =
      if decide ((r, c) = (r', c')) then digit_of v else digit_at g r' c'.
  Proof.
    unfold digit_at. intros Hy. rewrite (lookup2_insert2 _ _ _ _ _ _ _ Hy).
    by case_decide.
  Qed.

Lemma in_unit_spec g f i d :
    in_unit g f i d = true ↔
      ∃ r c, r < 9 ∧ c < 9 ∧ fam_index f r c = i ∧ digit_at g r c = Some d.
  Proof.
    unfold in_unit. rewrite existsb_exists. split.
    - intros [[r c] [Hin H]]. apply list_elem_of_In, elem_of_all_cells in Hin.
      bool_to_prop. naive_solver.
    - intros (r & c & ? & ? & ? & ?). exists (r, c).
      rewrite <- list_elem_of_In, elem_of_all_cells.
      split; [done|]. apply andb_true_iff. rewrite Nat.eqb_eq, bool_decide_eq_true.
      done.
  Qed.

  (** How one write changes which digits a unit holds. *)
Lemma in_unit_insert2 g r c v y f i d :
    shape2 9 9 g → g.[r, c] = Some y →
    in_unit (g.[r, c := v]) f i d = true ↔
      (fam_index f r c = i ∧ digit_of v = Some d) ∨
      (∃ r' c', r' < 9 ∧ c' < 9 ∧ (r', c') ≠ (r, c) ∧ fam_index f r' c' = i ∧
                digit_at g r' c' = Some d).
  Proof.
    intros Hs Hy. destruct (lookup2_bounds _ _ _ _ _ _ Hs Hy).
    rewrite in_unit_spec. setoid_rewrite (digit_at_insert2 _ _ _ _ _ _ _ Hy).
    split.
    - intros (r' & c' & ? & ? & ? & Hd). case_decide; simplify_eq; [left|right].
      + done.
      + exists r', c'. auto.
    - intros [[? ?]|(r' & c' & ? & ? & ? & ? & ?)].
      + exists r, c. rewrite decide_True; auto.
      + exists r', c'. rewrite decide_False; auto.
  Qed.

  (** Writing into a cell that holds no digit adds at most that digit. *)
Lemma in_unit_write_null g r c y v f i d :
    shape2 9 9 g → g.[r, c] = Some y → digit_of y = None →
    in_unit (g.[r, c := v]) f i d =
      in_unit g f i d || bool_decide (fam_index f r c = i ∧ digit_of v = Some d).
  Proof.
    intros Hs Hy Hn. apply Bool.eq_iff_eq_true.
    rewrite orb_true_iff, bool_decide_eq_true, (in_unit_insert2 _ _ _ _ _ _ _ _ Hs Hy),
      in_unit_spec.
    split; intros [H|H]; [right|left|right|left]; try done.
    - destruct H as (r' & c' & ? & ? & _ & ? & ?). eauto 10.
    - destruct H as (r' & c' & ? & ? & ? & Hd). exists r', c'. repeat split; auto.
      intros [= -> ->]. unfold digit_at in Hd. rewrite Hy in Hd. simpl in Hd. congruence.
  Qed.

  (** Clearing a cell removes its digit from a unit unless another cell
      of the unit holds it. *)
Lemma in_unit_clear g r c y v f i d :
    shape2 9 9 g → g.[r, c] = Some y → digit_of v = None →
    in_unit (g.[r, c := v]) f i d = true ↔
      ∃ r' c', r' < 9 ∧ c' < 9 ∧ (r', c') ≠ (r, c) ∧ fam_index f r' c' = i ∧
               digit_at g r' c' = Some d.
  Proof.
    intros Hs Hy Hn. rewrite (in_unit_insert2 _ _ _ _ _ _ _ _ Hs Hy), Hn.
    split; [intros [[_ ?]|?]; done|by right].
  Qed.

  (** Which digits a unit holds, split into one cell and the others. *)
Lemma in_unit_at g r c v f i d :
    shape2 9 9 g → g.[r, c] = Some v →
    in_unit g f i d = true ↔
      (fam_index f r c = i ∧ digit_of v = Some d) ∨
      (∃ r' c', r' < 9 ∧ c' < 9 ∧ (r', c') ≠ (r, c) ∧ fam_index f r' c' = i ∧
                digit_at g r' c' = Some d).
  Proof.
    intros Hs Hv. rewrite <- (in_unit_insert2 _ _ _ v _ _ _ _ Hs Hv).
    by rewrite (insert2_id _ _ _ _ Hv).
  Qed.

Lemma same_unit_spec r c r' c' :
    same_unit r c r' c' = true ↔ ∃ f, fam_index f r c = fam_index f r' c'.
  Proof.
    unfold same_unit. rewrite existsb_exists. split.
    - intros [f [_ H]]. apply Nat.eqb_eq in H. eauto.
    - intros [f H]. exists f. split; [destruct f; simpl; auto|].
      by apply Nat.eqb_eq.
  Qed.

Lemma elem_of_grid_options g r c d :
    d ∈ grid_options g r c ↔
      1 ≤ d ≤ 9 ∧ ∀ f, in_unit g f (fam_index f r c) d = false.
  Proof.
    unfold grid_options. rewrite elem_of_list_to_set, list_elem_of_In, filter_In,
      <- list_elem_of_In, elem_of_seq, forallb_forall.
    split; intros [? H]; split; try lia.
    - intros f. apply negb_true_iff, H. destruct f; simpl; auto.
    - intros f _. apply negb_true_iff, H.
  Qed.

Lemma complete_b_spec g : complete_b g = true ↔ complete g.
  Proof.
    unfold complete_b, complete. rewrite forallb_forall. split.
    - intros H r c Hr Hc.
      specialize (H (r, c)). rewrite <- list_elem_of_In, elem_of_all_cells in H.
      specialize (H (conj Hr Hc)). destruct (digit_at g r c) as [d|]; [|done].
      apply andb_true_iff in H as [H1 H2].
      apply Nat.leb_le in H1, H2. eauto.
    - intros H [r c] Hin. apply list_elem_of_In, elem_of_all_cells in Hin.
      destruct (H r c) as (d & -> & ? & ?); [lia|lia|].
      apply andb_true_iff. rewrite !Nat.leb_le. lia.
  Qed.

Lemma quadrant_lt r c : r < 9 → c < 9 → _getQuadrantNumber r c < 9.
  Proof.
    unfold _getQuadrantNumber. intros Hr Hc.
    pose proof (Nat.div_lt_upper_bound r 3 3). pose proof (Nat.div_lt_upper_bound c 3 3).
    lia.
  Qed.
Lemma same_unit_sym r c r' c' : same_unit r c r' c' = same_unit r' c' r c.
Proof.
  unfold same_unit. simpl.
  by rewrite (Nat.eqb_sym r), (Nat.eqb_sym c), (Nat.eqb_sym (_getQuadrantNumber r c)).
Qed.

Lemma digit_at_Some g r c d :
  digit_at g r c = Some d →
  (g.[r, c] = Some (JNum d) ∧ d ≠ 0) ∨ g.[r, c] = Some (JStr d).
Proof.
  unfold digit_at. destruct (g.[r, c]) as [[]|]; simpl; try done.
  - destruct (_ =? 0) eqn:E; intros [= <-]. left. split; [done|]. by apply Nat.eqb_neq.
  - intros [= <-]. by right.
Qed.

(** A grid whose placed digits and givens do not clash is consistent. *)
Lemma consistent_of_placed g : placed_ok g → givens_consistent g → consistent g.
Proof.
  intros Hp Hg r c r' c' d Hne Hsu Hd Hd'.
  destruct (digit_at_Some _ _ _ _ Hd) as [[H1 Hd0]|H1].
  - destruct (digit_at_Some _ _ _ _ Hd') as [[H2 _]|H2].
    + by apply (Hg r c d r' c' Hd0 H1 (not_eq_sym Hne) Hsu).
    + apply (Hp r' c' d r c H2 Hne); [by rewrite same_unit_sym|].
      unfold digit_at. rewrite H1. simpl. by apply Nat.eqb_neq in Hd0 as ->.
  - by apply (Hp r c d r' c' H1 (not_eq_sym Hne) Hsu).
Qed.

Lemma givens_consistent_mono g g' :
  (∀ r c n, g'.[r, c] = Some (JNum n) → g.[r, c] = Some (JNum n)) →
  givens_consistent g → givens_consistent g'.
Proof. intros Hsub Hg r c n r' c' Hn H1 Hne Hsu H2. eapply (Hg r c n r' c'); eauto. Qed.
(** [all_cells] as the bound of a [forallb]. *)
Lemma forallb_cells (P : nat * nat → bool) r c :
  forallb P all_cells = true → r < 9 → c < 9 → P (r, c) = true.
Proof.
  rewrite forallb_forall. intros H Hr Hc. apply H.
  rewrite <- list_elem_of_In, elem_of_all_cells. done.
Qed.

Lemma consistent_b_spec g : shape2 9 9 g → consistent_b g = true ↔ consistent g.
Proof.
  intros Hs. unfold consistent, consistent_b. split.
  - intros H r c r' c' d Hne Hsu Hd.
    destruct (digit_at_bounds _ _ _ _ Hs Hd) as [Hr Hc].
    pose proof (forallb_cells _ r c H Hr Hc) as H1. cbv beta iota in H1.
    destruct (digit_at g r' c') eqn:Hd'; [|done].
    destruct (digit_at_bounds _ _ _ _ Hs Hd') as [Hr' Hc'].
    pose proof (forallb_cells _ r' c' H1 Hr' Hc') as H2.
    cbv beta iota in H2. rewrite bool_decide_eq_false_2, Hsu, Hd in H2 by done.
    apply bool_decide_eq_true in H2. by rewrite Hd' in H2.
  - intros H. apply forallb_forall. intros [r c] _. apply forallb_forall. intros [r' c'] _.
    case_bool_decide; [done|]. destruct (same_unit r c r' c') eqn:Hsu; [|done].
    simpl. destruct (digit_at g r c) eqn:Hd; [|done]. apply bool_decide_eq_true. eauto.
Qed.

(** A consistent grid has consistent givens. *)
Lemma givens_consistent_of g : consistent g → givens_consistent g.
Proof.
  intros H r c n r' c' Hn H1 Hne Hsu H2.
  apply (H r c r' c' n (not_eq_sym Hne) Hsu); unfold digit_at;
    [rewrite H1|rewrite H2]; simpl; by apply Nat.eqb_neq in Hn as ->.
Qed.

Lemma grid_options_size g r c : size (grid_options g r c) ≤ 9.
Proof.
  unfold grid_options. rewrite size_list_to_set.
  - etrans; [apply List.filter_length_le|]. by rewrite length_seq.
  - apply NoDup_ListNoDup, List.NoDup_filter, NoDup_ListNoDup, NoDup_seq.
Qed.

(** Writing the solution's digit into an empty cell keeps the solution. *)
Lemma solution_of_write sol g r c :
  solution_of sol g → g.[r, c] = Some JNull →
  solution_of sol (g.[r, c := JStr (sol_at sol r c)]).
Proof.
  intros (H1 & H2 & H3) Hg. split; [done|]. split; [done|].
  intros r' c' Hr Hc. rewrite (digit_at_insert2 _ _ _ _ _ _ _ Hg).
  case_decide as E; [simplify_eq; by right|].
  rewrite lookup2_insert2_ne by done. by apply H3.
Qed.

Lemma solution_of_b_sound sol g : solution_of_b sol g = true → solution_of sol g.
Proof.
  unfold solution_of_b. intros H.
  assert (Hrc : ∀ r c, r < 9 → c < 9 →
    1 ≤ sol_at sol r c ≤ 9 ∧
    (g.[r, c] = Some JNull ∨ digit_at g r c = Some (sol_at sol r c)) ∧
    ∀ r' c', r' < 9 → c' < 9 → (r, c) ≠ (r', c') → same_unit r c r' c' = true →
      sol_at sol r c ≠ sol_at sol r' c').
  { intros r c Hr Hc. pose proof (forallb_cells _ r c H Hr Hc) as H1. cbv beta iota in H1.
    rewrite !andb_true_iff, orb_true_iff, !bool_decide_eq_true, !Nat.leb_le in H1.
    destruct H1 as [[[? ?] ?] Hall]. split; [lia|]. split; [done|].
    intros r' c' Hr' Hc' Hne Hsu Heq. pose proof (forallb_cells _ r' c' Hall Hr' Hc') as Hcell.
    cbv beta iota in Hcell. rewrite bool_decide_eq_false_2, Hsu, Heq, Nat.eqb_refl in Hcell by done.
    done. }
  split; [|split].
  - intros r c Hr Hc. apply (Hrc r c Hr Hc).
  - intros r c r' c' Hr Hc. apply (Hrc r c Hr Hc).
  - intros r c Hr Hc. apply (Hrc r c Hr Hc).
Qed.
End Rules.

Export Rules.
