(* ===== verification/Engine.v ===== *)
(** * The constraint engine: candidate sets, allocate and unallocate

    [_calcOptions], [updateOptions], [allocate] and [unallocate] of
    [src/solver.js] (lines 58-75 and 181-219).  [allocate] throws
    ["SolvedException"] when the counter reaches 81, before it updates the
    options; its result type [alloc_result] makes the throw a value.
    [unallocate] re-adds the digit to a set only when [indexOf] finds no
    other cell of that row, column or block holding it ([===]).

    The invariant [inv] states the bookkeeping the code relies on: each
    set of the three families holds exactly the digits that no cell of its
    unit holds.  Under it the incremental candidate sets refine the
    candidates recomputed from the grid ([calcOptions_refines]), the
    search's allocations preserve it, and [unallocate] undoes [allocate]
    ([unallocate_allocate]). *)

From S2P Require Import Prelude JsSet Board Rules.

Module Engine.

  (** [_getRowOptions], [_getColumnOptions], [_getQuadrantOptions]
      (lines 58-68). *)
Definition _getRowOptions (st : state) (r : nat) : gset nat := row st !!! r.
Definition _getColumnOptions (st : state) (c : nat) : gset nat := column st !!! c.
Definition _getQuadrantOptions (st : state) (r c : nat) : gset nat :=
    quadrant st !!! _getQuadrantNumber r c.

  (** [_calcOptions(row, column)] (lines 70-75). *)
Definition _calcOptions (st : state) (r c : nat) : gset nat :=
    JsSet.intersection (_getRowOptions st r) (_getColumnOptions st c)
      (_getQuadrantOptions st r c).

  (** [updateOptions(number, row, column)] (lines 192-204): the three
      sets are objects of the arrays, removed from in place. *)
Definition updateOptions (number r c : nat) (st : state) : state :=
    let rowOptions := _getRowOptions st r in
    let columnOptions := _getColumnOptions st c in
    let st1 := if JsSet.mem number rowOptions
               then set_row (<[r := JsSet.remove rowOptions number]> (row st)) st
               else st in
    let st2 := if JsSet.mem number columnOptions
               then set_column (<[c := JsSet.remove columnOptions number]> (column st1)) st1
               else st1 in
    let quadrantOptions := _getQuadrantOptions st2 r c in
    if JsSet.mem number quadrantOptions
    then set_quadrant (<[_getQuadrantNumber r c := JsSet.remove quadrantOptions number]>
                         (quadrant st2)) st2
    else st2.

  (** [allocate] returns normally or throws ["SolvedException"]. *)
Inductive alloc_result :=
  | Allocated (st : state)
  | SolvedExc (st : state).

  (** [allocate(number, row, column)] (lines 181-190). *)
Definition allocate (number : num) (r c : nat) (st : state) : alloc_result :=
    let st1 := set_cycles (S (cycles st)) st in
    let st2 := set_matrix ((matrix st1).[r, c := num_val number]) st1 in
    let st3 := set_allocated (allocated st2 + 1) st2 in
    if (allocated st3 =? 81)%Z then SolvedExc st3
    else Allocated (updateOptions (num_key number) r c st3).

  (** The state an allocation leaves, whether or not it throws. *)
Definition alloc_state (a : alloc_result) : state :=
  match a with Allocated s | SolvedExc s => s end.

  (** The column [column] as [matrix.map(function(r){return r[column];})]. *)
Definition column_values (st : state) (c : nat) : list jsval :=
    map (λ rw, default JUndef (rw !! c)) (matrix st).

  (** [unallocate(number, row, column)] (lines 206-219). *)
Definition unallocate (number : num) (r c : nat) (st : state) : state :=
    let v := num_val number in
    let k := num_key number in
    let st1 := set_matrix ((matrix st).[r, c := JNull]) st in
    let st2 := set_allocated (allocated st1 - 1) st1 in
    let st3 := if (index_of strict_eq v (matrix st2 !!! r) =? -1)%Z
               then set_row (<[r := JsSet.add (row st2 !!! r) k]> (row st2)) st2
               else st2 in
    let st4 := if (index_of strict_eq v (column_values st3 c) =? -1)%Z
               then set_column (<[c := JsSet.add (column st3 !!! c) k]> (column st3)) st3
               else st3 in
    let q := _getQuadrantNumber r c in
    if (index_of strict_eq v (getQuadrant st4 r c) =? -1)%Z
    then set_quadrant (<[q := JsSet.add (quadrant st4 !!! q) k]> (quadrant st4)) st4
    else st4.

  (** ** The three families of sets, uniformly *)

Definition fam_sets (st : state) (f : family) : list (gset nat) :=
    match f with FRow => row st | FCol => column st | FQuad => quadrant st end.

Definition set_fam (f : family) (ss : list (gset nat)) (st : state) : state :=
    match f with FRow => set_row ss st | FCol => set_column ss st
            | FQuad => set_quadrant ss st end.

  (** The cells whose values [unallocate] scans with [indexOf]. *)
Definition fam_scan (st : state) (f : family) (r c : nat) : list jsval :=
    match f with
    | FRow => matrix st !!! r
    | FCol => column_values st c
    | FQuad => getQuadrant st r c
    end.

  (** The bookkeeping invariant of a solver between two operations. *)
Record inv (st : state) : Prop := {
    inv_shape : shape2 9 9 (matrix st);
    inv_no_undef : ∀ r c, (matrix st).[r, c] ≠ Some JUndef;
    inv_len : ∀ f, length (fam_sets st f) = 9;
    inv_sets : ∀ f i d, i < 9 →
      d ∈ fam_sets st f !!! i ↔ 1 ≤ d ≤ 9 ∧ in_unit (matrix st) f i d = false;
    inv_digits : ∀ r c d, digit_at (matrix st) r c = Some d → 1 ≤ d ≤ 9;
    inv_placed : ∀ r c d r' c', cell st r c = JStr d → (r', c') ≠ (r, c) →
      same_unit r c r' c' = true → digit_at (matrix st) r' c' ≠ Some d;
    inv_fixed : ∀ r c, isFixed st r c = true ↔
      r < 9 ∧ c < 9 ∧ ∃ n, cell st r c = JNum n ∧ n ≠ 0;
    inv_count : allocated st = Z.of_nat (count2 (λ v, bool_decide (is_Some (digit_of v))) (matrix st));
    inv_lt81 : (allocated st < 81)%Z
  }.
End Engine.

Export Engine.

Module EngineFacts.

  (** ** Frame lemmas: what each operation leaves alone *)

Ltac frame := intros; unfold updateOptions; repeat case_match; reflexivity.

Lemma updateOptions_matrix k r c st : matrix (updateOptions k r c st) = matrix st.
  Proof. frame. Qed.
Lemma updateOptions_fixed k r c st : fixed (updateOptions k r c st) = fixed st.
  Proof. frame. Qed.
Lemma updateOptions_allocated k r c st :
    allocated (updateOptions k r c st) = allocated st.
  Proof. frame. Qed.
Lemma updateOptions_solution k r c st :
    solution (updateOptions k r c st) = solution st.
  Proof. frame. Qed.
Lemma updateOptions_cycles k r c st : cycles (updateOptions k r c st) = cycles st.
  Proof. frame. Qed.
Lemma updateOptions_sudokuString k r c st :
    sudokuString (updateOptions k r c st) = sudokuString st.
  Proof. frame. Qed.

Lemma fam_sets_updateOptions k r c st f :
    fam_sets (updateOptions k r c st) f =
    <[fam_index f r c := JsSet.remove (fam_sets st f !!! fam_index f r c) k]> (fam_sets st f).
  Proof.
    unfold updateOptions, _getRowOptions, _getColumnOptions, _getQuadrantOptions.
    destruct f; simpl; repeat case_match; simpl in *; try reflexivity;
      symmetry; apply JsSet.remove_at_absent; intros Hk%JsSet.mem_spec; congruence.
  Qed.

Ltac frame_u := intros; unfold unallocate; repeat case_match; reflexivity.

Lemma unallocate_matrix n r c st :
    matrix (unallocate n r c st) = (matrix st).[r, c := JNull].
  Proof. frame_u. Qed.
Lemma unallocate_allocated n r c st :
    allocated (unallocate n r c st) = (allocated st - 1)%Z.
  Proof. frame_u. Qed.
Lemma unallocate_fixed n r c st : fixed (unallocate n r c st) = fixed st.
  Proof. frame_u. Qed.
Lemma unallocate_solution n r c st : solution (unallocate n r c st) = solution st.
  Proof. frame_u. Qed.
Lemma unallocate_cycles n r c st : cycles (unallocate n r c st) = cycles st.
  Proof. frame_u. Qed.
Lemma unallocate_sudokuString n r c st :
    sudokuString (unallocate n r c st) = sudokuString st.
  Proof. frame_u. Qed.

  (** The scanned values depend on the matrix only. *)
Definition scan_of (g : list (list jsval)) (f : family) (r c : nat) : list jsval :=
    match f with
    | FRow => g !!! r
    | FCol => map (λ rw, default JUndef (rw !! c)) g
    | FQuad =>
        map (λ '(v, _, _), v)
          (filter (λ '(_, r', c'), _getQuadrantNumber r' c' = _getQuadrantNumber r c)
             (map (λ '(r', c'), (default JUndef (g.[r', c']), r', c')) all_cells))
    end.

Lemma fam_scan_of st f r c : fam_scan st f r c = scan_of (matrix st) f r c.
  Proof. by destruct f. Qed.

Lemma fam_sets_unallocate n r c st f :
    fam_sets (unallocate n r c st) f =
      if (index_of strict_eq (num_val n) (scan_of ((matrix st).[r, c := JNull]) f r c)
            =? -1)%Z
      then <[fam_index f r c := JsSet.add (fam_sets st f !!! fam_index f r c) (num_key n)]>
             (fam_sets st f)
      else fam_sets st f.
  Proof.
    destruct f; unfold unallocate, column_values, getQuadrant, forEachCell, cell; simpl;
      repeat case_match; simpl in *; congruence.
  Qed.

  (** The cell values [unallocate] scans, family by family. *)
Lemma Forall_scan_of (P : jsval → Prop) g f r c :
    shape2 9 9 g → r < 9 → c < 9 →
    Forall P (scan_of g f r c) ↔
      ∀ r' c', r' < 9 → c' < 9 → fam_index f r' c' = fam_index f r c →
               P (default JUndef (g.[r', c'])).
  Proof.
    intros [Hlen Hrows] Hr Hc. destruct f; cbn [scan_of fam_index].
    - destruct (lookup_lt_is_Some_2 g r) as [rw Hrw]; [lia|].
      rewrite (list_lookup_total_correct _ _ _ Hrw).
      assert (length rw = 9) by (eapply Forall_lookup_1 in Hrows; eauto).
      rewrite Forall_lookup. unfold lookup2. split.
      + intros HP r' c' ? ? ->. rewrite Hrw. simpl.
        destruct (lookup_lt_is_Some_2 rw c') as [x Hx]; [lia|]. rewrite Hx. eauto.
      + intros HP i x Hx. pose proof (lookup_lt_Some _ _ _ Hx).
        specialize (HP r i Hr ltac:(lia) eq_refl). unfold lookup2 in HP. rewrite Hrw in HP. simpl in HP. by rewrite Hx in HP.
    - rewrite Forall_map, Forall_lookup. unfold lookup2. split.
      + intros HP r' c' ? ? ->.
        destruct (lookup_lt_is_Some_2 g r') as [rw Hrw]; [lia|].
        rewrite Hrw. simpl. eauto.
      + intros HP i rw Hrw. pose proof (lookup_lt_Some _ _ _ Hrw).
        specialize (HP i c ltac:(lia) Hc eq_refl). by rewrite Hrw in HP.
    - rewrite Forall_map, Forall_forall. split.
      + intros HP r' c' ? ? Hq. apply (HP (default JUndef (g.[r', c']), r', c')).
        apply list_elem_of_filter. split; [done|].
        apply list_elem_of_In, in_map_iff. exists (r', c'). split; [done|].
        apply list_elem_of_In, elem_of_all_cells. done.
      + intros HP [[v r'] c'] Hin.
        apply list_elem_of_filter in Hin as [Hq Hin].
        apply list_elem_of_In, in_map_iff in Hin as [[r'' c''] [Heq Hin]]. simplify_eq.
        apply list_elem_of_In, elem_of_all_cells in Hin. apply HP; tauto.
  Qed.

Lemma strict_eq_JStr_false d v : strict_eq (JStr d) v = false ↔ v ≠ JStr d.
  Proof. destruct v; simpl; rewrite ?Nat.eqb_neq; naive_solver. Qed.

  (** [indexOf(String(d))] finds nothing in the unit of [(r, c)] exactly
      when no cell of that unit holds the string [d]. *)
Lemma scan_of_absent_JStr g f r c d :
    shape2 9 9 g → r < 9 → c < 9 →
    (index_of strict_eq (JStr d) (scan_of g f r c) = -1)%Z ↔
      ∀ r' c', r' < 9 → c' < 9 → fam_index f r' c' = fam_index f r c →
               g.[r', c'] ≠ Some (JStr d).
  Proof.
    intros Hs Hr Hc. rewrite index_of_absent, (Forall_scan_of _ _ _ _ _ Hs Hr Hc).
    setoid_rewrite strict_eq_JStr_false.
    split.
    - intros H r' c' ? ? ? E. apply (H r' c'); auto. by rewrite E.
    - intros H r' c' ? ? ? E. destruct (g.[r', c']) eqn:Eg; simpl in E; subst; [|done].
      by apply (H r' c').
  Qed.

  (** ** Candidates *)

Lemma fam_index_lt f r c : r < 9 → c < 9 → fam_index f r c < 9.
  Proof. destruct f; simpl; auto using quadrant_lt. Qed.

Lemma elem_of_calcOptions st r c d :
    d ∈ _calcOptions st r c ↔ ∀ f, d ∈ fam_sets st f !!! fam_index f r c.
  Proof.
    unfold _calcOptions, _getRowOptions, _getColumnOptions, _getQuadrantOptions.
    rewrite JsSet.elem_of_intersection. split; [intros (?&?&?) []|intros H;
      repeat split; apply (H FRow) || apply (H FCol) || apply (H FQuad)]; done.
  Qed.

  (** A candidate is a digit that no unit of the cell holds. *)
Lemma calcOptions_free st r c d :
    inv st → r < 9 → c < 9 → d ∈ _calcOptions st r c →
    1 ≤ d ≤ 9 ∧ ∀ f, in_unit (matrix st) f (fam_index f r c) d = false.
  Proof.
    intros Hinv Hr Hc Hd. rewrite elem_of_calcOptions in Hd.
    split; [apply (inv_sets _ Hinv FRow r d Hr), (Hd FRow)|].
    intros f. apply (inv_sets _ Hinv f _ d (fam_index_lt f r c Hr Hc)), Hd.
  Qed.

Lemma cell_JNull st r c : cell st r c = JNull → (matrix st).[r, c] = Some JNull.
  Proof. unfold cell. destruct ((matrix st).[r, c]); simpl; congruence. Qed.

Lemma cell_JStr st r c d : cell st r c = JStr d → (matrix st).[r, c] = Some (JStr d).
  Proof. unfold cell. destruct ((matrix st).[r, c]); simpl; congruence. Qed.

  (** ** Refinement of the recomputed candidates *)

  (** The incremental candidate sets agree with the grid. *)
Lemma calcOptions_grid st r c :
    inv st → r < 9 → c < 9 → _calcOptions st r c = grid_options (matrix st) r c.
  Proof.
    intros Hinv Hr Hc. apply set_eq. intros d.
    rewrite elem_of_calcOptions, elem_of_grid_options. split.
    - intros Hd. apply calcOptions_free; [done..|]. by apply elem_of_calcOptions.
    - intros [Hd Hf] f. apply (inv_sets _ Hinv f _ d (fam_index_lt f r c Hr Hc)). auto.
  Qed.

  (** ** Allocate then unallocate *)

Lemma allocate_Allocated n r c st st' :
    allocate n r c st = Allocated st' →
    (allocated st + 1 ≠ 81)%Z ∧
    st' = updateOptions (num_key n) r c
            (set_allocated (allocated st + 1)
              (set_matrix ((matrix st).[r, c := num_val n])
                (set_cycles (S (cycles st)) st))).
  Proof. unfold allocate. simpl. case_match; bool_to_prop; intros; simplify_eq; done. Qed.

Lemma allocate_SolvedExc n r c st st' :
    allocate n r c st = SolvedExc st' →
    (allocated st + 1 = 81)%Z ∧
    st' = set_allocated (allocated st + 1)
            (set_matrix ((matrix st).[r, c := num_val n])
              (set_cycles (S (cycles st)) st)).
  Proof. unfold allocate. simpl. case_match; bool_to_prop; intros; simplify_eq; done. Qed.

(** Allocate then unallocate, the lemma the search uses. *)
Lemma unallocate_allocate_equiv st r c d st' :
    inv st → cell st r c = JNull → d ∈ _calcOptions st r c →
    allocate (StrV d) r c st = Allocated st' →
    unallocate (StrV d) r c st' ≡ st.
  Proof.
    intros Hinv Hnull Hd Hal. apply cell_JNull in Hnull.
    pose proof (inv_shape _ Hinv) as Hs.
    destruct (lookup2_bounds _ _ _ _ _ _ Hs Hnull) as [Hr Hc].
    destruct (calcOptions_free _ _ _ _ Hinv Hr Hc Hd) as [_ Hfree].
    apply allocate_Allocated in Hal as [_ ->].
    assert (Hm : (matrix st).[r, c := JStr d].[r, c := JNull] = matrix st).
    { rewrite insert2_insert2. by apply insert2_id. }
    assert (Hfam : ∀ f, fam_sets (unallocate (StrV d) r c (updateOptions d r c
        (set_allocated (allocated st + 1) (set_matrix (matrix st).[r, c := JStr d]
          (set_cycles (S (cycles st)) st))))) f = fam_sets st f).
    { intros f. rewrite fam_sets_unallocate, updateOptions_matrix. simpl. rewrite Hm.
      rewrite (proj2 (scan_of_absent_JStr _ _ _ _ _ Hs Hr Hc)).
      - simpl. rewrite fam_sets_updateOptions. destruct f; apply JsSet.add_remove_at;
          try by rewrite (inv_len _ Hinv FRow) || rewrite (inv_len _ Hinv FCol)
                 || rewrite (inv_len _ Hinv FQuad); apply fam_index_lt.
        all: apply elem_of_calcOptions; [exact Hd].
      - intros r' c' ? ? Hi Hv. specialize (Hfree f). rewrite <- Hi in Hfree.
        apply not_true_iff_false in Hfree. apply Hfree, in_unit_spec.
        exists r', c'. unfold digit_at. by rewrite Hv. }
    apply state_equiv_fields. rewrite unallocate_matrix, unallocate_allocated,
      unallocate_fixed, unallocate_solution, unallocate_sudokuString,
      updateOptions_matrix, updateOptions_allocated, updateOptions_fixed,
      updateOptions_solution, updateOptions_sudokuString. simpl.
    rewrite Hm. repeat split; try lia.
    - apply (Hfam FRow).
    - apply (Hfam FCol).
    - apply (Hfam FQuad).
  Qed.

Lemma digit_at_cell st r c : digit_at (matrix st) r c = digit_of (cell st r c).
  Proof. unfold digit_at, cell. by destruct ((matrix st).[r, c]). Qed.

Lemma lookup_total_insert_9 (l : list (gset nat)) i j x :
    length l = 9 → i < 9 →
    <[i := x]> l !!! j = if decide (i = j) then x else l !!! j.
  Proof.
    intros Hl Hi. rewrite list_lookup_total_insert.
    destruct (decide (i = j)); [rewrite decide_True by lia|rewrite decide_False by lia]; done.
  Qed.

  (** ** One search allocation preserves the invariant *)

Lemma fam_sets_set_fixed F st f : fam_sets (set_fixed F st) f = fam_sets st f.
  Proof. by destruct f. Qed.

Section AllocateStep.
Context (st : state) (r c : nat) (x : num).
Hypothesis Hinv : inv st.
Hypothesis Hnull : cell st r c = JNull.
Hypothesis Hx : digit_of (num_val x) = Some (num_key x).

    (** The state [allocate] returns when it does not throw. *)
Let st' := updateOptions (num_key x) r c
                 (set_allocated (allocated st + 1)
                   (set_matrix ((matrix st).[r, c := num_val x])
                     (set_cycles (S (cycles st)) st))).

Let Hm : (matrix st).[r, c] = Some JNull := cell_JNull _ _ _ Hnull.
Let Hs : shape2 9 9 (matrix st) := inv_shape _ Hinv.
Let Hrc : r < 9 ∧ c < 9 := lookup2_bounds _ _ _ _ _ _ Hs Hm.

Lemma alloc_matrix : matrix st' = (matrix st).[r, c := num_val x].
    Proof. apply updateOptions_matrix. Qed.

Lemma alloc_digit_at r' c' :
      digit_at (matrix st') r' c' =
        if decide ((r, c) = (r', c')) then Some (num_key x) else digit_at (matrix st) r' c'.
    Proof. rewrite alloc_matrix, (digit_at_insert2 _ _ _ _ _ _ _ Hm), Hx. done. Qed.

Lemma alloc_cell r' c' :
      cell st' r' c' = if decide ((r, c) = (r', c')) then num_val x else cell st r' c'.
    Proof.
      unfold cell. rewrite alloc_matrix, (lookup2_insert2 _ _ _ _ _ _ _ Hm). by case_decide.
    Qed.

Lemma alloc_sets f i d' :
      i < 9 →
      d' ∈ fam_sets st' f !!! i ↔ 1 ≤ d' ≤ 9 ∧ in_unit (matrix st') f i d' = false.
    Proof.
      intros Hi. destruct Hrc as [Hr Hc].
      rewrite alloc_matrix, (in_unit_write_null _ _ _ _ _ _ _ _ Hs Hm eq_refl), Hx,
        orb_false_iff, bool_decide_eq_false.
      unfold st'. rewrite fam_sets_updateOptions.
      assert (fam_sets (set_allocated (allocated st + 1) (set_matrix (matrix st).[r, c := num_val x]
        (set_cycles (S (cycles st)) st))) f = fam_sets st f) as -> by (destruct f; done).
      rewrite lookup_total_insert_9 by (auto using inv_len, fam_index_lt).
      pose proof (inv_sets _ Hinv f i d' Hi) as Hset. unfold JsSet.remove.
      case_decide as Hfi; rewrite ?elem_of_difference, ?elem_of_singleton; simpl.
      - subst i. rewrite Hset. naive_solver.
      - rewrite Hset. naive_solver.
    Qed.

Lemma alloc_count :
      allocated st' = Z.of_nat (count2 (λ v, bool_decide (is_Some (digit_of v))) (matrix st')).
    Proof.
      unfold st'. rewrite updateOptions_allocated, updateOptions_matrix. simpl.
      pose proof (count2_insert2 (λ v, bool_decide (is_Some (digit_of v))) _ _ _ (num_val x) _ Hm)
        as Hcnt. cbv beta in Hcnt. rewrite Hx in Hcnt. simpl in Hcnt.
      rewrite (inv_count _ Hinv). lia.
    Qed.

(** An allocation that does not complete the board keeps the invariant,
    given a digit, no clash of a placed digit and the fixed cells. *)
Lemma alloc_inv_gen F st'' :
      1 ≤ num_key x ≤ 9 → allocate x r c st = Allocated st'' → placed_ok (matrix st'') →
      (∀ r' c', (r', c') ∈ F ↔ r' < 9 ∧ c' < 9 ∧ ∃ n, cell st'' r' c' = JNum n ∧ n ≠ 0) →
      inv (set_fixed F st'').
    Proof.
      intros Hk Hal Hp HF. apply allocate_Allocated in Hal as [H81 ->].
      change (placed_ok (matrix st')) in Hp. change (∀ r' c', (r', c') ∈ F ↔
        r' < 9 ∧ c' < 9 ∧ ∃ n, cell st' r' c' = JNum n ∧ n ≠ 0) in HF.
      change (inv (set_fixed F st')).
      split; rewrite ?fam_sets_set_fixed; change (matrix (set_fixed F st')) with (matrix st');
        change (allocated (set_fixed F st')) with (allocated st').
      - rewrite alloc_matrix. by apply shape2_insert2.
      - intros r' c'. rewrite alloc_matrix, (lookup2_insert2 _ _ _ _ _ _ _ Hm).
        case_decide; [by destruct x|]. apply (inv_no_undef _ Hinv).
      - intros f. rewrite fam_sets_set_fixed. unfold st'.
        rewrite fam_sets_updateOptions, length_insert.
        destruct f; apply (inv_len _ Hinv FRow) || apply (inv_len _ Hinv FCol)
          || apply (inv_len _ Hinv FQuad).
      - intros. rewrite fam_sets_set_fixed. by apply alloc_sets.
      - intros r' c' d'. rewrite alloc_digit_at. case_decide; [intros [= <-]; done|].
        apply (inv_digits _ Hinv).
      - intros r1 c1 d1 r2 c2 H1. apply Hp. by apply cell_JStr in H1.
      - intros r' c'. unfold isFixed. simpl. rewrite bool_decide_eq_true. apply HF.
      - apply alloc_count.
      - pose proof (count2_le 9 9 (λ v, bool_decide (is_Some (digit_of v))) (matrix st')
          ltac:(rewrite alloc_matrix; by apply shape2_insert2)).
        assert (allocated st' = (allocated st + 1)%Z) by
          (unfold st'; by rewrite updateOptions_allocated).
        pose proof alloc_count. lia.
    Qed.
(** The 81st allocation leaves a complete grid. *)
Lemma alloc_complete :
      1 ≤ num_key x ≤ 9 → (allocated st + 1 = 81)%Z →
      complete ((matrix st).[r, c := num_val x]).
    Proof.
      intros Hk H81 r' c' Hr Hc. rewrite <- alloc_matrix.
      assert (Hs' : shape2 9 9 (matrix st')) by (rewrite alloc_matrix; by apply shape2_insert2).
      assert (Hfull : count2 (λ v, bool_decide (is_Some (digit_of v))) (matrix st') = 9 * 9).
      { pose proof alloc_count as Hc'. unfold st' in Hc' at 1.
        rewrite updateOptions_allocated in Hc'. simpl in Hc'. lia. }
      destruct (shape2_lookup2 _ _ _ _ _ Hs' Hr Hc) as [v Hv].
      pose proof (count2_full _ _ _ _ Hs' Hfull _ _ _ Hv) as [d' Hd']%bool_decide_eq_true.
      assert (Hda : digit_at (matrix st') r' c' = Some d') by (unfold digit_at; by rewrite Hv).
      exists d'. split; [done|]. rewrite alloc_digit_at in Hda.
      case_decide; [simplify_eq; lia|]. by eapply inv_digits.
    Qed.
End AllocateStep.

  (** ** One search allocation preserves the invariant *)

Section SearchAllocate.
Context (st : state) (r c d : nat).
Hypothesis Hinv : inv st.
Hypothesis Hnull : cell st r c = JNull.
Hypothesis Hd : d ∈ _calcOptions st r c.

Let st' := updateOptions d r c
                 (set_allocated (allocated st + 1)
                   (set_matrix ((matrix st).[r, c := JStr d])
                     (set_cycles (S (cycles st)) st))).

Let Hm : (matrix st).[r, c] = Some JNull := cell_JNull _ _ _ Hnull.
Let Hs : shape2 9 9 (matrix st) := inv_shape _ Hinv.
Let Hrc : r < 9 ∧ c < 9 := lookup2_bounds _ _ _ _ _ _ Hs Hm.
Let Hfree := calcOptions_free _ _ _ _ Hinv (proj1 Hrc) (proj2 Hrc) Hd.
Let Hx : digit_of (num_val (StrV d)) = Some (num_key (StrV d)) := eq_refl.

Let digit_at' r' c' := alloc_digit_at st r c (StrV d) Hnull Hx r' c'.
Let cell' r' c' := alloc_cell st r c (StrV d) Hnull r' c'.

Lemma alloc_placed r1 c1 d1 r2 c2 :
      cell st' r1 c1 = JStr d1 → (r2, c2) ≠ (r1, c1) → same_unit r1 c1 r2 c2 = true →
      digit_at (matrix st') r2 c2 ≠ Some d1.
    Proof.
      destruct Hfree as [_ Hf]. intros Hc1 Hne Hsu.
      pose proof Hsu as [f Hu]%same_unit_spec.
      rewrite digit_at'. rewrite cell' in Hc1. simpl in Hc1 |- *.
      assert (Hunit : ∀ r' c', digit_at (matrix st) r' c' = Some d →
                fam_index f r' c' = fam_index f r c → False).
      { intros r' c' Hdig Hi. pose proof (digit_at_bounds _ _ _ _ Hs Hdig).
        specialize (Hf f). apply not_true_iff_false in Hf. apply Hf, in_unit_spec.
        exists r', c'. naive_solver. }
      case_decide as E1; simplify_eq.
      - rewrite decide_False by done. intros Hdig. eapply Hunit; eauto.
      - case_decide as E2; simplify_eq.
        + intros [= <-]. apply (Hunit r1 c1); [|done].
          by rewrite digit_at_cell, Hc1.
        + by apply (inv_placed _ Hinv r1 c1 d1 r2 c2).
    Qed.

(** The written grid has no clash with a search-placed digit. *)
Lemma alloc_placed_ok : placed_ok ((matrix st).[r, c := JStr d]).
    Proof.
      intros r1 c1 d1 r2 c2 H. pose proof (alloc_matrix st r c (StrV d)) as E.
      cbn [num_val num_key] in E. rewrite <- E in H |- *.
      apply alloc_placed. unfold cell, st'. by rewrite H.
    Qed.

(** The fixed cells: an allocation writes a key string into a cell that
    is not fixed. *)
Lemma alloc_fixed r' c' :
      (r', c') ∈ fixed st' ↔ r' < 9 ∧ c' < 9 ∧ ∃ n, cell st' r' c' = JNum n ∧ n ≠ 0.
    Proof.
      unfold st'. rewrite updateOptions_fixed. simpl.
      rewrite <- (bool_decide_eq_true ((r', c') ∈ fixed st)).
      change (bool_decide ((r', c') ∈ fixed st)) with (isFixed st r' c').
      rewrite (inv_fixed _ Hinv), cell'. case_decide as E; [|done].
      simplify_eq. rewrite Hnull. naive_solver.
    Qed.

(** The invariant after an allocation that does not complete the board. *)
Lemma allocate_keeps_inv st'' :
      allocate (StrV d) r c st = Allocated st'' → inv st''.
    Proof.
      intros Hal. replace st'' with (set_fixed (fixed st'') st'') by (by destruct st'').
      pose proof Hal as [_ ->]%allocate_Allocated.
      apply (alloc_inv_gen st r c (StrV d) Hinv Hnull Hx); [exact (proj1 Hfree)|done| |].
      - rewrite (alloc_matrix st r c (StrV d)). apply alloc_placed_ok.
      - apply alloc_fixed.
    Qed.

End SearchAllocate.

Lemma inv_placed_ok st : inv st → placed_ok (matrix st).
  Proof. intros Hinv r c d r' c' H. apply (inv_placed _ Hinv). unfold cell. by rewrite H. Qed.

  (** ** Unallocating a search-placed digit preserves the invariant *)

Section UnallocateStep.
Context (st : state) (r c d : nat).
Hypothesis Hinv : inv st.
Hypothesis Hcell : cell st r c = JStr d.

Let st' := unallocate (StrV d) r c st.
Let Hm : (matrix st).[r, c] = Some (JStr d) := cell_JStr _ _ _ _ Hcell.
Let Hs : shape2 9 9 (matrix st) := inv_shape _ Hinv.
Let Hrc : r < 9 ∧ c < 9 := lookup2_bounds _ _ _ _ _ _ Hs Hm.

Lemma unalloc_digit_at r' c' :
      digit_at (matrix st') r' c' =
        if decide ((r, c) = (r', c')) then None else digit_at (matrix st) r' c'.
    Proof. unfold st'. by rewrite unallocate_matrix, (digit_at_insert2 _ _ _ _ _ _ _ Hm). Qed.

Lemma unalloc_cell r' c' :
      cell st' r' c' = if decide ((r, c) = (r', c')) then JNull else cell st r' c'.
    Proof.
      unfold cell, st'. rewrite unallocate_matrix, (lookup2_insert2 _ _ _ _ _ _ _ Hm).
      by case_decide.
    Qed.

    (** No other cell of a unit of [(r, c)] holds [d]. *)
Lemma unalloc_alone f r' c' :
      (r', c') ≠ (r, c) → fam_index f r' c' = fam_index f r c →
      digit_at (matrix st) r' c' ≠ Some d.
    Proof.
      intros Hne Hi. apply (inv_placed _ Hinv r c d r' c' Hcell Hne).
      apply same_unit_spec. eauto.
    Qed.

Lemma unalloc_fam f :
      fam_sets st' f =
        <[fam_index f r c := JsSet.add (fam_sets st f !!! fam_index f r c) d]> (fam_sets st f).
    Proof.
      destruct Hrc as [Hr Hc]. unfold st'. rewrite fam_sets_unallocate. cbn [num_val num_key].
      rewrite (proj2 (scan_of_absent_JStr _ _ _ _ _ (shape2_insert2 _ _ _ _ _ _ Hs) Hr Hc));
        [done|].
      intros r' c' ? ? Hi Hv.
      assert (Hd : digit_at ((matrix st).[r, c := JNull]) r' c' = Some d)
        by (unfold digit_at; by rewrite Hv).
      rewrite (digit_at_insert2 _ _ _ _ _ _ _ Hm) in Hd.
      case_decide; [done|]. by eapply (unalloc_alone f r' c').
    Qed.

Lemma unalloc_sets f i d' :
      i < 9 →
      d' ∈ fam_sets st' f !!! i ↔ 1 ≤ d' ≤ 9 ∧ in_unit (matrix st') f i d' = false.
    Proof.
      intros Hi. unfold st' at 2. rewrite unallocate_matrix, <- not_true_iff_false,
        (in_unit_clear _ _ _ _ JNull _ _ _ Hs Hm eq_refl).
      rewrite unalloc_fam, lookup_total_insert_9 by (destruct Hrc; auto using inv_len, fam_index_lt).
      pose proof (inv_sets _ Hinv f i d' Hi) as Hset.
      rewrite <- not_true_iff_false, (in_unit_at _ _ _ _ _ _ _ Hs Hm) in Hset.
      unfold JsSet.add. case_decide as Hfi; rewrite ?elem_of_union, ?elem_of_singleton.
      - subst i. destruct (decide (d' = d)) as [->|Hne].
        + pose proof (inv_digits _ Hinv r c d ltac:(by rewrite digit_at_cell, Hcell)).
          split; [|intros _; by left]. intros _. split; [done|].
          intros (r' & c' & ? & ? & ? & ? & ?). by eapply (unalloc_alone f r' c').
        + rewrite Hset. split.
          * intros [->|[? Hn]]; [done|]. split; [done|]. intros Ho. apply Hn. by right.
          * intros [? Hn]. right. split; [done|].
            intros [[_ [= ->]]|Ho]; [done|by apply Hn].
      - rewrite Hset. split.
        + intros [? Hn]. split; [done|]. intros Ho. apply Hn. by right.
        + intros [? Hn]. split; [done|]. intros [[? _]|Ho]; [done|by apply Hn].
    Qed.

Lemma unalloc_count :
      (Z.of_nat (count2 (λ v, bool_decide (is_Some (digit_of v))) (matrix st')) + 1 =
      Z.of_nat (count2 (λ v, bool_decide (is_Some (digit_of v))) (matrix st)))%Z.
    Proof.
      unfold st'. rewrite unallocate_matrix.
      pose proof (count2_insert2 (λ v, bool_decide (is_Some (digit_of v))) _ _ _ JNull _ Hm)
        as Hcnt. simpl in Hcnt. lia.
    Qed.

(** Unallocating a search-placed digit keeps the invariant. *)
Lemma unallocate_keeps_inv : inv (unallocate (StrV d) r c st).
    Proof.
      change (inv st'). split.
      - unfold st'. rewrite unallocate_matrix. by apply shape2_insert2.
      - intros r' c'. unfold st'. rewrite unallocate_matrix, (lookup2_insert2 _ _ _ _ _ _ _ Hm).
        case_decide; [done|]. apply (inv_no_undef _ Hinv).
      - intros f. rewrite unalloc_fam, length_insert. apply (inv_len _ Hinv).
      - intros. by apply unalloc_sets.
      - intros r' c' d'. rewrite unalloc_digit_at. case_decide; [done|].
        apply (inv_digits _ Hinv).
      - intros r1 c1 d1 r2 c2 H1 Hne Hsu. rewrite unalloc_digit_at.
        rewrite unalloc_cell in H1. case_decide; [done|].
        case_decide; [done|]. by apply (inv_placed _ Hinv r1 c1 d1 r2 c2).
      - intros r' c'.
        assert (isFixed st' r' c' = isFixed st r' c') as ->.
        { unfold isFixed, st'. by rewrite unallocate_fixed. }
        rewrite (inv_fixed _ Hinv), unalloc_cell. case_decide; [|done].
        simplify_eq. rewrite Hcell. naive_solver.
      - unfold st' at 1. rewrite unallocate_allocated, (inv_count _ Hinv).
        pose proof unalloc_count. lia.
      - unfold st'. rewrite unallocate_allocated. pose proof (inv_lt81 _ Hinv). lia.
    Qed.
End UnallocateStep.

(** C6: unallocating a digit the search placed (a key string) keeps the
    bookkeeping invariant: the digit goes back into the row, column and
    block sets exactly when no other cell there holds it. *)
Theorem unallocate_inv st r c d :
  inv st → cell st r c = JStr d → inv (unallocate (StrV d) r c st).
Proof. apply unallocate_keeps_inv. Qed.

(** Recording a step of the trace does not touch the bookkeeping. *)
Lemma inv_set_solution l st : inv (set_solution l st) ↔ inv st.
Proof. split; destruct 1; split; assumption. Qed.

  (** ** The operations and the invariant do not depend on [cycles] *)

Lemma fam_row s : row s = fam_sets s FRow.
Proof. done. Qed.
Lemma fam_col s : column s = fam_sets s FCol.
Proof. done. Qed.
Lemma fam_quad s : quadrant s = fam_sets s FQuad.
Proof. done. Qed.

(** Field by field, with the frame lemmas of both operations: an
    operation commutes with an update of a field it neither reads nor
    writes. *)
Ltac state_comm :=
  apply state_eq; cbn [set_cycles set_matrix set_fixed sudokuString matrix fixed row column
    quadrant allocated solution cycles];
  rewrite ?updateOptions_matrix, ?updateOptions_fixed, ?updateOptions_allocated,
    ?updateOptions_solution, ?updateOptions_cycles, ?updateOptions_sudokuString,
    ?unallocate_matrix, ?unallocate_fixed, ?unallocate_allocated, ?unallocate_solution,
    ?unallocate_cycles, ?unallocate_sudokuString; try reflexivity;
  rewrite ?fam_row, ?fam_col, ?fam_quad, ?fam_sets_updateOptions, ?fam_sets_unallocate;
  reflexivity.

Lemma updateOptions_set_cycles k r c n st :
  updateOptions k r c (set_cycles n st) = set_cycles n (updateOptions k r c st).
Proof. state_comm. Qed.

Lemma updateOptions_set_matrix k r c m st :
  updateOptions k r c (set_matrix m st) = set_matrix m (updateOptions k r c st).
Proof. state_comm. Qed.

Lemma updateOptions_set_fixed k r c F st :
  updateOptions k r c (set_fixed F st) = set_fixed F (updateOptions k r c st).
Proof. state_comm. Qed.

Lemma unallocate_set_cycles x r c n st :
  unallocate x r c (set_cycles n st) = set_cycles n (unallocate x r c st).
Proof. state_comm. Qed.

(** Removing a digit that the cell itself holds changes nothing: the
    digit is in none of the cell's three sets. *)
Lemma updateOptions_held st r c n :
  inv st → r < 9 → c < 9 → digit_at (matrix st) r c = Some n → updateOptions n r c st = st.
Proof.
  intros Hinv Hr Hc Hd.
  assert (Habs : ∀ f, n ∉ fam_sets st f !!! fam_index f r c).
  { intros f. rewrite (inv_sets _ Hinv f _ n (fam_index_lt f r c Hr Hc)). intros [_ Hf].
    apply not_true_iff_false in Hf. apply Hf, in_unit_spec. eauto 10. }
  apply state_eq; rewrite ?updateOptions_matrix, ?updateOptions_fixed,
    ?updateOptions_allocated, ?updateOptions_solution, ?updateOptions_cycles,
    ?updateOptions_sudokuString; try reflexivity;
    rewrite ?fam_row, ?fam_col, ?fam_quad, fam_sets_updateOptions;
    apply JsSet.remove_at_absent, Habs.
Qed.

Definition alloc_map (h : state → state) (a : alloc_result) : alloc_result :=
    match a with Allocated s => Allocated (h s) | SolvedExc s => SolvedExc (h s) end.

Lemma allocate_set_cycles x r c n st :
    allocate x r c (set_cycles n st) =
      alloc_map (set_cycles (S n)) (allocate x r c st).
  Proof.
    destruct st. unfold allocate. simpl. case_match; simpl; [done|].
    f_equal. rewrite <- updateOptions_set_cycles. done.
  Qed.

Lemma allocate_matrix x r c st :
  matrix (alloc_state (allocate x r c st)) = (matrix st).[r, c := num_val x].
Proof. unfold allocate. simpl. case_match; simpl; [done|]. by rewrite updateOptions_matrix. Qed.

(** What an allocation that does not throw leaves alone. *)
Lemma allocate_frame x r c st st' :
  allocate x r c st = Allocated st' →
  fixed st' = fixed st ∧ solution st' = solution st ∧ sudokuString st' = sudokuString st.
Proof.
  intros [_ ->]%allocate_Allocated.
  by rewrite updateOptions_fixed, updateOptions_solution, updateOptions_sudokuString.
Qed.

Lemma allocate_set_matrix x r c m st :
    allocate x r c (set_matrix m st) =
      alloc_map (set_matrix (m.[r, c := num_val x])) (allocate x r c st).
  Proof.
    destruct st. unfold allocate. simpl. case_match; simpl; [done|].
    f_equal. rewrite <- updateOptions_set_matrix. done.
  Qed.

Lemma allocate_set_fixed x r c F st :
    allocate x r c (set_fixed F st) = alloc_map (set_fixed F) (allocate x r c st).
  Proof.
    destruct st. unfold allocate. simpl. case_match; simpl; [done|].
    f_equal. rewrite <- updateOptions_set_fixed. done.
  Qed.

#[export] Instance alloc_result_equiv : Equiv alloc_result := λ a b,
    match a, b with
    | Allocated x, Allocated y | SolvedExc x, SolvedExc y => x ≡ y
    | _, _ => False
    end.

#[export] Instance updateOptions_proper k r c : Proper ((≡) ==> (≡)) (updateOptions k r c).
  Proof.
    intros st1 st2 H. rewrite (state_equiv_set_cycles _ _ H), updateOptions_set_cycles.
    apply set_cycles_equiv.
  Qed.

#[export] Instance unallocate_proper x r c : Proper ((≡) ==> (≡)) (unallocate x r c).
  Proof.
    intros st1 st2 H. rewrite (state_equiv_set_cycles _ _ H), unallocate_set_cycles.
    apply set_cycles_equiv.
  Qed.

#[export] Instance allocate_proper x r c : Proper ((≡) ==> (≡)) (allocate x r c).
  Proof.
    intros st1 st2 H. rewrite (state_equiv_set_cycles _ _ H), allocate_set_cycles.
    destruct (allocate x r c st2); apply set_cycles_equiv.
  Qed.

#[export] Instance calcOptions_proper : Proper ((≡) ==> (=) ==> (=) ==> (=)) _calcOptions.
  Proof.
    intros st1 st2 H ?? -> ?? ->. unfold _calcOptions, _getRowOptions,
      _getColumnOptions, _getQuadrantOptions. by rewrite H.
  Qed.

#[export] Instance inv_proper : Proper ((≡) ==> iff) inv.
  Proof.
    intros st1 st2 H. rewrite (state_equiv_set_cycles _ _ H).
    split; intros []; split; done.
  Qed.

  (** ** A decision procedure for the invariant on concrete states *)

Definition unit_free (g : list (list jsval)) (f : family) (i : nat) : gset nat :=
    list_to_set (List.filter (λ d, negb (in_unit g f i d)) (seq 1 9)).

Definition is_given (v : jsval) : bool :=
    match v with JNum n => negb (n =? 0) | _ => false end.

Definition inv_b (st : state) : bool :=
    let m := matrix st in
    (length m =? 9) && forallb (λ rw, length rw =? 9) m &&
    forallb (λ '(r, c), bool_decide (m.[r, c] ≠ Some JUndef)) all_cells &&
    forallb (λ f, (length (fam_sets st f) =? 9) &&
                  forallb (λ i, bool_decide (fam_sets st f !!! i = unit_free m f i))
                    (seq 0 9)) families &&
    forallb (λ '(r, c), match digit_at m r c with
                        | Some d => (1 <=? d) && (d <=? 9)
                        | None => true
                        end) all_cells &&
    forallb (λ '(r, c), match cell st r c with
      | JStr d => forallb (λ '(r', c'), bool_decide ((r', c') = (r, c)) ||
                    negb (same_unit r c r' c') ||
                    negb (bool_decide (digit_at m r' c' = Some d))) all_cells
      | _ => true
      end) all_cells &&
    forallb (λ '(r, c), (r <? 9) && (c <? 9) && is_given (cell st r c))
      (elements (fixed st)) &&
    forallb (λ '(r, c), negb (is_given (cell st r c)) || isFixed st r c) all_cells &&
    bool_decide (allocated st = Z.of_nat (count2 (λ v, bool_decide (is_Some (digit_of v))) m)) &&
    bool_decide (allocated st < 81)%Z.

Lemma forallb_all_cells (P : nat → nat → bool) :
    forallb (λ '(r, c), P r c) all_cells = true ↔ ∀ r c, r < 9 → c < 9 → P r c = true.
  Proof.
    rewrite forallb_forall. split.
    - intros H r c Hr Hc. apply (H (r, c)), list_elem_of_In, elem_of_all_cells. done.
    - intros H [r c] Hin%list_elem_of_In%elem_of_all_cells. apply H; tauto.
  Qed.

Lemma is_given_spec v : is_given v = true ↔ ∃ n, v = JNum n ∧ n ≠ 0.
  Proof. destruct v; simpl; rewrite ?negb_true_iff, ?Nat.eqb_neq; naive_solver. Qed.

Lemma inv_b_sets st f i :
    i < 9 → fam_sets st f !!! i = unit_free (matrix st) f i →
    ∀ d, d ∈ fam_sets st f !!! i ↔ 1 ≤ d ≤ 9 ∧ in_unit (matrix st) f i d = false.
  Proof.
    intros _ -> d. unfold unit_free. rewrite elem_of_list_to_set, list_elem_of_In,
      filter_In, in_seq, negb_true_iff. intuition lia.
  Qed.

Lemma inv_b_sound st : inv_b st = true → inv st.
  Proof.
    unfold inv_b. rewrite !andb_true_iff, !forallb_all_cells.
    intros (((((((((Hlen & Hrows) & Hund) & Hfam) & Hdig) & Hpl) & Hfx1) & Hfx2) & Hcnt) & H81).
    apply Nat.eqb_eq in Hlen. rewrite forallb_forall in Hrows, Hfam, Hfx1.
    assert (Hs : shape2 9 9 (matrix st)).
    { split; [done|]. apply Forall_forall. intros rw Hrw%list_elem_of_In.
      by apply Nat.eqb_eq, Hrows. }
    assert (Hf : ∀ f, (length (fam_sets st f) =? 9) &&
               forallb (λ i, bool_decide (fam_sets st f !!! i = unit_free (matrix st) f i))
                 (seq 0 9) = true) by (intros f; apply Hfam; destruct f; simpl; auto).
    split; [done| | | | | | | |].
    - intros r c Hv. destruct (lookup2_bounds _ _ _ _ _ _ Hs Hv) as [Hr Hc].
      specialize (Hund r c Hr Hc). by apply bool_decide_eq_true in Hund.
    - intros f. specialize (Hf f). apply andb_true_iff in Hf as [Hl _]. by apply Nat.eqb_eq.
    - intros f i d Hi. specialize (Hf f). apply andb_true_iff in Hf as [_ Hf].
      rewrite forallb_forall in Hf. apply inv_b_sets; [done|].
      specialize (Hf i ltac:(apply in_seq; lia)). by apply bool_decide_eq_true in Hf.
    - intros r c d Hd. destruct (digit_at_bounds _ _ _ _ Hs Hd) as [Hr Hc].
      specialize (Hdig r c Hr Hc). rewrite Hd, andb_true_iff, !Nat.leb_le in Hdig. done.
    - intros r c d r' c' Hcell Hne Hsu Hd.
      destruct (lookup2_bounds _ _ _ _ _ _ Hs (cell_JStr _ _ _ _ Hcell)) as [Hr Hc].
      destruct (digit_at_bounds _ _ _ _ Hs Hd) as [Hr' Hc'].
      specialize (Hpl r c Hr Hc). rewrite Hcell, forallb_all_cells in Hpl.
      specialize (Hpl r' c' Hr' Hc').
      rewrite Hsu, Hd, (bool_decide_eq_true_2 (Some d = Some d)) in Hpl by done.
      simpl in Hpl. rewrite !orb_false_r in Hpl. by apply bool_decide_eq_true in Hpl.
    - intros r c. unfold isFixed. rewrite bool_decide_eq_true. split.
      + intros Hin. apply elem_of_elements, list_elem_of_In, Hfx1 in Hin.
        apply andb_true_iff in Hin as [[?%Nat.ltb_lt ?%Nat.ltb_lt]%andb_true_iff Hg].
        apply is_given_spec in Hg. done.
      + intros (Hr & Hc & Hg). specialize (Hfx2 r c Hr Hc).
        rewrite (proj2 (is_given_spec _) Hg) in Hfx2. simpl in Hfx2.
        by apply bool_decide_eq_true in Hfx2.
    - by apply bool_decide_eq_true in Hcnt.
    - by apply bool_decide_eq_true in H81.
  Qed.

(** ** The engine's contract *)

(** C3: under the invariant, the candidate set [_calcOptions] computes
    from the three incremental families equals the set of digits that
    no cell of the cell's row, column or block holds. *)
Theorem calcOptions_refines st r c :
  inv st → r < 9 → c < 9 → _calcOptions st r c = grid_options (matrix st) r c.
Proof. apply calcOptions_grid. Qed.

(** C4: allocating a candidate digit into an empty cell and then
    unallocating it restores the solver state: the matrix, the counter
    and all three families of candidate sets (only the statistic
    [cycles] has moved). *)
Theorem unallocate_allocate st r c d st' :
  inv st → cell st r c = JNull → d ∈ _calcOptions st r c →
  allocate (StrV d) r c st = Allocated st' →
  unallocate (StrV d) r c st' ≡ st.
Proof. apply unallocate_allocate_equiv. Qed.

(** C5: an allocation the search makes (a candidate digit, as a key
    string, into an empty cell) that does not complete the board keeps
    the bookkeeping invariant. *)
Theorem allocate_inv st r c d st' :
  inv st → cell st r c = JNull → d ∈ _calcOptions st r c →
  allocate (StrV d) r c st = Allocated st' → inv st'.
Proof. intros. eapply allocate_keeps_inv; eauto. Qed.

(** ** A concrete solver state for the witnesses *)

(** The state whose sets are recomputed from a grid, with its givens fixed. *)
Definition grid_state (g : list (list jsval)) : state :=
  {| sudokuString := String.EmptyString;
     matrix := g;
     fixed := list_to_set (List.filter (λ '(r, c), is_given (default JUndef (g.[r, c])))
                             all_cells);
     row := map (unit_free g FRow) (seq 0 9);
     column := map (unit_free g FCol) (seq 0 9);
     quadrant := map (unit_free g FQuad) (seq 0 9);
     allocated := Z.of_nat (count2 (λ v, bool_decide (is_Some (digit_of v))) g);
     solution := [];
     cycles := 0 |}.

(** A published puzzle with 30 givens. *)
Definition example_state : state :=
  grid_state (parse easy_puzzle).

Lemma example_state_inv : inv example_state.
Proof. apply inv_b_sound. vm_compute. reflexivity. Qed.

Lemma calcOptions_refines_witness :
  inv_b example_state = true ∧
  _calcOptions example_state 0 2 = grid_options (matrix example_state) 0 2.
Proof.
  split; [vm_compute; reflexivity|].
  apply (calcOptions_refines example_state 0 2); [exact example_state_inv|lia|lia].
Defined.

Lemma unallocate_allocate_witness :
  cell example_state 0 2 = JNull ∧ 1 ∈ _calcOptions example_state 0 2 ∧
  unallocate (StrV 1) 0 2 (alloc_state (allocate (StrV 1) 0 2 example_state)) ≡ example_state.
Proof.
  split; [vm_compute; reflexivity|]. split; [apply JsSet.mem_spec; vm_compute; reflexivity|].
  apply (unallocate_allocate example_state 0 2 1); [exact example_state_inv
    |vm_compute; reflexivity|apply JsSet.mem_spec; vm_compute; reflexivity
    |vm_compute; reflexivity].
Defined.

Lemma allocate_inv_witness :
  cell example_state 0 2 = JNull ∧ 1 ∈ _calcOptions example_state 0 2 ∧
  inv (alloc_state (allocate (StrV 1) 0 2 example_state)).
Proof.
  split; [vm_compute; reflexivity|]. split; [apply JsSet.mem_spec; vm_compute; reflexivity|].
  apply (allocate_inv example_state 0 2 1); [exact example_state_inv
    |vm_compute; reflexivity|apply JsSet.mem_spec; vm_compute; reflexivity
    |vm_compute; reflexivity].
Defined.

Lemma unallocate_inv_witness :
  cell (alloc_state (allocate (StrV 1) 0 2 example_state)) 0 2 = JStr 1 ∧
  inv (unallocate (StrV 1) 0 2 (alloc_state (allocate (StrV 1) 0 2 example_state))).
Proof.
  split; [vm_compute; reflexivity|].
  apply unallocate_inv; [apply inv_b_sound; vm_compute; reflexivity|vm_compute; reflexivity].
Defined.
End EngineFacts.

Export EngineFacts.
