(* ===== verification/Driver.v ===== *)
(** * The search driver: determineNextCell, solveCell, solve

    [determineNextCell] (lines 150-171) is written as the code's two
    nested [for .. in] loops: [best] and the function-scoped
    [countOptions] are threaded through both loops, [min] is the constant
    10 the code never updates, and the outer loop tests the value
    [countOptions] has after the inner one.  [next_cell_ref] is the plain
    selector it equals: the first open cell with one candidate, else the
    last open cell with between one and nine.

    [solveCell] (lines 123-147) takes fuel.  Its [for (number in ...)]
    loop is [try_numbers], parameterised by the recursive call; the
    [try .. catch] around [allocate] is the match on [SolvedExc]; the
    steps are pushed at the end of [solution] while the recursion
    unwinds.  When [determineNextCell] finds no cell the code evaluates
    [_calcOptions(undefined, undefined)], whose keys the [Set] helper
    leaves empty, so the loop does not run and the call returns [false]. *)

From S2P Require Import Prelude JsSet Board Rules Engine.

Module Driver.

  (** [var min = 10;] is never assigned again. *)
Definition determineNextCell_min : nat := 10.

  (** The inner loop over the cells of row [r], from column [c]. *)
Fixpoint dnc_cols (st : state) (r c : nat) (cells : list jsval)
      (best : option (nat * nat)) (countOptions : option nat)
      : option (nat * nat) * option nat :=
    match cells with
    | [] => (best, countOptions)
    | v :: rest =>
        if negb (isFixed st r c) && is_nullish v then
          let k := JsSet.count (_calcOptions st r c) in
          let best' := if (k <? determineNextCell_min) && (0 <? k)
                       then Some (r, c) else best in
          if k =? 1 then (best', Some k)
          else dnc_cols st r (S c) rest best' (Some k)
        else dnc_cols st r (S c) rest best countOptions
    end.

  (** The outer loop over the rows, from row [r]. *)
Fixpoint dnc_rows (st : state) (r : nat) (rows : list (list jsval))
      (best : option (nat * nat)) (countOptions : option nat) : option (nat * nat) :=
    match rows with
    | [] => best
    | cells :: rest =>
        let '(best', countOptions') := dnc_cols st r 0 cells best countOptions in
        if bool_decide (countOptions' = Some 1) then best'
        else dnc_rows st (S r) rest best' countOptions'
    end.

  (** [determineNextCell()]: [None] is the empty object [{}]. *)
Definition determineNextCell (st : state) : option (nat * nat) :=
    dnc_rows st 0 (matrix st) None None.

  (** The [for (number in candidates)] loop of [solveCell]. *)
Definition try_numbers (rec : state → option (bool * state)) (r c : nat) :
      list nat → state → option (bool * state) :=
    fix go ds st :=
      match ds with
      | [] => Some (false, st)
      | number :: ds' =>
          match allocate (StrV number) r c st with
          | SolvedExc st1 =>
              Some (true, set_solution (solution st1 ++ [mkStep number r c]) st1)
          | Allocated st1 =>
              match rec st1 with
              | None => None
              | Some (true, st2) =>
                  Some (true, set_solution (solution st2 ++ [mkStep number r c]) st2)
              | Some (false, st2) => go ds' (unallocate (StrV number) r c st2)
              end
          end
      end.

  (** [solveCell()]; [None] when the fuel runs out. *)
Fixpoint solveCell (fuel : nat) (st : state) : option (bool * state) :=
    match fuel with
    | 0 => None
    | S fuel' =>
        match determineNextCell st with
        | None => Some (false, st)
        | Some (r, c) =>
            try_numbers (solveCell fuel') r c (JsSet.keys (_calcOptions st r c)) st
        end
    end.

  (** The number of empty ([== null]) cells: each level of the recursion
      fills one. *)
Definition nulls (st : state) : nat := count2 is_nullish (matrix st).

  (** [solve()] (lines 119-121), with enough fuel for every level. *)
Definition solve (st : state) : option (bool * state) := solveCell (S (nulls st)) st.
End Driver.

Export Driver.
