(* ===== verification/NextCell.v ===== *)
(** * determineNextCell against a plain reference selector

    The open cells of the matrix are the cells the two loops of
    [determineNextCell] inspect: not fixed and [== null], in row-major
    order.  [next_cell_ref] selects the first open cell whose candidate
    count is one, and otherwise the last open cell whose count lies
    strictly between 0 and [min] (10).  The main theorem,
    [determineNextCell_ref], shows that the code's loops, with the
    function-scoped [countOptions] shared by both loops and tested after
    the inner one, compute exactly that: the variable's value after a
    row without a break is never 1, so no stale count makes the outer
    loop stop early.  [min] is never lowered, so the selected cell is in
    general not the one with the fewest candidates. *)

From S2P Require Import Prelude JsSet Board Rules Engine Driver.

Module NextCell.

(** The candidate count the loop computes for a cell. *)
Definition count_at (st : state) (p : nat * nat) : nat :=
  JsSet.count (_calcOptions st p.1 p.2).

(** The cells of row [r] from column [c] the inner loop inspects. *)
Fixpoint open_in_row (st : state) (r c : nat) (cells : list jsval) : list (nat * nat) :=
  match cells with
  | [] => []
  | v :: rest =>
      (if negb (isFixed st r c) && is_nullish v then [(r, c)] else []) ++
      open_in_row st r (S c) rest
  end.

(** The cells of the rows from row [r] the two loops inspect. *)
Fixpoint open_rows (st : state) (r : nat) (rows : list (list jsval)) : list (nat * nat) :=
  match rows with
  | [] => []
  | cells :: rest => open_in_row st r 0 cells ++ open_rows st (S r) rest
  end.

Definition open_cells (st : state) : list (nat * nat) := open_rows st 0 (matrix st).

(** A count the loop accepts as [best]: [countOptions < min && countOptions > 0]. *)
Definition acceptable (k : nat) : bool := (k <? determineNextCell_min) && (0 <? k).

(** The reference selector. *)
Definition next_cell_ref (st : state) : option (nat * nat) :=
  match List.find (λ p, count_at st p =? 1) (open_cells st) with
  | Some p => Some p
  | None => last (List.filter (λ p, acceptable (count_at st p)) (open_cells st))
  end.

(** The loops as one scan over the open cells, with [best] threaded. *)
Fixpoint scan (st : state) (l : list (nat * nat)) (best : option (nat * nat))
    : option (nat * nat) :=
  match l with
  | [] => best
  | p :: l' =>
      if count_at st p =? 1 then Some p
      else scan st l' (if acceptable (count_at st p) then Some p else best)
  end.

Lemma scan_spec st l best :
  scan st l best =
    match List.find (λ p, count_at st p =? 1) l with
    | Some p => Some p
    | None =>
        match last (List.filter (λ p, acceptable (count_at st p)) l) with
        | Some p => Some p
        | None => best
        end
    end.
Proof.
  revert best. induction l as [|p l IH]; intros best; [done|]. simpl.
  destruct (count_at st p =? 1) eqn:E1; [done|]. rewrite IH.
  destruct (List.find _ l); [done|].
  destruct (acceptable (count_at st p)); simpl; rewrite ?last_cons;
    destruct (last _); done.
Qed.

Lemma scan_app st l1 l2 best :
  scan st (l1 ++ l2) best =
    match List.find (λ p, count_at st p =? 1) l1 with
    | Some _ => scan st l1 best
    | None => scan st l2 (scan st l1 best)
    end.
Proof.
  revert best. induction l1 as [|p l1 IH]; intros best; [done|]. simpl.
  destruct (count_at st p =? 1); [done|]. apply IH.
Qed.

(** The inner loop: its [best] is the scan of the row's open cells, and
    it leaves [countOptions] at 1 exactly when it broke out. *)
Lemma dnc_cols_scan st r c cells best cnt :
  cnt ≠ Some 1 →
  (dnc_cols st r c cells best cnt).1 = scan st (open_in_row st r c cells) best ∧
  ((dnc_cols st r c cells best cnt).2 = Some 1 ↔
     is_Some (List.find (λ p, count_at st p =? 1) (open_in_row st r c cells))).
Proof.
  revert c best cnt. induction cells as [|v cells IH]; intros c best cnt Hcnt; simpl.
  - split; [done|]. split; [done|]. intros [? ?]; done.
  - destruct (negb (isFixed st r c) && is_nullish v); simpl.
    + unfold count_at at 1 2 3; simpl. unfold acceptable.
      destruct (JsSet.count (_calcOptions st r c) =? 1) eqn:E1.
      * apply Nat.eqb_eq in E1. rewrite E1. simpl. split; [done|]. split; eauto.
      * apply Nat.eqb_neq in E1. apply IH. congruence.
    + by apply IH.
Qed.

(** The outer loop, started with a [countOptions] other than 1. *)
Lemma dnc_rows_scan st r rows best cnt :
  cnt ≠ Some 1 → dnc_rows st r rows best cnt = scan st (open_rows st r rows) best.
Proof.
  revert r best cnt. induction rows as [|cells rows IH]; intros r best cnt Hcnt; [done|].
  simpl. destruct (dnc_cols_scan st r 0 cells best cnt Hcnt) as [H1 H2].
  destruct (dnc_cols st r 0 cells best cnt) as [b' k'] eqn:E. simpl in H1, H2.
  rewrite scan_app. case_bool_decide as Hk.
  - apply H2 in Hk as [p Hp]. by rewrite Hp.
  - destruct (List.find _ _) eqn:Ef; [exfalso; apply Hk, H2; eauto|].
    rewrite <- H1. by apply IH.
Qed.

Lemma determineNextCell_ref_aux st : determineNextCell st = next_cell_ref st.
Proof.
  unfold determineNextCell, next_cell_ref, open_cells.
  rewrite dnc_rows_scan by done. rewrite scan_spec.
  destruct (List.find _ _); [done|]. by destruct (last _).
Qed.


Lemma elem_of_open_in_row st r c0 cells r' c' :
  (r', c') ∈ open_in_row st r c0 cells ↔
    r' = r ∧ c0 ≤ c' ∧ isFixed st r c' = false ∧
    ∃ v, cells !! (c' - c0) = Some v ∧ is_nullish v = true.
Proof.
  revert c0. induction cells as [|v cells IH]; intros c0; simpl.
  - split; [intros ?%not_elem_of_nil; done|]. intros (_ & _ & _ & ? & ? & _). done.
  - rewrite elem_of_app, IH. split.
    + intros [Hin|(-> & ? & ? & w & Hw & ?)].
      * destruct (negb (isFixed st r c0) && is_nullish v) eqn:E; [|by apply not_elem_of_nil in Hin].
        apply list_elem_of_singleton in Hin. simplify_eq.
        apply andb_true_iff in E as [E1 E2]. apply negb_true_iff in E1. rewrite Nat.sub_diag.
        split; [done|]. split; [lia|]. split; [done|]. by exists v.
      * split; [done|]. split; [lia|]. split; [done|]. exists w.
        replace (c' - c0) with (S (c' - S c0)) by lia. done.
    + intros (-> & ? & ? & w & Hw & ?). destruct (decide (c' = c0)) as [->|Hne].
      * left. rewrite Nat.sub_diag in Hw. simplify_eq/=.
        match goal with H : isFixed _ _ _ = false |- _ => rewrite H end. simpl.
        match goal with H : is_nullish _ = true |- _ => rewrite H end. by left.
      * right. split; [done|]. split; [lia|]. split; [done|]. exists w.
        replace (c' - c0) with (S (c' - S c0)) in Hw by lia. done.
Qed.

Lemma elem_of_open_rows st r0 rows r c :
  (r, c) ∈ open_rows st r0 rows ↔
    r0 ≤ r ∧ isFixed st r c = false ∧
    ∃ v, lookup2 rows (r - r0) c = Some v ∧ is_nullish v = true.
Proof.
  unfold lookup2. revert r0. induction rows as [|cells rows IH]; intros r0; simpl.
  - split; [intros ?%not_elem_of_nil; done|]. intros (_ & _ & ? & ? & _). done.
  - rewrite elem_of_app, IH, elem_of_open_in_row. rewrite Nat.sub_0_r. split.
    + intros [(-> & _ & ? & v & ? & ?)|(? & ? & v & Hv & ?)].
      * rewrite Nat.sub_diag. split; [lia|]. split; [done|]. exists v. done.
      * split; [lia|]. split; [done|]. exists v.
        replace (r - r0) with (S (r - S r0)) by lia. done.
    + intros (? & ? & v & Hv & ?). destruct (decide (r = r0)) as [->|Hne].
      * left. rewrite Nat.sub_diag in Hv. simpl in Hv. split; [done|].
        split; [lia|]. split; [done|]. by exists v.
      * right. split; [lia|]. split; [done|]. exists v.
        replace (r - r0) with (S (r - S r0)) in Hv by lia. done.
Qed.

Lemma elem_of_open_cells st r c :
  (r, c) ∈ open_cells st ↔
    isFixed st r c = false ∧ ∃ v, (matrix st).[r, c] = Some v ∧ is_nullish v = true.
Proof.
  unfold open_cells. rewrite elem_of_open_rows, Nat.sub_0_r. split; [naive_solver|].
  intros [? ?]. split; [lia|done].
Qed.

(** What [determineNextCell] returns: an open cell it accepts, or nothing
    when it accepts no open cell. *)
Lemma determineNextCell_Some st p :
  determineNextCell st = Some p → p ∈ open_cells st ∧ acceptable (count_at st p) = true.
Proof.
  rewrite determineNextCell_ref_aux. unfold next_cell_ref.
  destruct (List.find _ _) as [q|] eqn:Ef.
  - intros [= <-]. apply find_some in Ef as [Hin Hq]. apply Nat.eqb_eq in Hq.
    split; [by apply list_elem_of_In|]. by rewrite Hq.
  - intros Hl. apply last_Some_elem_of in Hl.
    apply list_elem_of_In, filter_In in Hl as [Hin Ha]. split; [by apply list_elem_of_In|done].
Qed.

Lemma determineNextCell_None st :
  determineNextCell st = None → ∀ p, p ∈ open_cells st → acceptable (count_at st p) = false.
Proof.
  rewrite determineNextCell_ref_aux. unfold next_cell_ref.
  destruct (List.find _ _) as [q|] eqn:Ef; [done|].
  intros Hl%last_None p Hp. destruct (acceptable (count_at st p)) eqn:Ea; [|done].
  assert (In p (List.filter (λ p, acceptable (count_at st p)) (open_cells st))) as Hin.
  { apply filter_In. split; [by apply list_elem_of_In|done]. }
  by rewrite Hl in Hin.
Qed.
(** C9: [determineNextCell] returns the first open cell, in row-major
    order, with exactly one candidate, and otherwise the last open cell
    whose candidate count lies strictly between 0 and 10: the
    function-scoped [countOptions] that the outer loop tests never makes
    it stop before a cell with one candidate was found. *)
Theorem determineNextCell_ref st : determineNextCell st = next_cell_ref st.
Proof. apply determineNextCell_ref_aux. Qed.

End NextCell.

Export NextCell.
