(* ===== verification/Backtrack.v ===== *)
(** * The backtracking search: termination, restoration, soundness,
      completeness

    Properties of [Driver.solveCell]:
    - it needs at most one unit of fuel per empty cell, plus one, and
      more fuel does not change its result (termination, fuel
      independence);
    - a call that reports failure leaves the solver state as it found it,
      up to the statistic [cycles];
    - a call that reports success leaves a complete grid in which no digit
      the search placed repeats in a row, column or block, the givens
      untouched, and a trace whose replay rebuilds the grid, one step per
      empty cell;
    - if the givens extend to a solution, the call reports success.
    The loop [try_numbers] is handled by lemmas parameterised by the
    recursive call, so each fuel induction only supplies the recursive
    case. *)

From S2P Require Import Prelude JsSet Board Rules Engine Driver NextCell.

Module Backtrack.

(** Close [∃ b st', Some (b, st) = Some (b', st') ∧ ...] when the
    result is a success. *)
Ltac succeed := do 2 eexists; split; [reflexivity|done].

(** No cell of the matrix holds [undefined] ([parse] never makes one). *)
Definition no_undef (g : list (list jsval)) : Prop := ∀ r c, g.[r, c] ≠ Some JUndef.

(** The grid the trace rebuilds when its steps are written in order
    ([animate] walks [solution] from its last element to its first,
    which is the order of [rev]). *)
Definition replay (steps : list step) (g : list (list jsval)) : list (list jsval) :=
  fold_left (λ g s, g.[s_row s, s_column s := JStr (s_number s)]) steps g.

(** What a successful search from [st] to [st'] with trace [tr]
    guarantees. *)
Record success (st st' : state) (tr : list step) : Prop := {
  succ_shape : shape2 9 9 (matrix st');
  succ_complete : complete (matrix st');
  succ_placed : placed_ok (matrix st');
  succ_keep : ∀ r c v, (matrix st).[r, c] = Some v → v ≠ JNull →
    (matrix st').[r, c] = Some v;
  succ_new : ∀ r c v, (matrix st').[r, c] = Some v →
    (matrix st).[r, c] = Some v ∨ ∃ d, v = JStr d;
  succ_fixed : fixed st' = fixed st;
  succ_solution : solution st' = solution st ++ tr;
  succ_replay : replay (rev tr) (matrix st) = matrix st';
  succ_length : length tr = nulls st;
  succ_stale : ∃ r c d, cell st' r c = JStr d ∧ d ∈ _calcOptions st' r c
}.

Lemma no_undef_insert2 g r c v :
  no_undef g → v ≠ JUndef → no_undef (g.[r, c := v]).
Proof.
  intros Hu Hv r' c'. destruct (decide ((r, c) = (r', c'))) as [[= <- <-]|Hne].
  - destruct (g.[r, c]) eqn:E.
    + rewrite (lookup2_insert2_eq _ _ _ _ _ E). congruence.
    + unfold lookup2, insert2 in *. rewrite list_lookup_alter_eq.
      destruct (g !! r); simpl in *; [|done]. rewrite list_insert_ge; [by rewrite E|].
      by apply lookup_ge_None.
  - rewrite lookup2_insert2_ne by done. apply Hu.
Qed.

(** An open cell of a matrix without [undefined] is [null]. *)
Lemma open_cell_null st r c :
  no_undef (matrix st) → (r, c) ∈ open_cells st →
  isFixed st r c = false ∧ (matrix st).[r, c] = Some JNull.
Proof.
  intros Hu (? & v & Hv & Hn)%elem_of_open_cells. split; [done|].
  destruct v; try done. exfalso. by apply (Hu r c).
Qed.

(** Filling an empty cell removes one empty cell. *)
Lemma nulls_fill g r c v :
  g.[r, c] = Some JNull → is_nullish v = false →
  count2 is_nullish (g.[r, c := v]) + 1 = count2 is_nullish g.
Proof.
  intros Hg Hv. pose proof (count2_insert2 is_nullish _ _ _ v _ Hg) as H.
  rewrite Hv in H. simpl in H. lia.
Qed.

(** ** Termination *)

Lemma try_numbers_total rec r c M ds st :
  M.[r, c] = Some JNull → matrix st = M →
  (∀ d st1, matrix st1 = M.[r, c := JStr d] →
     ∃ b st2, rec st1 = Some (b, st2) ∧ (b = false → matrix st2 = matrix st1)) →
  ∃ b st', try_numbers rec r c ds st = Some (b, st') ∧ (b = false → matrix st' = M).
Proof.
  intros HM. revert st. induction ds as [|d ds IH]; intros st Hst Hrec; simpl; [succeed|].
  pose proof (allocate_matrix (StrV d) r c st) as Hm.
  destruct (allocate (StrV d) r c st) as [st1|st1]; simpl in Hm; [|succeed].
  destruct (Hrec d st1) as (b & st2 & -> & Hb); [by rewrite Hm, Hst|].
  destruct b; [succeed|]. apply IH; [|done].
  rewrite unallocate_matrix, Hb, Hm, Hst by done. rewrite insert2_insert2.
  by apply insert2_id.
Qed.

Lemma solveCell_total fuel st :
  no_undef (matrix st) → nulls st < fuel →
  ∃ b st', solveCell fuel st = Some (b, st') ∧ (b = false → matrix st' = matrix st).
Proof.
  revert st. induction fuel as [|f IH]; intros st Hu Hn; [lia|]. simpl.
  destruct (determineNextCell st) as [[r c]|] eqn:Ed; [|succeed].
  apply determineNextCell_Some in Ed as [Hopen _].
  destruct (open_cell_null _ _ _ Hu Hopen) as [_ HM].
  apply try_numbers_total; [done|done|]. intros d st1 Hst1. apply IH.
  - rewrite Hst1. by apply no_undef_insert2.
  - unfold nulls in *. rewrite Hst1. pose proof (nulls_fill _ _ _ (JStr d) HM eq_refl). lia.
Qed.

(** ** Fuel independence *)

Lemma try_numbers_mono (rec rec' : state → option (bool * state)) r c ds st res :
  (∀ st1 res1, rec st1 = Some res1 → rec' st1 = Some res1) →
  try_numbers rec r c ds st = Some res → try_numbers rec' r c ds st = Some res.
Proof.
  intros Hrec. revert st. induction ds as [|d ds IH]; intros st; simpl; [done|].
  destruct (allocate (StrV d) r c st) as [st1|st1]; [|done].
  destruct (rec st1) as [[[] st2]|] eqn:E.
  - by rewrite (Hrec _ _ E).
  - rewrite (Hrec _ _ E). apply IH.
  - done.
Qed.

Lemma solveCell_mono f f' st res :
  solveCell f st = Some res → f ≤ f' → solveCell f' st = Some res.
Proof.
  revert f' st res. induction f as [|f IH]; intros f' st res H Hle; [done|].
  destruct f' as [|f']; [lia|]. simpl in *.
  destruct (determineNextCell st) as [[r c]|]; [|done].
  eapply try_numbers_mono; [|exact H]. intros. apply IH; [done|lia].
Qed.

(** ** Failure restores the state *)

Lemma try_numbers_false rec r c st ds st' :
  inv st → cell st r c = JNull → (∀ d, d ∈ ds → d ∈ _calcOptions st r c) →
  (∀ st1 st2, inv st1 → rec st1 = Some (false, st2) → st2 ≡ st1) →
  ∀ st_l, st_l ≡ st → try_numbers rec r c ds st_l = Some (false, st') → st' ≡ st.
Proof.
  intros Hinv Hnull Hds Hrec. induction ds as [|d ds IH]; intros st_l Hl; simpl.
  - intros [= <-]. done.
  - destruct (allocate (StrV d) r c st_l) as [st1|st1] eqn:Ea; [|done].
    destruct (rec st1) as [[[] st2]|] eqn:Er; [done| |done].
    assert (Hd : d ∈ _calcOptions st_l r c) by (rewrite Hl; apply Hds; left).
    assert (inv st_l) by (by rewrite Hl).
    assert (cell st_l r c = JNull) by (by rewrite Hl).
    assert (Hi1 : inv st1) by (eapply allocate_keeps_inv; eauto).
    apply IH; [intros; apply Hds; by right|].
    rewrite (Hrec _ _ Hi1 Er), (unallocate_allocate_equiv st_l r c d st1); done.
Qed.

Lemma solveCell_restores f st st' :
  inv st → solveCell f st = Some (false, st') → st' ≡ st.
Proof.
  revert st st'. induction f as [|f IH]; intros st st' Hinv; simpl; [done|].
  destruct (determineNextCell st) as [[r c]|] eqn:Ed; [|intros [= <-]; done].
  apply determineNextCell_Some in Ed as [Hopen _].
  destruct (open_cell_null _ _ _ (inv_no_undef _ Hinv) Hopen) as [_ HM].
  eapply (try_numbers_false _ r c st); [done| | |intros st1 st2 ? ?; by eapply IH|done].
  - unfold cell. by rewrite HM.
  - intros d Hd. by apply JsSet.elem_of_keys.
Qed.

(** ** Soundness *)

Lemma success_equiv st1 st2 st' tr : st1 ≡ st2 → success st1 st' tr → success st2 st' tr.
Proof.
  intros (_ & Hm & Hf & _ & _ & _ & _ & Hs)%state_equiv_fields [].
  split; unfold nulls in *; rewrite <- ?Hm, <- ?Hf, <- ?Hs; done.
Qed.

Lemma complete_nulls g : shape2 9 9 g → complete g → count2 is_nullish g = 0.
Proof.
  intros Hs Hc. apply count2_zero. intros r c x Hx.
  destruct (lookup2_bounds _ _ _ _ _ _ Hs Hx) as [Hr Hc'].
  destruct (Hc r c Hr Hc') as (d & Hd & _). unfold digit_at in Hd. rewrite Hx in Hd.
  by destruct x.
Qed.

(** The 81st allocation: the trace is its one step. *)
Lemma success_solved st r c d st1 :
  inv st → cell st r c = JNull → d ∈ _calcOptions st r c →
  allocate (StrV d) r c st = SolvedExc st1 →
  success st (set_solution (solution st1 ++ [mkStep d r c]) st1) [mkStep d r c].
Proof.
  intros Hinv Hnull Hd Ha. apply allocate_SolvedExc in Ha as [H81 ->].
  pose proof (cell_JNull _ _ _ Hnull) as HM.
  assert (Hs : shape2 9 9 ((matrix st).[r, c := JStr d]))
    by (apply shape2_insert2, (inv_shape _ Hinv)).
  assert (Hcomp : complete ((matrix st).[r, c := JStr d])).
  { destruct (lookup2_bounds _ _ _ _ _ _ (inv_shape _ Hinv) HM) as [Hr Hc].
    destruct (calcOptions_free st r c d Hinv Hr Hc Hd) as [Hk _].
    by apply (alloc_complete st r c (StrV d)). }
  split; simpl; try done.
  - eapply alloc_placed_ok; eauto.
  - intros r' c' v Hv Hne. rewrite lookup2_insert2_ne; [done|]. intros [= <- <-]. congruence.
  - intros r' c' v. rewrite (lookup2_insert2 _ _ _ _ _ _ _ HM).
    case_decide; [intros [= <-]; eauto|auto].
  - unfold nulls. pose proof (nulls_fill _ _ _ (JStr d) HM eq_refl).
    rewrite complete_nulls in * by done. lia.
  - exists r, c, d. split; [|exact Hd]. unfold cell.
    cbn [matrix set_solution set_allocated set_matrix set_cycles].
    by rewrite (lookup2_insert2_eq _ _ _ _ _ HM).
Qed.

(** A successful recursive call after an allocation: the caller's step
    goes at the end of the trace. *)
Lemma success_step st r c d st1 st2 tr :
  cell st r c = JNull → allocate (StrV d) r c st = Allocated st1 → success st1 st2 tr →
  success st (set_solution (solution st2 ++ [mkStep d r c]) st2) (tr ++ [mkStep d r c]).
Proof.
  intros Hnull Ha [Hs Hc Hp Hk Hn Hf Hsol Hr Hl Hst].
  pose proof (cell_JNull _ _ _ Hnull) as HM.
  apply allocate_Allocated in Ha as [_ Ha].
  assert (Hm1 : matrix st1 = (matrix st).[r, c := JStr d])
    by (subst; by rewrite updateOptions_matrix).
  assert (fixed st1 = fixed st) by (subst; by rewrite updateOptions_fixed).
  assert (solution st1 = solution st) by (subst; by rewrite updateOptions_solution).
  assert (nulls st1 + 1 = nulls st) by (unfold nulls; rewrite Hm1; by apply nulls_fill).
  split; simpl; try done.
  - intros r' c' v Hv Hne. apply Hk; [|done]. rewrite Hm1, lookup2_insert2_ne; [done|].
    intros [= <- <-]. congruence.
  - intros r' c' v Hv. destruct (Hn _ _ _ Hv) as [Hv1|]; [|by right].
    rewrite Hm1, (lookup2_insert2 _ _ _ _ _ _ _ HM) in Hv1.
    case_decide; simplify_eq; eauto.
  - congruence.
  - rewrite Hsol, <- app_assoc. congruence.
  - rewrite rev_app_distr. unfold replay in *. simpl. rewrite <- Hr, Hm1. done.
  - rewrite length_app. simpl. lia.
Qed.

Lemma try_numbers_true rec r c st ds st' :
  inv st → cell st r c = JNull → (∀ d, d ∈ ds → d ∈ _calcOptions st r c) →
  (∀ st1 st2, inv st1 → rec st1 = Some (false, st2) → st2 ≡ st1) →
  (∀ st1 st2, inv st1 → rec st1 = Some (true, st2) → ∃ tr, success st1 st2 tr) →
  ∀ st_l, st_l ≡ st → try_numbers rec r c ds st_l = Some (true, st') →
  ∃ tr, success st st' tr.
Proof.
  intros Hinv Hnull Hds Hf Ht. induction ds as [|d ds IH]; intros st_l Hl; simpl; [done|].
  assert (Hd : d ∈ _calcOptions st_l r c) by (rewrite Hl; apply Hds; left).
  assert (inv st_l) by (by rewrite Hl).
  assert (cell st_l r c = JNull) by (by rewrite Hl).
  destruct (allocate (StrV d) r c st_l) as [st1|st1] eqn:Ea.
  - assert (Hi1 : inv st1) by (eapply allocate_keeps_inv; eauto).
    destruct (rec st1) as [[[] st2]|] eqn:Er; [| |done].
    + intros [= <-]. destruct (Ht _ _ Hi1 Er) as [tr Hs]. exists (tr ++ [mkStep d r c]).
      apply (success_equiv st_l st); [done|]. by eapply success_step.
    + apply IH; [intros; apply Hds; by right|].
      rewrite (Hf _ _ Hi1 Er), (unallocate_allocate_equiv st_l r c d st1); done.
  - intros [= <-]. exists [mkStep d r c]. apply (success_equiv st_l st); [done|].
    by apply success_solved.
Qed.

Lemma solveCell_success f st st' :
  inv st → solveCell f st = Some (true, st') → ∃ tr, success st st' tr.
Proof.
  revert st st'. induction f as [|f IH]; intros st st' Hinv; simpl; [done|].
  destruct (determineNextCell st) as [[r c]|] eqn:Ed; [|done].
  apply determineNextCell_Some in Ed as [Hopen _].
  destruct (open_cell_null _ _ _ (inv_no_undef _ Hinv) Hopen) as [_ HM].
  intros Htn. apply (try_numbers_true (solveCell f) r c st _ st' Hinv) in Htn;
    [done| | |intros; by eapply solveCell_restores|intros; by eapply IH|done].
  - unfold cell. by rewrite HM.
  - intros d Hd. by apply JsSet.elem_of_keys.
Qed.

(** ** Completeness *)

(** The digit a solution puts in an empty cell is a candidate there. *)
Lemma sol_candidate st sol r c :
  inv st → solution_of sol (matrix st) → (matrix st).[r, c] = Some JNull →
  sol_at sol r c ∈ _calcOptions st r c.
Proof.
  intros Hinv Hsol HM. destruct (lookup2_bounds _ _ _ _ _ _ (inv_shape _ Hinv) HM) as [Hr Hc].
  destruct Hsol as (H1 & H2 & H3).
  rewrite calcOptions_grid, elem_of_grid_options by done. split; [by apply H1|].
  intros f. apply not_true_iff_false. intros (r' & c' & Hr' & Hc' & Hi & Hd)%in_unit_spec.
  destruct (decide ((r', c') = (r, c))) as [[= -> ->]|Hne].
  - unfold digit_at in Hd. by rewrite HM in Hd.
  - destruct (H3 r' c' Hr' Hc') as [Hn|Hd'].
    + unfold digit_at in Hd. by rewrite Hn in Hd.
    + rewrite Hd in Hd'. injection Hd' as Heq.
      apply (H2 r c r' c' Hr Hc Hr' Hc' (not_eq_sym Hne)); [|done].
      apply same_unit_spec. exists f. by symmetry.
Qed.

(** An empty cell of a puzzle with a solution is one [determineNextCell]
    may select. *)
Lemma null_cell_open st sol r c :
  inv st → solution_of sol (matrix st) → (matrix st).[r, c] = Some JNull →
  (r, c) ∈ open_cells st ∧ acceptable (count_at st (r, c)) = true.
Proof.
  intros Hinv Hsol HM. destruct (lookup2_bounds _ _ _ _ _ _ (inv_shape _ Hinv) HM) as [Hr Hc].
  split.
  - apply elem_of_open_cells. split; [|eexists; split; [exact HM|done]].
    destruct (isFixed st r c) eqn:E; [|done].
    apply (inv_fixed _ Hinv) in E as (_ & _ & n & Hn & _). unfold cell in Hn.
    by rewrite HM in Hn.
  - unfold acceptable, count_at, JsSet.count, determineNextCell_min. simpl.
    pose proof (sol_candidate _ _ _ _ Hinv Hsol HM) as Hin.
    pose proof (grid_options_size (matrix st) r c) as Hle.
    rewrite <- calcOptions_grid in Hle by done.
    assert (size (_calcOptions st r c) ≠ 0) by (rewrite size_non_empty_iff; set_solver).
    apply andb_true_iff. rewrite !Nat.ltb_lt. lia.
Qed.

(** A state with a solution still has an empty cell: 81 digits would
    make [allocated] 81. *)
Lemma no_null_full st sol :
  inv st → solution_of sol (matrix st) → (∀ r c, (matrix st).[r, c] ≠ Some JNull) → False.
Proof.
  intros Hinv (_ & _ & H3) Hnn.
  assert (count2 (λ v, bool_decide (is_Some (digit_of v))) (matrix st) = 9 * 9).
  { apply count2_all; [apply (inv_shape _ Hinv)|]. intros r c x Hx.
    destruct (lookup2_bounds _ _ _ _ _ _ (inv_shape _ Hinv) Hx) as [Hr Hc].
    destruct (H3 r c Hr Hc) as [Hn|Hd]; [by destruct (Hnn r c)|].
    unfold digit_at in Hd. rewrite Hx in Hd. apply bool_decide_eq_true. simpl in Hd.
    by rewrite Hd. }
  pose proof (inv_count _ Hinv). pose proof (inv_lt81 _ Hinv). lia.
Qed.

Lemma try_numbers_complete rec r c st ds sol :
  inv st → (matrix st).[r, c] = Some JNull → solution_of sol (matrix st) →
  (∀ d, d ∈ ds → d ∈ _calcOptions st r c) → sol_at sol r c ∈ ds →
  (∀ d st1, inv st1 → matrix st1 = (matrix st).[r, c := JStr d] →
     ∃ b st2, rec st1 = Some (b, st2) ∧ (b = false → st2 ≡ st1)) →
  (∀ st1, inv st1 → solution_of sol (matrix st1) →
     matrix st1 = (matrix st).[r, c := JStr (sol_at sol r c)] →
     ∃ st2, rec st1 = Some (true, st2)) →
  ∀ st_l, st_l ≡ st → ∃ st', try_numbers rec r c ds st_l = Some (true, st').
Proof.
  intros Hinv HM Hsol Hds Hin Htot Hok.
  induction ds as [|d ds IH]; intros st_l Hl; [by apply not_elem_of_nil in Hin|]. simpl.
  assert (Hd : d ∈ _calcOptions st_l r c) by (rewrite Hl; apply Hds; left).
  assert (inv st_l) by (by rewrite Hl).
  assert (Hnull : cell st_l r c = JNull) by (rewrite Hl; unfold cell; by rewrite HM).
  destruct (allocate (StrV d) r c st_l) as [st1|st1] eqn:Ea; [|by eexists].
  assert (Hi1 : inv st1) by (eapply allocate_keeps_inv; eauto).
  assert (Hm1 : matrix st1 = (matrix st).[r, c := JStr d]).
  { apply allocate_Allocated in Ea as [_ ->]. rewrite updateOptions_matrix. simpl.
    by rewrite Hl. }
  destruct (decide (d = sol_at sol r c)) as [->|Hne].
  - destruct (Hok st1 Hi1) as [st2 ->]; [rewrite Hm1; by apply solution_of_write|done|].
    by eexists.
  - destruct (Htot d st1 Hi1 Hm1) as ([] & st2 & -> & Hb); [by eexists|].
    apply IH.
    + intros; apply Hds; by right.
    + apply elem_of_cons in Hin as [?|]; [congruence|done].
    + rewrite (Hb eq_refl), (unallocate_allocate_equiv st_l r c d st1); done.
Qed.

Lemma solveCell_solves f st sol :
  inv st → solution_of sol (matrix st) → nulls st < f →
  ∃ st', solveCell f st = Some (true, st').
Proof.
  revert st. induction f as [|f IH]; intros st Hinv Hsol Hf; [lia|]. simpl.
  destruct (determineNextCell st) as [[r c]|] eqn:Ed.
  - apply determineNextCell_Some in Ed as [Hopen _].
    destruct (open_cell_null _ _ _ (inv_no_undef _ Hinv) Hopen) as [_ HM].
    assert (Hn : ∀ d st1, matrix st1 = (matrix st).[r, c := JStr d] → nulls st1 < f).
    { intros d st1 Hm1. unfold nulls in *. rewrite Hm1.
      pose proof (nulls_fill _ _ _ (JStr d) HM eq_refl). lia. }
    apply (try_numbers_complete _ r c st _ sol); try done.
    + intros d Hd. by apply JsSet.elem_of_keys.
    + apply JsSet.elem_of_keys. by apply sol_candidate.
    + intros d st1 Hi1 Hm1.
      destruct (solveCell_total f st1 (inv_no_undef _ Hi1) (Hn d st1 Hm1))
        as (b & st2 & Hs & _).
      exists b, st2. split; [done|]. intros ->. by eapply solveCell_restores.
    + intros st1 Hi1 Hs1 Hm1. apply IH; [done|done|]. by eapply Hn.
  - exfalso. apply (no_null_full st sol Hinv Hsol). intros r c HM.
    destruct (null_cell_open _ _ _ _ Hinv Hsol HM) as [Ho Ha].
    by rewrite (determineNextCell_None _ Ed _ Ho) in Ha.
Qed.

(** ** The search's contract *)

(** Success gives a solved grid that keeps every non-empty cell. *)
Lemma search_sound f st st' :
  inv st → givens_consistent (matrix st) → solveCell f st = Some (true, st') →
  solved (matrix st') ∧
  ∀ r c v, (matrix st).[r, c] = Some v → v ≠ JNull → (matrix st').[r, c] = Some v.
Proof.
  intros Hinv Hg Hs. destruct (solveCell_success _ _ _ Hinv Hs) as [tr [_ Hc Hp Hk Hn _ _ _ _ _]].
  split; [split|done]; [done|]. apply consistent_of_placed; [done|].
  apply (givens_consistent_mono (matrix st)); [|done].
  intros r c n Hv. destruct (Hn _ _ _ Hv) as [|[d ?]]; [done|discriminate].
Qed.

(** C1: when a search from a state satisfying the invariant, whose
    givens do not repeat in a unit, reports success, the matrix it
    leaves is a solved sudoku (every cell holds a digit from 1 to 9 and
    no row, column or block holds a digit twice), and every cell that
    was not empty holds what it held before. *)
Theorem solveCell_sound f st st' :
  inv st → givens_consistent (matrix st) → solveCell f st = Some (true, st') →
  solved (matrix st') ∧
  ∀ r c v, (matrix st).[r, c] = Some v → v ≠ JNull → (matrix st').[r, c] = Some v.
Proof. apply search_sound. Qed.

(** C2: if the puzzle held by a state satisfying the invariant has a
    solution, [solve()] reports success. *)
Theorem solve_complete st sol :
  inv st → solution_of sol (matrix st) → ∃ st', solve st = Some (true, st').
Proof. intros. eapply solveCell_solves; eauto. Qed.

(** C7: after a successful search, [solution] has grown by a trace of one
    step per empty cell, and writing the trace's digits in the order
    [animate] plays them rebuilds the solved matrix. *)
Theorem solveCell_trace f st st' :
  inv st → solveCell f st = Some (true, st') →
  ∃ tr, solution st' = solution st ++ tr ∧ replay (rev tr) (matrix st) = matrix st' ∧
        length tr = nulls st.
Proof. intros Hinv Hs. destruct (solveCell_success _ _ _ Hinv Hs) as [tr []]. eauto. Qed.

(** C8: [solve()] returns: its fuel, one unit per empty cell and one
    more, never runs out, and a failed search gives the matrix back. *)
Theorem solve_terminates st :
  no_undef (matrix st) →
  ∃ b st', solve st = Some (b, st') ∧ (b = false → matrix st' = matrix st).
Proof. intros Hu. unfold solve. apply solveCell_total; [done|lia]. Qed.

(** C10: a search that reports failure leaves the solver state as it found
    it, up to the counter [cycles]. *)
Theorem solveCell_false_restores f st st' :
  inv st → solveCell f st = Some (false, st') → st' ≡ st.
Proof. apply solveCell_restores. Qed.

(** ** Concrete runs *)

(** The solution of [easy_puzzle]. *)
Definition easy_solution : list (list nat) :=
  [[5;3;4;6;7;8;9;1;2]; [6;7;2;1;9;5;3;4;8]; [1;9;8;3;4;2;5;6;7];
   [8;5;9;7;6;1;4;2;3]; [4;2;6;8;5;3;7;9;1]; [7;1;3;9;2;4;8;5;6];
   [9;6;1;5;3;7;2;8;4]; [2;8;7;4;1;9;6;3;5]; [3;4;5;2;8;6;1;7;9]].

(** The state [solve] leaves for [easy_puzzle]. *)
Definition example_solved : state :=
  default example_state (snd <$> solve example_state).

(** The solved grid with its first cell emptied and its last one [NaN]
    (a character of the puzzle string that is no digit and no ["_"]). *)
Definition stuck_state : state :=
  grid_state ((matrix example_solved).[0, 0 := JNull].[8, 8 := JNaN]).

Definition stuck_after : state := default stuck_state (snd <$> solveCell 2 stuck_state).

Lemma solveCell_sound_witness :
  solved (matrix example_solved) ∧
  ∀ r c v, (matrix example_state).[r, c] = Some v → v ≠ JNull →
    (matrix example_solved).[r, c] = Some v.
Proof.
  apply (solveCell_sound (S (nulls example_state))).
  - exact example_state_inv.
  - apply givens_consistent_of, consistent_b_spec; [apply inv_shape, example_state_inv|].
    vm_compute. reflexivity.
  - vm_compute. reflexivity.
Defined.

Lemma solve_complete_witness : ∃ st', solve example_state = Some (true, st').
Proof.
  apply (solve_complete example_state easy_solution).
  - exact example_state_inv.
  - apply solution_of_b_sound. vm_compute. reflexivity.
Defined.

Lemma solveCell_trace_witness :
  ∃ tr, solution example_solved = solution example_state ++ tr ∧
        replay (rev tr) (matrix example_state) = matrix example_solved ∧
        length tr = nulls example_state.
Proof.
  apply (solveCell_trace (S (nulls example_state))).
  - exact example_state_inv.
  - vm_compute. reflexivity.
Defined.

Lemma solve_terminates_witness :
  ∃ b st', solve example_state = Some (b, st') ∧ (b = false → matrix st' = matrix example_state).
Proof. apply solve_terminates. intros r c. apply (inv_no_undef _ example_state_inv). Defined.

Lemma solveCell_false_restores_witness : stuck_after ≡ stuck_state.
Proof.
  apply (solveCell_false_restores 2).
  - apply inv_b_sound. vm_compute. reflexivity.
  - vm_compute. reflexivity.
Defined.

End Backtrack.

Export Backtrack.
