(* ===== verification/Init.v ===== *)
(** * Loading a puzzle: init and the option updates of colorFixed

    [init(sudokuString)] (lines 24-47) resets the solver, parses the
    string, and for every cell whose value is truthy marks it fixed and
    allocates it through the same [allocate] the search uses.  The
    ["SolvedException"] that [allocate] throws on the 81st allocation is
    not caught in [init]: a puzzle with 81 givens makes [init] throw
    ([InitThrows]).  [_updateAllOptions] loops over [this.allOptions],
    which nothing assigns, so it does nothing; [renderTable] and the DOM
    part of [renderNumbers] are not modelled, but [renderNumbers] ends with
    [colorFixed] (lines 277-289), which calls [updateOptions] on every
    fixed cell: that state effect is [colorFixed]. *)

From S2P Require Import Prelude JsSet Board Rules Engine.
From Stdlib Require Import Ascii String.

Module Init.

(** [init] returns, or the exception of [allocate] escapes it. *)
Inductive init_result :=
| InitOk (st : state)
| InitThrows (st : state).

(** The two nested loops of [init] (lines 30-38), over [all_cells]. *)
Fixpoint init_cells (cells : list (nat * nat)) (st : state) : init_result :=
  match cells with
  | [] => InitOk st
  | (r, c) :: rest =>
      let value := cell st r c in
      let given (x : num) :=
        let st1 := set_fixed ({[(r, c)]} ∪ fixed st) st in
        match allocate x r c st1 with
        | SolvedExc st2 => InitThrows st2
        | Allocated st2 => init_cells rest st2
        end in
      match value with
      | JNum n => if n =? 0 then init_cells rest st else given (NumV n)
      | JStr n => given (StrV n)
      | _ => init_cells rest st
      end
  end.

(** The fixed cells in the order [for (f in this.fixed)] visits them:
    their keys ["r,c"] are not array indices, so insertion order, which
    [init] makes row-major. *)
Definition fixed_in_order (st : state) : list (nat * nat) :=
  filter (λ '(r, c), (r, c) ∈ fixed st) all_cells.

(** The state effect of [colorFixed()] (lines 277-289): [updateOptions]
    with the cell's value as the key, for every fixed cell. *)
Definition colorFixed (st : state) : state :=
  fold_left (λ st' '(r, c),
      match cell st' r c with
      | JNum n | JStr n => updateOptions n r c st'
      | _ => st'
      end) (fixed_in_order st) st.

(** [init(sudokuString)]: [None] is a call without argument; the empty
    string is falsy too, and both fall back to the previous puzzle. *)
Definition init (arg : option string) (st : state) : init_result :=
  let prevSudoku := sudokuString st in
  let st0 := reset st in
  let s := match arg with
           | Some s => if String.eqb s "" then prevSudoku else s
           | None => prevSudoku
           end in
  let st1 := set_matrix (parse s) (set_sudokuString s st0) in
  match init_cells all_cells st1 with
  | InitThrows st2 => InitThrows st2
  | InitOk st2 => InitOk (colorFixed st2)
  end.

End Init.

Export Init.

Module InitFacts.

(** ** The grids [parse] produces *)

(** A 9x9 grid of [null], [NaN] and the numbers 0-9. *)
Definition puzzle_grid (g : list (list jsval)) : Prop :=
  shape2 9 9 g ∧ ∀ r c v, g.[r, c] = Some v → v = JNull ∨ v = JNaN ∨ ∃ n, v = JNum n ∧ n ≤ 9.

(** A given: a cell [init] marks fixed and allocates. *)
Definition given_at (g : list (list jsval)) (r c : nat) : bool :=
  is_given (default JUndef (g.[r, c])).

(** The grid with the givens of [cells] emptied: what the candidate sets
    describe while [init] has not yet allocated those givens. *)
Fixpoint blank (cells : list (nat * nat)) (g : list (list jsval)) : list (list jsval) :=
  match cells with
  | [] => g
  | (r, c) :: rest => if given_at g r c then (blank rest g).[r, c := JNull] else blank rest g
  end.

Lemma length_list_ascii s : List.length (list_ascii_of_string s) = String.length s.
Proof. induction s; simpl; auto. Qed.

Lemma parse_cell_cases ch :
  parse_cell ch = JNull ∨ parse_cell ch = JNaN ∨ ∃ n, parse_cell ch = JNum n ∧ n ≤ 9.
Proof.
  unfold parse_cell, parseInt_char. destruct (ascii_dec _ _); [auto|].
  destruct (_ && _) eqn:E; [|auto]. apply andb_true_iff in E as [_ E%Nat.leb_le].
  right; right. eexists; split; [done|lia].
Qed.

Lemma parse_puzzle_grid s : 81 ≤ String.length s → puzzle_grid (parse s).
Proof.
  intros Hl. split.
  - unfold parse, shape2. rewrite List.length_map, length_seq. split; [done|].
    apply Forall_forall. intros row Hrow. apply list_elem_of_In, in_map_iff in Hrow
      as (r & <- & Hr%in_seq).
    unfold slice. rewrite length_take, length_drop, List.length_map, length_list_ascii. lia.
  - intros r c v. unfold parse, lookup2. rewrite lookup_map.
    destruct (seq 0 9 !! r); simpl; [|done].
    unfold slice. intros [Hc _]%lookup_take_Some. rewrite lookup_drop, lookup_map in Hc.
    destruct (list_ascii_of_string s !! _) as [ch|]; simpl in Hc; [|done].
    injection Hc as <-. apply parse_cell_cases.
Qed.

Lemma puzzle_digit g r c d :
  puzzle_grid g → digit_at g r c = Some d → g.[r, c] = Some (JNum d) ∧ 1 ≤ d ≤ 9.
Proof.
  intros [_ Hv] Hd. unfold digit_at in Hd. destruct (g.[r, c]) as [v|] eqn:E; [|done].
  simpl in Hd. destruct (Hv _ _ _ E) as [->|[->|(n & -> & ?)]]; simpl in Hd; [done|done|].
  destruct (n =? 0) eqn:En; [done|]. apply Nat.eqb_neq in En. injection Hd as <-.
  split; [done|lia].
Qed.

Lemma puzzle_not_given g r c :
  puzzle_grid g → given_at g r c = false → digit_at g r c = None.
Proof.
  intros Hg Hng. destruct (digit_at g r c) as [d|] eqn:Hd; [|done].
  destruct (puzzle_digit _ _ _ _ Hg Hd) as [E ?]. unfold given_at in Hng. rewrite E in Hng.
  simpl in Hng. apply negb_false_iff, Nat.eqb_eq in Hng. lia.
Qed.

Lemma blank_shape cells g : shape2 9 9 g → shape2 9 9 (blank cells g).
Proof.
  intros Hs. induction cells as [|[r c] cells IH]; simpl; [done|].
  case_match; auto using shape2_insert2.
Qed.

Lemma blank_notin cells g r c : (r, c) ∉ cells → (blank cells g).[r, c] = g.[r, c].
Proof.
  induction cells as [|[r' c'] cells IH]; intros Hn; simpl; [done|].
  apply not_elem_of_cons in Hn as [Hne Hn].
  case_match; [rewrite lookup2_insert2_ne by (by apply not_eq_sym)|]; auto.
Qed.

Lemma blank_values cells g r c v :
  puzzle_grid g → (blank cells g).[r, c] = Some v →
  v = JNull ∨ v = JNaN ∨ ∃ n, v = JNum n ∧ n ≤ 9.
Proof.
  intros Hg. revert v. induction cells as [|[r' c'] cells IH]; intros v; simpl;
    [apply Hg|].
  case_match; [|apply IH]. destruct ((blank cells g).[r', c']) as [y|] eqn:Ey.
  - rewrite (lookup2_insert2 _ _ _ _ _ _ _ Ey). case_decide; [intros [= <-]; auto|apply IH].
  - rewrite insert2_None by done. apply IH.
Qed.

(** [blank cells g] holds no digit in the cells of [cells]. *)
Lemma digit_at_blank cells g r c :
  puzzle_grid g →
  digit_at (blank cells g) r c = if decide ((r, c) ∈ cells) then None else digit_at g r c.
Proof.
  intros Hg. induction cells as [|[r' c'] cells IH]; cbn [blank].
  { rewrite decide_False; [done|apply not_elem_of_nil]. }
  destruct (decide ((r, c) = (r', c'))) as [[= -> ->]|Hne].
  - rewrite decide_True by by left. destruct (given_at g r' c') eqn:G.
    + unfold digit_at. destruct ((blank cells g).[r', c']) as [y|] eqn:Ey.
      * by rewrite (lookup2_insert2_eq _ _ _ _ _ Ey).
      * by rewrite insert2_None, Ey.
    + rewrite IH. case_decide; [done|]. by apply puzzle_not_given.
  - assert (Hin : (r, c) ∈ (r', c') :: cells ↔ (r, c) ∈ cells)
      by (rewrite elem_of_cons; naive_solver).
    rewrite (decide_ext _ _ _ _ Hin). destruct (given_at g r' c'); [|done].
    destruct ((blank cells g).[r', c']) as [y|] eqn:Ey.
    + rewrite (digit_at_insert2 _ _ _ _ _ _ _ Ey), decide_False by (by apply not_eq_sym).
      done.
    + by rewrite insert2_None.
Qed.

(** Emptying cells does not add digits. *)
Lemma count_blank cells g :
  count2 (λ v, bool_decide (is_Some (digit_of v))) (blank cells g) ≤
  count2 (λ v, bool_decide (is_Some (digit_of v))) g.
Proof.
  induction cells as [|[r c] cells IH]; simpl; [done|]. case_match; [|done].
  destruct ((blank cells g).[r, c]) as [y|] eqn:Ey; [|by rewrite insert2_None].
  pose proof (count2_insert2 (λ v, bool_decide (is_Some (digit_of v))) _ _ _ JNull _ Ey).
  simpl in *. lia.
Qed.
(** ** The loop of [init] *)

(** The loop invariant: the matrix is the parsed grid, and the solver
    state satisfies the bookkeeping invariant for the grid whose givens
    not yet visited are empty. *)
Record init_inv (g : list (list jsval)) (cells : list (nat * nat)) (st : state) : Prop := {
  ii_matrix : matrix st = g;
  ii_virtual : inv (set_matrix (blank cells g) st);
  ii_nodup : NoDup cells
}.

Lemma given_JNum g r c n : g.[r, c] = Some (JNum n) → n ≠ 0 → given_at g r c = true.
Proof. intros Hgn Hn. unfold given_at. rewrite Hgn. simpl. by apply negb_true_iff, Nat.eqb_neq. Qed.

(** A given: [init] fixes it and allocates it like a search step on the
    grid where it is still empty. *)
Lemma init_given_step g r c rest st n s0 :
  puzzle_grid g → init_inv g ((r, c) :: rest) st → g.[r, c] = Some (JNum n) → n ≠ 0 →
  allocate (NumV n) r c st = Allocated s0 →
  init_inv g rest (set_fixed ({[(r, c)]} ∪ fixed st) s0).
Proof.
  intros Hg [Hm Hv Hnd] Hgn Hn Ea. apply NoDup_cons in Hnd as [Hnin Hnd].
  cbn [blank] in Hv. rewrite (given_JNum _ _ _ _ Hgn Hn) in Hv.
  assert (Hb : (blank rest g).[r, c] = Some (JNum n)) by (by rewrite blank_notin).
  set (V := (blank rest g).[r, c := JNull]) in Hv.
  assert (HV : V.[r, c := JNum n] = blank rest g)
    by (unfold V; rewrite insert2_insert2; by apply insert2_id).
  assert (Hx : digit_of (JNum n) = Some n) by (simpl; by apply Nat.eqb_neq in Hn as ->).
  destruct (puzzle_digit g r c n Hg) as [_ Hn9]; [unfold digit_at; by rewrite Hgn|].
  pose proof (allocate_set_matrix (NumV n) r c V st) as Ev.
  rewrite Ea in Ev. simpl in Ev. rewrite HV in Ev.
  split; [| |done].
  - pose proof (allocate_matrix (NumV n) r c st) as Em. rewrite Ea in Em. simpl in Em.
    simpl. rewrite Em, Hm. by apply insert2_id.
  - assert (set_matrix (blank rest g) (set_fixed ({[(r, c)]} ∪ fixed st) s0) =
            set_fixed ({[(r, c)]} ∪ fixed st) (set_matrix (blank rest g) s0)) as ->
      by (by destruct s0).
    apply (alloc_inv_gen (set_matrix V st) r c (NumV n) Hv).
    + unfold cell. simpl. unfold V. by rewrite (lookup2_insert2_eq _ _ _ _ _ Hb).
    + done.
    + simpl. lia.
    + exact Ev.
    + intros r1 c1 d1 r2 c2 H. simpl in H.
      destruct (blank_values _ _ _ _ _ Hg H) as [?|[?|(m & ? & _)]]; discriminate.
    + intros r' c'. rewrite elem_of_union, elem_of_singleton.
      pose proof (inv_fixed _ Hv r' c') as Hf. unfold isFixed in Hf. simpl in Hf.
      rewrite bool_decide_eq_true in Hf. unfold cell in *. simpl in *.
      destruct (decide ((r', c') = (r, c))) as [[= -> ->]|Hne].
      * rewrite Hb. destruct (lookup2_bounds _ _ _ _ _ _ (proj1 Hg) Hgn).
        split; [intros _; split; [done|]; split; [done|]; eauto|intros _; by left].
      * unfold V in Hf. rewrite lookup2_insert2_ne in Hf by (by apply not_eq_sym).
        rewrite Hf. naive_solver.
Qed.

(** The allocation of a given throws only when the grid has 81 digits. *)
Lemma init_given_throw g r c rest st n s0 :
  puzzle_grid g → init_inv g ((r, c) :: rest) st → g.[r, c] = Some (JNum n) → n ≠ 0 →
  allocate (NumV n) r c st = SolvedExc s0 →
  count2 (λ v, bool_decide (is_Some (digit_of v))) g = 81.
Proof.
  intros Hg [Hm Hv Hnd] Hgn Hn Ea. apply NoDup_cons in Hnd as [Hnin _].
  cbn [blank] in Hv. rewrite (given_JNum _ _ _ _ Hgn Hn) in Hv.
  assert (Hb : (blank rest g).[r, c] = Some (JNum n)) by (by rewrite blank_notin).
  apply allocate_SolvedExc in Ea as [H81 _].
  pose proof (inv_count _ Hv) as Hc. simpl in Hc.
  pose proof (count2_insert2 (λ v, bool_decide (is_Some (digit_of v))) _ _ _ JNull _ Hb) as Hi.
  cbv beta in Hi. apply Nat.eqb_neq in Hn. simpl in Hi. rewrite Hn in Hi. simpl in Hi.
  pose proof (count_blank rest g).
  pose proof (count2_le 9 9 (λ v, bool_decide (is_Some (digit_of v))) g (proj1 Hg)). lia.
Qed.

Lemma init_skip_step g r c rest st :
  init_inv g ((r, c) :: rest) st → given_at g r c = false → init_inv g rest st.
Proof.
  intros [Hm Hv Hnd] G. cbn [blank] in Hv. rewrite G in Hv.
  apply NoDup_cons in Hnd as [_ ?]. by split.
Qed.

(** The loop returns a state satisfying the invariant, or throws because
    the grid has 81 digits. *)
Lemma init_cells_spec g cells st :
  puzzle_grid g → init_inv g cells st →
  match init_cells cells st with
  | InitOk st' => inv st' ∧ matrix st' = g ∧ solution st' = solution st ∧
                  sudokuString st' = sudokuString st
  | InitThrows _ => count2 (λ v, bool_decide (is_Some (digit_of v))) g = 81
  end.
Proof.
  intros Hg. revert st. induction cells as [|[r c] rest IH]; intros st Hi; cbn [init_cells].
  - destruct Hi as [Hm Hv _]. cbn [blank] in Hv. rewrite <- Hm in Hv.
    replace (set_matrix (matrix st) st) with st in Hv by (by destruct st).
    exact (conj Hv (conj Hm (conj eq_refl eq_refl))).
  - assert (Hval : cell st r c = default JUndef (g.[r, c]))
      by (unfold cell; by rewrite (ii_matrix _ _ _ Hi)).
    rewrite Hval. destruct (given_at g r c) eqn:G.
    + pose proof G as G'. unfold given_at in G'.
      destruct (g.[r, c]) as [[]|] eqn:Hgn; simpl in G' |- *; try done.
      apply negb_true_iff in G'. rewrite G'. apply Nat.eqb_neq in G'.
      rewrite allocate_set_fixed. destruct (allocate (NumV n) r c st) as [s0|s0] eqn:Ea; simpl.
      * pose proof (IH _ (init_given_step g r c rest st n s0 Hg Hi Hgn G' Ea)) as H.
        destruct (init_cells rest _); [|done]. destruct H as (? & ? & Hs1 & Hs2).
        destruct (allocate_frame _ _ _ _ _ Ea) as (_ & Hs3 & Hs4). simpl in Hs1, Hs2.
        split_and!; [done|done|congruence|congruence].
      * by eapply init_given_throw.
    + pose proof (IH _ (init_skip_step _ _ _ _ _ Hi G)) as H.
      destruct (g.[r, c]) as [v|] eqn:Hgn; simpl; [|exact H].
      destruct (proj2 Hg _ _ _ Hgn) as [->|[->|(n & -> & _)]]; try exact H.
      unfold given_at in G. rewrite Hgn in G. simpl in G. apply negb_false_iff in G.
      rewrite G. exact H.
Qed.
Lemma NoDup_all_cells : NoDup all_cells.
Proof. apply (bool_decide_unpack _). vm_compute. exact I. Qed.

(** Before the loop: [reset]'s full sets describe the grid with every
    given emptied. *)
Lemma init_start g s st :
  puzzle_grid g → init_inv g all_cells (set_matrix g (set_sudokuString s (reset st))).
Proof.
  intros Hg. assert (Hnone : ∀ r c, digit_at (blank all_cells g) r c = None).
  { intros r c. rewrite digit_at_blank by done. case_decide as Hin; [done|].
    destruct (digit_at g r c) as [d|] eqn:Hd; [|done]. exfalso. apply Hin.
    apply elem_of_all_cells. by eapply digit_at_bounds; [apply Hg|]. }
  split; [done| |apply NoDup_all_cells].
  assert (Hfam : ∀ f i, i < 9 → fam_sets (set_matrix (blank all_cells g)
    (set_matrix g (set_sudokuString s (reset st)))) f !!! i = _numbers tt).
  { intros f i Hi. destruct f; apply lookup_total_replicate_2; done. }
  split; cbn [set_matrix matrix allocated].
  - apply blank_shape, Hg.
  - intros r c H. by destruct (blank_values _ _ _ _ _ Hg H) as [?|[?|(? & ? & _)]].
  - intros f. destruct f; apply length_replicate.
  - intros f i d Hi. rewrite Hfam by done. unfold _numbers, JsSet.make.
    rewrite elem_of_list_to_set. change [1; 2; 3; 4; 5; 6; 7; 8; 9] with (seq 1 9).
    rewrite elem_of_seq.
    assert (in_unit (blank all_cells g) f i d = false) as ->.
    { apply not_true_iff_false. intros (r & c & _ & _ & _ & Hd)%in_unit_spec.
      by rewrite Hnone in Hd. }
    lia.
  - intros r c d. by rewrite Hnone.
  - intros r c d r' c' H. unfold cell in H. cbn [set_matrix matrix] in H.
    destruct ((blank all_cells g).[r, c]) eqn:E; simpl in H; [subst|done].
    by destruct (blank_values _ _ _ _ _ Hg E) as [?|[?|(? & ? & _)]].
  - intros r c. unfold isFixed. cbn [set_matrix set_sudokuString reset fixed].
    rewrite bool_decide_eq_false_2 by apply not_elem_of_empty.
    split; [done|]. intros (_ & _ & n & Hn & Hn0).
    pose proof (Hnone r c) as E. unfold digit_at in E. unfold cell in Hn.
    cbn [set_matrix matrix] in Hn.
    destruct ((blank all_cells g).[r, c]) as [v|]; simpl in Hn; [subst v|done].
    simpl in E. apply Nat.eqb_neq in Hn0. by rewrite Hn0 in E.
  - rewrite count2_zero; [done|]. intros r c x Hx. apply bool_decide_eq_false.
    pose proof (Hnone r c) as E. unfold digit_at in E. rewrite Hx in E. simpl in E.
    rewrite E. by intros [].
  - cbn [set_matrix set_sudokuString reset allocated]. lia.
Qed.

(** [colorFixed] removes from the sets digits that are already absent. *)
Lemma colorFixed_id st : inv st → colorFixed st = st.
Proof.
  intros Hinv. unfold colorFixed.
  assert (Hl : ∀ p, p ∈ fixed_in_order st → isFixed st p.1 p.2 = true).
  { intros [r c] Hp. apply list_elem_of_filter in Hp as [Hp _]. by apply bool_decide_eq_true. }
  induction (fixed_in_order st) as [|[r c] l IH]; [done|]. cbn [fold_left].
  destruct (proj1 (inv_fixed _ Hinv r c) (Hl (r, c) ltac:(left))) as (Hr & Hc & n & Hn & Hn0).
  rewrite Hn, updateOptions_held; [|done..|].
  - apply IH. intros p Hp. apply Hl. by right.
  - rewrite digit_at_cell, Hn. simpl. by apply Nat.eqb_neq in Hn0 as ->.
Qed.

Lemma colorFixed_solution st : solution (colorFixed st) = solution st.
Proof.
  unfold colorFixed. generalize (fixed_in_order st). intros l. revert st.
  induction l as [|[r c] l IH]; intros st; [done|]. cbn [fold_left]. rewrite IH.
  destruct (cell st r c); try done; apply updateOptions_solution.
Qed.

(** [init] on a puzzle string: the loop's result after [colorFixed]. *)
Lemma init_spec s st :
  81 ≤ String.length s →
  match init (Some s) st with
  | InitOk st' => inv st' ∧ matrix st' = parse s ∧ solution st' = [] ∧ sudokuString st' = s
  | InitThrows _ => count2 (λ v, bool_decide (is_Some (digit_of v))) (parse s) = 81
  end.
Proof.
  intros Hl. unfold init.
  assert (String.eqb s "" = false) as ->.
  { apply String.eqb_neq. intros ->. simpl in Hl. lia. }
  pose proof (init_cells_spec _ _ _ (parse_puzzle_grid s Hl)
    (init_start (parse s) s st (parse_puzzle_grid s Hl))) as H.
  destruct (init_cells _ _) as [st'|st']; [|done].
  destruct H as (Hinv & ? & ? & ?). rewrite colorFixed_id by done. done.
Qed.
(** ** What [init] guarantees *)

(** C11: [init] on a puzzle string of at least 81 characters with fewer
    than 81 givens returns normally; the solver then holds the parsed
    grid, an empty [solution] and the string, and satisfies the
    bookkeeping invariant: its fixed cells are exactly the givens and its
    row, column and block sets hold exactly the digits no given of the
    unit takes. *)
Theorem init_ok s st :
  81 ≤ String.length s →
  count2 (λ v, bool_decide (is_Some (digit_of v))) (parse s) < 81 →
  ∃ st', init (Some s) st = InitOk st' ∧ inv st' ∧ matrix st' = parse s ∧
         solution st' = [] ∧ sudokuString st' = s.
Proof.
  intros Hl Hc. pose proof (init_spec s st Hl) as H.
  destruct (init (Some s) st) as [st'|st']; [by exists st'|lia].
Qed.

(** C12: a puzzle string with 81 givens makes [init] throw: the 81st
    allocation raises ["SolvedException"], which [init] does not catch. *)
Theorem init_throws s st :
  81 ≤ String.length s →
  count2 (λ v, bool_decide (is_Some (digit_of v))) (parse s) = 81 →
  ∃ st', init (Some s) st = InitThrows st'.
Proof.
  intros Hl Hc. pose proof (init_spec s st Hl) as H.
  destruct (init (Some s) st) as [st'|st']; [|by exists st'].
  destruct H as (Hinv & Hm & _). pose proof (inv_count _ Hinv) as Hn.
  pose proof (inv_lt81 _ Hinv). rewrite Hm, Hc in Hn. lia.
Qed.

(** The solution of [easy_puzzle] as a puzzle string: 81 givens. *)
Definition full_puzzle : string :=
  "534678912672195348198342567859761423426853791713924856961537284287419635345286179".

Lemma init_ok_witness :
  ∃ st', init (Some easy_puzzle) (reset example_state) = InitOk st' ∧ inv st' ∧
         matrix st' = parse easy_puzzle ∧ solution st' = [] ∧ sudokuString st' = easy_puzzle.
Proof. apply init_ok; vm_compute; lia. Defined.

Lemma init_throws_witness : ∃ st', init (Some full_puzzle) (reset example_state) = InitThrows st'.
Proof. apply init_throws; vm_compute; [lia|reflexivity]. Defined.
End InitFacts.

Export InitFacts.
