(* ===== verification/Main.v ===== *)
(** * Loading and solving together

    The page loads a puzzle with [init] and then calls [solve].
    [init_solve_sound] and
    [init_solve_complete] are the first testable property of the spec
    (section 8) for the code: a puzzle string whose givens do not clash
    and that has a solution is solved, and a reported solution is a valid
    grid that keeps the givens.  [nondigit_cell_unsolvable] covers the
    puzzle strings the code does not validate: a cell that is neither a
    digit nor empty makes every search fail. *)

From S2P Require Import Prelude JsSet Board Rules Engine Driver NextCell Backtrack Init.
From Stdlib Require Import String.

Module Main.

(** The solved grid with its first cell a character that is no digit
    and its second cell empty. *)
Definition nan_puzzle : string :=
  "x_4678912672195348198342567859761423426853791713924856961537284287419635345286179".

(** The solver as [init] leaves it for [nan_puzzle]. *)
Definition nan_loaded : state :=
  match init (Some nan_puzzle) (reset example_state) with
  | InitOk st | InitThrows st => st
  end.

(** The states of the page's run on [easy_puzzle]. *)
Definition easy_loaded : state :=
  match init (Some easy_puzzle) (reset example_state) with
  | InitOk st | InitThrows st => st
  end.

Definition easy_solved : state := default easy_loaded (snd <$> solve easy_loaded).

(** ** Loading then solving *)

(** C13: for a puzzle string of at least 81 characters whose givens do
    not repeat in a unit, if [init] returns and [solve] reports success,
    the matrix is a solved sudoku and every given keeps its value. *)
Theorem init_solve_sound s st st1 st2 :
  81 ≤ String.length s → givens_consistent (parse s) →
  init (Some s) st = InitOk st1 → solve st1 = Some (true, st2) →
  solved (matrix st2) ∧
  ∀ r c n, (parse s).[r, c] = Some (JNum n) → (matrix st2).[r, c] = Some (JNum n).
Proof.
  intros Hl Hg Hi Hs. pose proof (init_spec s st Hl) as H. rewrite Hi in H.
  destruct H as (Hinv & Hm & _).
  destruct (search_sound _ _ _ Hinv ltac:(by rewrite Hm) Hs) as [Hsol Hk].
  split; [done|]. intros r c n Hn. apply Hk; [by rewrite Hm|done].
Qed.

(** C14: a puzzle string of at least 81 characters with fewer than 81
    givens that has a solution is loaded by [init] and solved by
    [solve]. *)
Theorem init_solve_complete s st sol :
  81 ≤ String.length s →
  count2 (λ v, bool_decide (is_Some (digit_of v))) (parse s) < 81 →
  solution_of sol (parse s) →
  ∃ st1 st2, init (Some s) st = InitOk st1 ∧ solve st1 = Some (true, st2).
Proof.
  intros Hl Hc Hsol. pose proof (init_spec s st Hl) as H.
  destruct (init (Some s) st) as [st1|st1]; [|lia]. destruct H as (Hinv & Hm & _).
  destruct (solveCell_solves (S (nulls st1)) st1 sol Hinv ltac:(by rewrite Hm) ltac:(lia))
    as [st2 Hs].
  by exists st1, st2.
Qed.

(** ** A cell that is neither a digit nor empty *)

(** C20: a cell of the puzzle string that [parse] makes neither [null]
    nor a digit 1-9 ([NaN] for a character that is no digit, [0] for
    ["0"]) is kept by [init] and never filled by the search, so [solve]
    reports failure with the matrix unchanged: such a puzzle is never
    solved, whatever the other cells hold. *)
Theorem nondigit_cell_unsolvable s st st1 r c v :
  81 ≤ String.length s → init (Some s) st = InitOk st1 →
  (parse s).[r, c] = Some v → v ≠ JNull → digit_of v = None →
  ∃ st2, solve st1 = Some (false, st2) ∧ matrix st2 = parse s.
Proof.
  intros Hl Hi Hv Hn Hd. pose proof (init_spec s st Hl) as H. rewrite Hi in H.
  destruct H as (Hinv & Hm & _). rewrite <- Hm in Hv.
  destruct (solveCell_total (S (nulls st1)) st1 (inv_no_undef _ Hinv) ltac:(lia))
    as ([] & st2 & Hs & Hb).
  - exfalso. destruct (solveCell_success _ _ _ Hinv Hs) as [tr Hsucc].
    pose proof (succ_keep _ _ _ Hsucc r c v Hv Hn) as Hv2.
    destruct (lookup2_bounds _ _ _ _ _ _ (inv_shape _ Hinv) Hv) as [Hr Hc].
    destruct (succ_complete _ _ _ Hsucc r c Hr Hc) as (d & Hd' & _).
    unfold digit_at in Hd'. rewrite Hv2 in Hd'. simpl in Hd'. congruence.
  - exists st2. split; [done|]. by rewrite Hb.
Qed.

Lemma init_solve_sound_witness :
  solved (matrix easy_solved) ∧
  ∀ r c n, (parse easy_puzzle).[r, c] = Some (JNum n) → (matrix easy_solved).[r, c] = Some (JNum n).
Proof.
  apply (init_solve_sound easy_puzzle (reset example_state) easy_loaded).
  - vm_compute. lia.
  - apply givens_consistent_of, consistent_b_spec.
    + apply parse_puzzle_grid. vm_compute. lia.
    + vm_compute. reflexivity.
  - vm_compute. reflexivity.
  - vm_compute. reflexivity.
Defined.

Lemma init_solve_complete_witness :
  ∃ st1 st2, init (Some easy_puzzle) (reset example_state) = InitOk st1 ∧
             solve st1 = Some (true, st2).
Proof.
  apply (init_solve_complete easy_puzzle (reset example_state) easy_solution).
  - vm_compute. lia.
  - vm_compute. lia.
  - apply solution_of_b_sound. vm_compute. reflexivity.
Defined.

Lemma nondigit_cell_unsolvable_witness :
  ∃ st2, solve nan_loaded = Some (false, st2) ∧ matrix st2 = parse nan_puzzle.
Proof.
  apply (nondigit_cell_unsolvable nan_puzzle (reset example_state) nan_loaded 0 0 JNaN).
  - vm_compute. lia.
  - vm_compute. reflexivity.
  - vm_compute. reflexivity.
  - discriminate.
  - reflexivity.
Defined.

End Main.

Export Main.
