(* ===== verification/Reach.v ===== *)
(** * The engine as a transition system: the states a search reaches

    Between two calls the search changes the solver state in three ways
    ([search_step]): [solveCell] allocates a candidate (a key string)
    into an open cell, unallocates a digit it placed after a failed
    recursive call, and pushes a step onto [solution] while the recursion
    unwinds.  A state is reachable when a sequence of such steps leads to
    it from a state that [init] returned for a puzzle string.  By rule
    induction, every reachable state satisfies the bookkeeping invariant
    (so the spec's invariant on the candidate sets and the allocation
    counter holds "at every point outside an in-flight allocate/retract
    pair"). *)

From S2P Require Import Prelude JsSet Board Rules Engine Driver NextCell Backtrack Init Main.
From Stdlib Require Import String.

Module Reach.

(** One step of the search's state machine. *)
Inductive search_step (st : state) : state → Prop :=
| step_allocate r c d st' :
    isFixed st r c = false → cell st r c = JNull → d ∈ _calcOptions st r c →
    allocate (StrV d) r c st = Allocated st' → search_step st st'
| step_unallocate r c d :
    cell st r c = JStr d → search_step st (unallocate (StrV d) r c st)
| step_record s :
    search_step st (set_solution (solution st ++ [s]) st).

(** A state [init] returned for a puzzle string. *)
Definition loaded (st : state) : Prop :=
  ∃ s st0, 81 ≤ String.length s ∧ init (Some s) st0 = InitOk st.

Definition reachable (st : state) : Prop :=
  ∃ st0, loaded st0 ∧ rtc search_step st0 st.

(** ** Rule induction *)

Lemma search_step_inv st st' : inv st → search_step st st' → inv st'.
Proof.
  intros Hinv []; [eapply allocate_keeps_inv; eauto|eapply unallocate_keeps_inv; eauto|].
  by apply inv_set_solution.
Qed.

Lemma loaded_inv st : loaded st → inv st.
Proof.
  intros (s & st0 & Hl & Hi). pose proof (init_spec s st0 Hl) as H. rewrite Hi in H. apply H.
Qed.

Lemma rtc_search_inv st st' : inv st → rtc search_step st st' → inv st'.
Proof. intros Hinv Hr. induction Hr; eauto using search_step_inv. Qed.

(** ** What every reachable state satisfies *)

(** C16: every state the search reaches from a loaded puzzle satisfies
    the bookkeeping invariant: each row, column and block set holds
    exactly the digits its unit lacks, the counter counts the filled
    cells and stays below 81, and no digit the search placed clashes. *)
Theorem reachable_inv st : reachable st → inv st.
Proof. intros (st0 & Hl & Hr). eapply rtc_search_inv; [apply loaded_inv|]; done. Qed.

(** ** Witnesses *)

Lemma easy_loaded_loaded : loaded easy_loaded.
Proof. exists easy_puzzle, (reset example_state). split; vm_compute; [lia|reflexivity]. Qed.

(** The state after the search's first allocation on the easy puzzle. *)
Definition easy_step1 : state := alloc_state (allocate (StrV 1) 0 2 easy_loaded).

Lemma easy_step1_reached : rtc search_step easy_loaded easy_step1.
Proof.
  apply rtc_once. apply (step_allocate _ 0 2 1).
  - vm_compute. reflexivity.
  - vm_compute. reflexivity.
  - apply JsSet.mem_spec. vm_compute. reflexivity.
  - vm_compute. reflexivity.
Qed.

Lemma reachable_inv_witness : inv easy_step1.
Proof. apply reachable_inv. exists easy_loaded. split; [apply easy_loaded_loaded|apply easy_step1_reached]. Defined.

End Reach.

Export Reach.
