(* ===== verification/Editing.v ===== *)
(** * User editing: updateCell

    [updateCell(number, row, column)] (lines 352-360) is called by the
    page when the user types into a cell: it unallocates the value the
    cell holds, if any ([!= null]), and allocates the new one, if any,
    through the global [solver] (the same object).  The typed value
    comes from the page, which is not under src/: the model takes a
    number or a digit string ([num]); the givens are numbers.
    [colorRelatedCells] only paints the page.

    A value that is [NaN] (a non-digit character of the puzzle string)
    would be added to a set under the key ["NaN"], which a set of digits
    cannot hold: [updateCell] on such a cell is outside the model
    ([None]).  An exception of [allocate] escapes [updateCell], as in
    [alloc_result]. *)

From S2P Require Import Prelude JsSet Board Rules Engine Driver NextCell Backtrack Init Main.

Module Editing.

(** The value [this.matrix[row][column]] as the [number] argument of
    [unallocate]. *)
Definition cell_num (v : jsval) : option (option num) :=
  match v with
  | JUndef | JNull => Some None
  | JNum n => Some (Some (NumV n))
  | JStr n => Some (Some (StrV n))
  | JNaN => None
  end.

(** [updateCell(number, row, column)]; [number] is [None] for [null]. *)
Definition updateCell (number : option num) (r c : nat) (st : state) : option alloc_result :=
  match cell_num (cell st r c) with
  | None => None
  | Some old =>
      let st1 := match old with
                 | Some x => unallocate x r c st
                 | None => st
                 end in
      Some (match number with
            | Some x => allocate x r c st1
            | None => Allocated st1
            end)
  end.

(** ** Typing a candidate and deleting it *)

(** C15: typing a candidate digit into an empty cell and then deleting
    it restores the solver state (up to [cycles]). *)
Theorem updateCell_roundtrip st r c d st1 st2 :
  inv st → cell st r c = JNull → d ∈ _calcOptions st r c →
  updateCell (Some (StrV d)) r c st = Some (Allocated st1) →
  updateCell None r c st1 = Some (Allocated st2) → st2 ≡ st.
Proof.
  intros Hinv Hnull Hd. unfold updateCell. rewrite Hnull. simpl.
  intros [= Ha]. pose proof (allocate_matrix (StrV d) r c st) as Hm. rewrite Ha in Hm.
  assert (cell st1 r c = JStr d) as ->.
  { unfold cell. simpl in Hm. rewrite Hm. apply cell_JNull in Hnull.
    by rewrite (lookup2_insert2_eq _ _ _ _ _ Hnull). }
  simpl. intros [= <-]. by apply unallocate_allocate_equiv.
Qed.

Lemma updateCell_roundtrip_witness :
  cell easy_loaded 0 2 = JNull ∧ 1 ∈ _calcOptions easy_loaded 0 2 ∧
  unallocate (StrV 1) 0 2 (alloc_state (allocate (StrV 1) 0 2 easy_loaded)) ≡ easy_loaded.
Proof.
  assert (Hinv : inv easy_loaded) by (apply inv_b_sound; vm_compute; reflexivity).
  assert (Hd : 1 ∈ _calcOptions easy_loaded 0 2)
    by (apply JsSet.mem_spec; vm_compute; reflexivity).
  split_and!; [vm_compute; reflexivity|done|].
  apply (updateCell_roundtrip easy_loaded 0 2 1 (alloc_state (allocate (StrV 1) 0 2 easy_loaded)));
    [done|vm_compute; reflexivity|done|..].
  - unfold updateCell. vm_compute. reflexivity.
  - vm_compute. reflexivity.
Defined.

End Editing.

Export Editing.
