(* ===== verification/Animation.v ===== *)
(** * The state effect of animate and doStep

    [animate] (lines 247-275) replays [solution] on the page: it resets
    the three arrays of candidate sets to full sets, calls [colorFixed]
    (the [updateOptions] of every given), and then, one timer tick per
    step, calls [doStep] on [solution[s]] for [s] from the last index down
    to 0.  [doStep] (lines 295-304) writes the cell's value into the page
    and calls [updateOptions] with the step's digit.  Once the timers have
    run, the sets are those of [animate_state]: the timer chain of
    [animateLoop] is a tick function on a pending step index or a
    completed run, and every run completes ([animate_completes]).

    The solver's own sets after any successful search are not those of
    the solved grid: the 81st [allocate] throws before its
    [updateOptions], so the last digit placed is still a candidate of its
    own cell ([solve_leaves_stale_sets], through the [succ_stale] field
    of [Backtrack.success]).  The replay recomputes them: for every
    puzzle string whose givens do not clash, the sets are empty once
    [animate] has run ([animate_clears_sets]).  Its proof shows that
    [colorFixed] and [doStep] only ever remove digits (folds that shrink
    the sets), that each given and each step of the trace removes its
    digit from its three units ([replay_lookup] finds the step that
    filled a cell), and that a solved grid holds the nine digits in each
    unit (a pigeonhole argument, [solved_in_unit]). *)

From S2P Require Import Prelude JsSet Board Rules Engine Driver NextCell Backtrack Init Main.

Module Animation.

(** [doStep(step)]: the state effect. *)
Definition doStep (st : state) (s : step) : state :=
  updateOptions (s_number s) (s_row s) (s_column s) st.

(** The first lines of [animate()]: fresh full sets, then [colorFixed]. *)
Definition animate_reset (st : state) : state :=
  colorFixed (set_quadrant (JsSet.fill _numbers 9)
               (set_column (JsSet.fill _numbers 9)
                 (set_row (JsSet.fill _numbers 9) st))).

(** [animate()] after its last timer tick. *)
Definition animate_state (st : state) : state :=
  fold_left doStep (rev (solution st)) (animate_reset st).

#[export] Instance step_inhabited : Inhabited step := populate (mkStep 0 0 0).

(** The timer chain of [animate]: [animateLoop(s)] is pending, or
    [complete()] has been called. *)
Inductive anim :=
  | Ticking (s : Z) (st : state)
  | Completed (st : state).

(** One timer tick: the callback of [animateLoop(s)] (lines 259-272). *)
Definition animateLoop_tick (a : anim) : anim :=
  match a with
  | Ticking s st =>
      if (0 <=? s)%Z then Ticking (s - 1) (doStep st (solution st !!! Z.to_nat s))
      else Completed st
  | Completed st => Completed st
  end.

(** [animate()] up to its call [animateLoop(this.solution.length-1)]. *)
Definition animate_start (st : state) : anim :=
  Ticking (Z.of_nat (length (solution st)) - 1) (animate_reset st).

(** A state of the timer chain from which [P] holds after finitely many
    ticks. *)
Inductive eventually (P : anim → Prop) : anim → Prop :=
  | ev_done a : P a → eventually P a
  | ev_tick a : eventually P (animateLoop_tick a) → eventually P a.

Lemma doStep_solution st s : solution (doStep st s) = solution st.
Proof. apply updateOptions_solution. Qed.

(** With [k] steps left, the chain replays them, last first, and stops. *)
Lemma animateLoop_replay k st :
  k ≤ length (solution st) →
  eventually (λ a, a = Completed (fold_left doStep (rev (take k (solution st))) st))
    (Ticking (Z.of_nat k - 1) st).
Proof.
  revert st. induction k as [|k IH]; intros st Hk.
  - apply ev_tick, ev_done. done.
  - apply ev_tick. cbn [animateLoop_tick].
    rewrite (proj2 (Z.leb_le 0 (Z.of_nat (S k) - 1))) by lia.
    replace (Z.to_nat (Z.of_nat (S k) - 1)) with k by lia.
    replace (Z.of_nat (S k) - 1 - 1)%Z with (Z.of_nat k - 1)%Z by lia.
    assert (E : fold_left doStep (rev (take (S k) (solution st))) st =
                fold_left doStep (rev (take k (solution st))) (doStep st (solution st !!! k))).
    { rewrite (take_S_r _ _ (solution st !!! k)) by (apply list_lookup_lookup_total_lt; lia).
      by rewrite rev_app_distr. }
    rewrite E. pose proof (IH (doStep st (solution st !!! k))) as H.
    rewrite doStep_solution in H. apply H. lia.
Qed.

Lemma animate_reset_solution st : solution (animate_reset st) = solution st.
Proof. unfold animate_reset. by rewrite colorFixed_solution. Qed.

(** C17: the timer chain of [animate] always ends: after one tick per
    step of [solution], replayed from the last to the first, and one more,
    it calls [complete()] with the state [animate_state]. *)
Theorem animate_completes st :
  eventually (λ a, a = Completed (animate_state st)) (animate_start st).
Proof.
  pose proof (animateLoop_replay (length (solution st)) (animate_reset st)) as H.
  rewrite animate_reset_solution, take_ge in H by lia. apply H. lia.
Qed.

(** ** Folds that only remove digits from the sets *)

Section Shrink.
Context {A : Type} (h : state → A → state).
Hypothesis h_sub : ∀ st a f i, fam_sets (h st a) f !!! i ⊆ fam_sets st f !!! i.
Hypothesis h_len : ∀ st a f, length (fam_sets (h st a) f) = length (fam_sets st f).
Hypothesis h_matrix : ∀ st a, matrix (h st a) = matrix st.

Lemma fold_sub l st f i : fam_sets (fold_left h l st) f !!! i ⊆ fam_sets st f !!! i.
Proof.
  revert st. induction l as [|a l IH]; intros st; simpl; [done|].
  by rewrite IH, h_sub.
Qed.

Lemma fold_len l st f : length (fam_sets (fold_left h l st) f) = length (fam_sets st f).
Proof. revert st. induction l as [|a l IH]; intros st; simpl; [done|]. by rewrite IH, h_len. Qed.

Lemma fold_matrix l st : matrix (fold_left h l st) = matrix st.
Proof. revert st. induction l as [|a l IH]; intros st; simpl; [done|]. by rewrite IH, h_matrix. Qed.

(** A digit that one step of the fold removes stays removed. *)
Lemma fold_removes l st a f k j :
  a ∈ l →
  (∀ st', matrix st' = matrix st → length (fam_sets st' f) = length (fam_sets st f) →
     k ∉ fam_sets (h st' a) f !!! j) →
  k ∉ fam_sets (fold_left h l st) f !!! j.
Proof.
  revert st. induction l as [|a' l IH]; intros st Ha Hk; [by apply not_elem_of_nil in Ha|].
  simpl. apply elem_of_cons in Ha as [<-|Ha].
  - intros Hin. apply fold_sub in Hin. by apply (Hk st).
  - apply IH; [done|]. intros st' Hm Hl. apply Hk; [by rewrite Hm, h_matrix|by rewrite Hl, h_len].
Qed.

End Shrink.

Lemma updateOptions_sub k r c st f i :
  fam_sets (updateOptions k r c st) f !!! i ⊆ fam_sets st f !!! i.
Proof.
  rewrite fam_sets_updateOptions, list_lookup_total_insert.
  case_decide as H; [destruct H as [<- _]; unfold JsSet.remove; set_solver|done].
Qed.

Lemma updateOptions_len k r c st f :
  length (fam_sets (updateOptions k r c st) f) = length (fam_sets st f).
Proof. by rewrite fam_sets_updateOptions, length_insert. Qed.

Lemma updateOptions_removes k r c st f :
  fam_index f r c < length (fam_sets st f) →
  k ∉ fam_sets (updateOptions k r c st) f !!! fam_index f r c.
Proof.
  intros Hlt. rewrite fam_sets_updateOptions, list_lookup_total_insert_eq by done.
  unfold JsSet.remove. set_solver.
Qed.

(** The body of the loop of [colorFixed]. *)
Definition colorFixed_step (st' : state) (p : nat * nat) : state :=
  let '(r, c) := p in
  match cell st' r c with
  | JNum n | JStr n => updateOptions n r c st'
  | _ => st'
  end.

Lemma colorFixed_fold st : colorFixed st = fold_left colorFixed_step (fixed_in_order st) st.
Proof. reflexivity. Qed.

Lemma colorFixed_step_sub st p f i : fam_sets (colorFixed_step st p) f !!! i ⊆ fam_sets st f !!! i.
Proof. destruct p as [r c]. simpl. destruct (cell st r c); try done; apply updateOptions_sub. Qed.

Lemma colorFixed_step_len st p f : length (fam_sets (colorFixed_step st p) f) = length (fam_sets st f).
Proof. destruct p as [r c]. simpl. destruct (cell st r c); try done; apply updateOptions_len. Qed.

Lemma colorFixed_step_matrix st p : matrix (colorFixed_step st p) = matrix st.
Proof. destruct p as [r c]. simpl. destruct (cell st r c); try done; apply updateOptions_matrix. Qed.

Lemma doStep_sub st s f i : fam_sets (doStep st s) f !!! i ⊆ fam_sets st f !!! i.
Proof. apply updateOptions_sub. Qed.

Lemma doStep_len st s f : length (fam_sets (doStep st s) f) = length (fam_sets st f).
Proof. apply updateOptions_len. Qed.

Lemma doStep_matrix st s : matrix (doStep st s) = matrix st.
Proof. apply updateOptions_matrix. Qed.

(** [colorFixed] removes the digit of every fixed cell from its units. *)
Lemma colorFixed_removes st r c n f :
  (r, c) ∈ fixed st → r < 9 → c < 9 → cell st r c = JNum n → length (fam_sets st f) = 9 →
  n ∉ fam_sets (colorFixed st) f !!! fam_index f r c.
Proof.
  intros Hfx Hr Hc Hn Hl. rewrite colorFixed_fold.
  apply (fold_removes _ colorFixed_step_sub colorFixed_step_len colorFixed_step_matrix _ _ (r, c)).
  - apply list_elem_of_filter. split; [done|]. by apply elem_of_all_cells.
  - intros st' Hm Hl'. simpl. unfold cell in *. rewrite Hm, Hn.
    apply updateOptions_removes. rewrite Hl', Hl. by apply fam_index_lt.
Qed.

(** Replaying a trace removes the digit of each of its steps. *)
Lemma doSteps_removes l st s f :
  s ∈ l → s_row s < 9 → s_column s < 9 → length (fam_sets st f) = 9 →
  s_number s ∉ fam_sets (fold_left doStep l st) f !!! fam_index f (s_row s) (s_column s).
Proof.
  intros Hs Hr Hc Hl.
  apply (fold_removes _ doStep_sub doStep_len doStep_matrix _ _ s); [done|].
  intros st' _ Hl'. apply updateOptions_removes. rewrite Hl', Hl. by apply fam_index_lt.
Qed.

(** ** A solved grid holds every digit in every unit *)

(** The cells of unit [i] of kind [f], in row-major order. *)
Definition unit_cells (f : family) (i : nat) : list (nat * nat) :=
  List.filter (λ '(r, c), fam_index f r c =? i) all_cells.

Lemma elem_of_unit_cells f i r c :
  (r, c) ∈ unit_cells f i ↔ r < 9 ∧ c < 9 ∧ fam_index f r c = i.
Proof.
  unfold unit_cells. rewrite list_elem_of_In, filter_In, <- list_elem_of_In,
    elem_of_all_cells, Nat.eqb_eq. tauto.
Qed.

Lemma length_unit_cells f i : i < 9 → length (unit_cells f i) = 9.
Proof. intros Hi. destruct f; do 9 (destruct i as [|i]; [vm_compute; reflexivity|]); lia. Qed.

(** Nine cells with distinct digits from 1 to 9 hold all of them. *)
Lemma solved_in_unit g f i d : solved g → i < 9 → 1 ≤ d ≤ 9 → in_unit g f i d = true.
Proof.
  intros [Hcomp Hcons] Hi Hd.
  set (dig := λ p : nat * nat, default 0 (digit_at g p.1 p.2)).
  assert (Hdig : ∀ r c, r < 9 → c < 9 → digit_at g r c = Some (dig (r, c)) ∧ 1 ≤ dig (r, c) ≤ 9).
  { intros r c Hr Hc. destruct (Hcomp r c Hr Hc) as (d' & Hd' & ?). unfold dig. simpl.
    by rewrite Hd'. }
  assert (Hnd : NoDup (dig <$> unit_cells f i)).
  { apply NoDup_fmap_2_strong; [|unfold unit_cells; apply NoDup_ListNoDup, List.NoDup_filter, NoDup_ListNoDup, NoDup_all_cells].
    intros [r c] [r' c'] (? & ? & ?)%elem_of_unit_cells (? & ? & ?)%elem_of_unit_cells Heq.
    destruct (decide ((r, c) = (r', c'))) as [|Hne]; [done|exfalso].
    destruct (Hdig r c) as [E1 _]; [done|done|]. destruct (Hdig r' c') as [E2 _]; [done|done|].
    apply (Hcons r c r' c' (dig (r, c)) Hne); [apply same_unit_spec; exists f; congruence|done|].
    by rewrite E2, Heq. }
  assert (Hperm : dig <$> unit_cells f i ≡ₚ seq 1 9).
  { apply submseteq_length_Permutation; [|by rewrite length_fmap, length_unit_cells, length_seq].
    apply NoDup_submseteq; [done|]. intros x ([r c] & -> & (? & ? & _)%elem_of_unit_cells)%list_elem_of_fmap.
    apply elem_of_seq. destruct (Hdig r c) as [_ ?]; [done|done|lia]. }
  assert (Hin : d ∈ dig <$> unit_cells f i).
  { apply list_elem_of_In, (Permutation_in _ (Permutation_sym Hperm)), in_seq. lia. }
  apply list_elem_of_fmap in Hin as ([r c] & -> & (? & ? & ?)%elem_of_unit_cells).
  apply in_unit_spec. exists r, c. split_and!; try done. by apply Hdig.
Qed.

(** A cell the replay of a trace changes holds the digit of one of its
    steps. *)
Lemma replay_lookup l g r c v :
  (replay l g).[r, c] = Some v →
  g.[r, c] = Some v ∨ ∃ s, s ∈ l ∧ s_row s = r ∧ s_column s = c ∧ v = JStr (s_number s).
Proof.
  unfold replay. revert g. induction l as [|s l IH]; intros g H; simpl in H; [by left|].
  apply IH in H as [H|(s' & Hs' & H)]; [|right; exists s'; split; [by right|done]].
  destruct (decide ((s_row s, s_column s) = (r, c))) as [[= <- <-]|Hne].
  - destruct (g.[s_row s, s_column s]) eqn:Hg.
    + rewrite (lookup2_insert2_eq _ _ _ _ _ Hg) in H. injection H as <-.
      right. exists s. split; [left|done].
    + rewrite insert2_None in H by done. congruence.
  - rewrite lookup2_insert2_ne in H by done. by left.
Qed.

(** ** Replaying the trace of a search from a loaded puzzle *)

(** The sets [animate] starts from, before [colorFixed]. *)
Definition full_sets (st : state) : state :=
  set_quadrant (JsSet.fill _numbers 9) (set_column (JsSet.fill _numbers 9)
    (set_row (JsSet.fill _numbers 9) st)).

Lemma full_sets_fam st f : fam_sets (full_sets st) f = JsSet.fill _numbers 9.
Proof. by destruct f. Qed.

Section Replay.
Context (st1 st2 : state) (tr : list step).
Hypothesis Hinv : inv st1.
Hypothesis Hpz : ∀ r c v, (matrix st1).[r, c] = Some v →
  v = JNull ∨ v = JNaN ∨ ∃ n, v = JNum n ∧ n ≤ 9.
Hypothesis Hsucc : success st1 st2 tr.
Hypothesis Hsol : solution st1 = [].
Hypothesis Hsolved : solved (matrix st2).

Lemma animate_state_trace :
  animate_state st2 = fold_left doStep (rev tr) (colorFixed (full_sets st2)).
Proof. unfold animate_state. by rewrite (succ_solution _ _ _ Hsucc), Hsol. Qed.

Lemma animate_len f : length (fam_sets (animate_state st2) f) = 9.
Proof.
  rewrite animate_state_trace, (fold_len _ doStep_len), colorFixed_fold,
    (fold_len _ colorFixed_step_len), full_sets_fam.
  reflexivity.
Qed.

(** Every digit of the solved grid is removed from the sets of the
    units of its cell: by [colorFixed] for a given, by the step of the
    trace that filled it otherwise. *)
Lemma animate_removes_cell r c d f :
  r < 9 → c < 9 → digit_at (matrix st2) r c = Some d →
  d ∉ fam_sets (animate_state st2) f !!! fam_index f r c.
Proof.
  intros Hr Hc Hd. rewrite animate_state_trace.
  assert (Hlen : length (fam_sets (colorFixed (full_sets st2)) f) = 9).
  { rewrite colorFixed_fold, (fold_len _ colorFixed_step_len), full_sets_fam. reflexivity. }
  destruct (shape2_lookup2 9 9 _ r c (inv_shape _ Hinv) Hr Hc) as [v0 Hv0].
  destruct (isFixed st1 r c) eqn:Hfx.
  - pose proof Hfx as Hfx'. apply (inv_fixed _ Hinv) in Hfx' as (_ & _ & n & Hn & Hn0).
    unfold cell in Hn. rewrite Hv0 in Hn. simpl in Hn. subst v0.
    pose proof (succ_keep _ _ _ Hsucc r c _ Hv0 ltac:(done)) as Hm2.
    unfold digit_at in Hd. rewrite Hm2 in Hd. simpl in Hd.
    rewrite (proj2 (Nat.eqb_neq n 0) Hn0) in Hd. injection Hd as <-.
    intros Hin%(fold_sub _ doStep_sub). revert Hin.
    apply colorFixed_removes; [|done|done| |by rewrite full_sets_fam].
    + change (fixed (full_sets st2)) with (fixed st2). rewrite (succ_fixed _ _ _ Hsucc).
      by apply bool_decide_eq_true in Hfx.
    + change (cell (full_sets st2) r c) with (cell st2 r c). unfold cell. by rewrite Hm2.
  - unfold digit_at in Hd. destruct ((matrix st2).[r, c]) as [v|] eqn:Hv; [|discriminate].
    simpl in Hd. destruct (decide (v0 = JNull)) as [->|Hn0].
    + rewrite <- (succ_replay _ _ _ Hsucc) in Hv.
      apply replay_lookup in Hv as [Hv|(s & Hs & <- & <- & ->)].
      * rewrite Hv0 in Hv. injection Hv as <-. discriminate.
      * simpl in Hd. injection Hd as <-. by apply doSteps_removes.
    + rewrite (succ_keep _ _ _ Hsucc r c v0 Hv0 Hn0) in Hv. injection Hv as ->.
      destruct (Hpz _ _ _ Hv0) as [|[->|(n & -> & _)]]; [done|discriminate|].
      simpl in Hd. destruct (n =? 0) eqn:E; [discriminate|]. exfalso.
      assert (isFixed st1 r c = true); [|congruence]. apply (inv_fixed _ Hinv).
      split_and!; [done|done|]. exists n. unfold cell. rewrite Hv0.
      split; [done|]. by apply Nat.eqb_neq.
Qed.

(** All sets are empty once the trace is replayed. *)
Lemma animate_state_empty f : fam_sets (animate_state st2) f = replicate 9 ∅.
Proof.
  apply (list_eq_same_length _ _ 9); [apply length_replicate|apply animate_len|].
  intros i x y Hi Hx Hy. apply lookup_replicate in Hy as [-> _].
  apply leibniz_equiv. intros d. split; [|set_solver]. intros Hd.
  rewrite <- (list_lookup_total_correct _ _ _ Hx) in Hd. pose proof Hd as Hfull.
  rewrite animate_state_trace in Hfull.
  apply (fold_sub _ doStep_sub) in Hfull.
  rewrite colorFixed_fold in Hfull.
  apply (fold_sub _ colorFixed_step_sub) in Hfull.
  rewrite full_sets_fam in Hfull. unfold JsSet.fill in Hfull.
  rewrite lookup_total_replicate_2 in Hfull by lia.
  unfold _numbers, JsSet.make in Hfull. rewrite elem_of_list_to_set in Hfull.
  assert (Hb : 1 ≤ d ≤ 9) by (apply list_elem_of_In in Hfull; simpl in Hfull; lia).
  destruct (proj1 (in_unit_spec _ _ _ _) (solved_in_unit _ f i d Hsolved Hi Hb))
    as (r & c & Hr & Hc & <- & Hdg).
  by destruct (animate_removes_cell r c d f Hr Hc Hdg).
Qed.

End Replay.

(** ** Theorems *)

(** C21: whenever a search reports success, the solver's candidate sets
    are stale: the last digit placed is still a candidate of the cell
    that holds it, because the 81st [allocate] throws before its
    [updateOptions]; the final state violates the bookkeeping invariant. *)
Theorem solve_leaves_stale_sets f st st' :
  inv st → solveCell f st = Some (true, st') →
  (∃ r c d, cell st' r c = JStr d ∧ d ∈ _calcOptions st' r c) ∧ ¬ inv st'.
Proof.
  intros Hinv Hs. destruct (solveCell_success _ _ _ Hinv Hs) as [tr Hsucc].
  destruct (succ_stale _ _ _ Hsucc) as (r & c & d & Hc & Hd).
  split; [by exists r, c, d|]. intros Hinv'.
  pose proof (cell_JStr _ _ _ _ Hc) as HM.
  destruct (lookup2_bounds _ _ _ _ _ _ (succ_shape _ _ _ Hsucc) HM) as [Hr Hc'].
  destruct (calcOptions_free _ _ _ _ Hinv' Hr Hc' Hd) as [_ Hfree].
  assert (in_unit (matrix st') FRow (fam_index FRow r c) d = true) as Hu; [|by rewrite Hfree in Hu].
  apply in_unit_spec. exists r, c. split_and!; try done. unfold digit_at. by rewrite HM.
Qed.

(** C22: for a puzzle string whose givens do not clash, once [solve] has
    succeeded and [animate] has run to its end, every row, column and
    block set is empty: [colorFixed] removes the givens, the replayed
    trace removes every digit the search placed, and a solved grid holds
    all nine digits in each unit. *)
Theorem animate_clears_sets s st st1 st2 :
  81 ≤ String.length s → givens_consistent (parse s) →
  init (Some s) st = InitOk st1 → solve st1 = Some (true, st2) →
  ∀ f, fam_sets (animate_state st2) f = replicate 9 ∅.
Proof.
  intros Hl Hg Hi Hs f. pose proof (init_spec s st Hl) as H. rewrite Hi in H.
  destruct H as (Hinv & Hm & Hsol & _). unfold solve in Hs.
  destruct (solveCell_success _ _ _ Hinv Hs) as [tr Hsucc].
  destruct (search_sound _ _ _ Hinv ltac:(by rewrite Hm) Hs) as [Hsolved _].
  assert (Hpz : ∀ r c v, (matrix st1).[r, c] = Some v →
            v = JNull ∨ v = JNaN ∨ ∃ n, v = JNum n ∧ n ≤ 9).
  { rewrite Hm. apply (proj2 (parse_puzzle_grid s Hl)). }
  exact (animate_state_empty st1 st2 tr Hinv Hpz Hsucc Hsol Hsolved f).
Qed.

(** ** Witnesses *)

Lemma solve_leaves_stale_sets_witness :
  (∃ r c d, cell easy_solved r c = JStr d ∧ d ∈ _calcOptions easy_solved r c) ∧ ¬ inv easy_solved.
Proof.
  apply (solve_leaves_stale_sets (S (nulls easy_loaded)) easy_loaded easy_solved).
  - apply inv_b_sound. vm_compute. reflexivity.
  - vm_compute. reflexivity.
Defined.

Lemma animate_clears_sets_witness :
  fam_sets (animate_state easy_solved) FRow = replicate 9 ∅ ∧
  fam_sets (animate_state easy_solved) FCol = replicate 9 ∅ ∧
  fam_sets (animate_state easy_solved) FQuad = replicate 9 ∅.
Proof.
  pose proof (animate_clears_sets easy_puzzle (reset example_state) easy_loaded easy_solved)
    as H.
  split_and!; apply H.
  all: first [vm_compute; lia | vm_compute; reflexivity |
              apply givens_consistent_of, consistent_b_spec;
              [apply parse_puzzle_grid; vm_compute; lia|vm_compute; reflexivity]].
Defined.

End Animation.

Export Animation.
