(* ===== verification/Presentation.v ===== *)
(** * Presentation: the colours and the cell contents the page shows

    The page code only writes the DOM, but what it writes is computed
    from the solver state:
    - [mergeColors] (lines 330-333) maps each of three set sizes [count]
      to the colour component [255 - 255 * count / 10] (a multiple of 0.5,
      exact in binary floating point, so a rational here); the hex
      formatting by the external [Math2.dec2hex] is not modelled;
    - [colorCell] (lines 314-328) paints a cell with the merge of the
      sizes of its row, column and block sets, which under the invariant
      are the numbers of digits each unit still lacks;
    - [colorRelatedCells] (lines 306-312) calls [colorCell] on the cells
      that share a row, a column or a block with a step's cell;
    - [renderNumbers] (lines 231-244) writes a span with the value into
      each fixed cell and an input holding the value, if truthy, into
      every other cell, then calls [colorFixed]. *)

From S2P Require Import Prelude JsSet Board Rules Engine Driver NextCell Backtrack Init Main Reach.
From Stdlib Require Import QArith Lqa String.
From stdpp Require Import pretty.

Module Presentation.

(** The colour components of [mergeColors(options)]. *)
Definition mergeColors_components (options : list nat) : list Q :=
  map (λ count, 255 - 255 * inject_Z (Z.of_nat count) / 10)%Q options.

(** The background [colorCell(row, column, quadrant, highlight)] leaves
    (the highlight only sets a transient yellow). *)
Definition colorCell (st : state) (r c q : nat) : list Q :=
  mergeColors_components [JsSet.count (row st !!! r); JsSet.count (column st !!! c);
                          JsSet.count (quadrant st !!! q)].

(** The keys of [for (r in this.matrix) for (c in this.matrix[r])]. *)
Definition matrix_keys {A} (g : list (list A)) : list (nat * nat) :=
  concat (imap (λ r cells, map (λ c, (r, c)) (seq 0 (List.length cells))) g).

(** The calls [colorCell(r, c, q, highlight)] that
    [colorRelatedCells({row: r0, column: c0}, highlightSelf)] makes. *)
Definition colorRelatedCells (st : state) (r0 c0 : nat) (highlightSelf : bool)
    : list (nat * nat * nat * bool) :=
  let q0 := _getQuadrantNumber r0 c0 in
  map (λ '(r, c), (r, c, _getQuadrantNumber r c, highlightSelf && (r =? r0) && (c =? c0)))
    (List.filter (λ '(r, c), (r =? r0) || (c =? c0) || (_getQuadrantNumber r c =? q0))
       (matrix_keys (matrix st))).

(** [String(v)] for the values a cell holds. *)
Definition js_to_string (v : jsval) : string :=
  match v with
  | JUndef => "undefined"
  | JNull => "null"
  | JNaN => "NaN"
  | JNum n | JStr n => pretty n
  end.

(** The [innerHTML] [renderNumbers] gives cell [(r, c)]. *)
Definition renderNumbers_cell (st : state) (r c : nat) : string :=
  let value := cell st r c in
  if isFixed st r c
  then String.append "<span class='fixed'>" (String.append (js_to_string value) "</span>")
  else String.append "<input class='variable' value='"
         (String.append (if truthy value then js_to_string value else EmptyString)
            "' maxlength='1' />").

(** [renderNumbers()]: the cells' contents, row by row, and the state
    after [colorFixed]. *)
Definition renderNumbers (st : state) : list string * state :=
  (map (λ '(r, c), renderNumbers_cell st r c) all_cells, colorFixed st).

(** ** Lemmas *)

Lemma matrix_keys_shape {A} (g : list (list A)) : shape2 9 9 g → matrix_keys g = all_cells.
Proof.
  intros [Hl Hf].
  do 9 (destruct g as [|? g]; [simpl in Hl; lia|]). destruct g; [|simpl in Hl; lia].
  repeat match goal with H : Forall _ (_ :: _) |- _ => inversion_clear H end.
  unfold matrix_keys. simpl.
  repeat match goal with H : List.length _ = 9 |- _ => rewrite H; clear H end.
  reflexivity.
Qed.

Lemma pair_eqb_decide r c r0 c0 : (r =? r0) && (c =? c0) = bool_decide ((r, c) = (r0, c0)).
Proof.
  destruct (Nat.eqb_spec r r0), (Nat.eqb_spec c c0); subst; simpl; case_bool_decide; congruence.
Qed.

(** Under the invariant a set is the set of digits its unit lacks. *)
Lemma inv_unit_free st f i : inv st → i < 9 → fam_sets st f !!! i = unit_free (matrix st) f i.
Proof.
  intros Hinv Hi. apply leibniz_equiv. intros d.
  rewrite (inv_sets _ Hinv f i d Hi). unfold unit_free.
  rewrite elem_of_list_to_set, list_elem_of_In, filter_In, in_seq, negb_true_iff. intuition lia.
Qed.

Lemma mergeColors_component k :
  (255 - 255 * inject_Z (Z.of_nat k) / 10 == 255 - (51 # 2) * inject_Z (Z.of_nat k))%Q.
Proof. field. Qed.

(** ** Theorems *)

(** C18: on a 9x9 matrix, [colorRelatedCells] paints exactly the cells
    that share a row, a column or a block with the step's cell, in
    row-major order, each with its own block number, and highlights only
    the step's cell, when asked to. *)
Theorem colorRelatedCells_units st r0 c0 hl :
  shape2 9 9 (matrix st) →
  colorRelatedCells st r0 c0 hl =
    map (λ '(r, c), (r, c, _getQuadrantNumber r c, hl && bool_decide ((r, c) = (r0, c0))))
      (List.filter (λ '(r, c), same_unit r c r0 c0) all_cells).
Proof.
  intros Hs. unfold colorRelatedCells. rewrite matrix_keys_shape by done.
  rewrite (List.filter_ext _ (λ '(r, c), same_unit r c r0 c0)).
  - apply map_ext. intros [r c]. cbn. by rewrite <- andb_assoc, pair_eqb_decide.
  - intros [r c]. cbn [same_unit existsb families fam_index].
    by rewrite orb_false_r, !orb_assoc.
Qed.

(** C23: in a state satisfying the invariant, the background
    [colorCell] gives cell (r, c) has one component per unit of the cell
    (row, column, block), each [255 - 25.5 k] where [k] is the number of
    digits that unit of the grid still lacks: the colour shows the live
    candidate counts. *)
Theorem colorCell_free st r c :
  inv st → r < 9 → c < 9 →
  Forall2 Qeq (colorCell st r c (_getQuadrantNumber r c))
    (map (λ f, 255 - (51 # 2) * inject_Z (Z.of_nat (size (unit_free (matrix st) f (fam_index f r c)))))%Q
       families).
Proof.
  intros Hinv Hr Hc. unfold colorCell, mergeColors_components, JsSet.count. cbn [map families fam_index].
  rewrite <- (inv_unit_free st FRow r), <- (inv_unit_free st FCol c),
    <- (inv_unit_free st FQuad (_getQuadrantNumber r c)) by (done || by apply quadrant_lt).
  repeat constructor; apply mergeColors_component.
Qed.

(** C19: after [init] on a puzzle string, [renderNumbers] shows each
    given as a fixed span holding its digit and every other cell as an
    empty input, and its [colorFixed] leaves the state as it is. *)
Theorem renderNumbers_loaded st r c :
  loaded st → r < 9 → c < 9 →
  renderNumbers_cell st r c =
    match cell st r c with
    | JNum n =>
        if n =? 0 then "<input class='variable' value='' maxlength='1' />"
        else String.append "<span class='fixed'>" (String.append (pretty n) "</span>")
    | _ => "<input class='variable' value='' maxlength='1' />"
    end ∧
  (renderNumbers st).2 = st.
Proof.
  intros Hl Hr Hc. pose proof (loaded_inv _ Hl) as Hinv.
  split; [|apply colorFixed_id, Hinv].
  destruct Hl as (s & st0 & Hlen & Hi).
  pose proof (init_spec s st0 Hlen) as H. rewrite Hi in H. destruct H as (_ & Hm & _).
  unfold renderNumbers_cell.
  destruct (isFixed st r c) eqn:Hf.
  - apply (inv_fixed _ Hinv) in Hf as (_ & _ & n & -> & Hn).
    apply Nat.eqb_neq in Hn. by rewrite Hn.
  - assert (Hv : ∀ n, cell st r c = JNum n → n = 0).
    { intros n Hn. destruct (decide (n = 0)) as [|Hn0]; [done|]. exfalso.
      assert (isFixed st r c = true) by (apply (inv_fixed _ Hinv); eauto 10). congruence. }
    assert (Hnot : ∀ d, cell st r c ≠ JStr d).
    { intros d Hd. apply cell_JStr in Hd. rewrite Hm in Hd.
      destruct (proj2 (parse_puzzle_grid s Hlen) _ _ _ Hd) as [?|[?|(? & ? & _)]];
        discriminate. }
    destruct (cell st r c) as [| | |n|d] eqn:E; try done.
    + by rewrite (Hv n eq_refl).
    + by destruct (Hnot d).
Qed.

(** ** Witnesses *)

Lemma colorRelatedCells_units_witness :
  colorRelatedCells easy_loaded 4 4 true =
    map (λ '(r, c), (r, c, _getQuadrantNumber r c, true && bool_decide ((r, c) = (4, 4))))
      (List.filter (λ '(r, c), same_unit r c 4 4) all_cells).
Proof.
  apply colorRelatedCells_units.
  apply inv_shape, loaded_inv, easy_loaded_loaded.
Defined.

Lemma colorCell_free_witness :
  Forall2 Qeq (colorCell easy_loaded 0 0 (_getQuadrantNumber 0 0))
    (map (λ f, 255 - (51 # 2) * inject_Z (Z.of_nat (size (unit_free (matrix easy_loaded) f (fam_index f 0 0)))))%Q
       families).
Proof. apply colorCell_free; [apply loaded_inv, easy_loaded_loaded|lia|lia]. Defined.

Lemma renderNumbers_loaded_witness :
  renderNumbers_cell easy_loaded 0 0 =
    match cell easy_loaded 0 0 with
    | JNum n =>
        if n =? 0 then "<input class='variable' value='' maxlength='1' />"
        else String.append "<span class='fixed'>" (String.append (pretty n) "</span>")
    | _ => "<input class='variable' value='' maxlength='1' />"
    end ∧
  (renderNumbers easy_loaded).2 = easy_loaded.
Proof. apply renderNumbers_loaded; [apply easy_loaded_loaded|lia|lia]. Defined.

End Presentation.

Export Presentation.
