(* ===== verification/CachedOptions.v ===== *)
(** * CachedOptions: the options cache [allOptions]

    [_calcNecessaryOptions] (lines 79-91), [_updateAllOptions] (lines
    94-101) and [getOptions] (lines 177-179) work on [this.allOptions], a
    grid of option sets that no line of the source ever assigns: on every
    solver object it is [undefined].  The model takes the cache as an
    argument, [None] for [undefined] and [Some g] for a grid [g], so that
    both the behaviour of the program (with [None]) and the behaviour the
    functions would have on a cache (with [Some g]) are stated.  A thrown
    exception is the [inr] of a sum.  Keys of a cache outside the 9x9
    board would reach [Set.intersection] with [undefined]; the theorems
    take a 9x9 cache. *)

From S2P Require Import Prelude JsSet Board Rules Engine Driver NextCell Backtrack Init Main Reach Presentation.

Module CachedOptions.

(** [this.allOptions]: [undefined] or a grid of sets. *)
Definition cache := option (list (list (gset nat))).

(** The exceptions these functions throw. *)
Inductive exc := TypeError | OutOfOptionsException.

(** The keys of [for (r in this.allOptions) for (c in this.allOptions[r])];
    [for .. in undefined] visits nothing. *)
Definition cache_keys (a : cache) : list (nat * nat) :=
  match a with None => [] | Some g => matrix_keys g end.

(** The condition under which a cell is recomputed. *)
Definition recalc (st : state) (row column r c : nat) : bool :=
  ((r =? row) || (c =? column) || (_getQuadrantNumber r c =? _getQuadrantNumber row column))
  && negb (isFixed st r c).

(** The [throw] condition, read on the cell [(row, column)] asked for. *)
Definition out_of_options (st : state) (row column r c : nat) : bool :=
  negb (truthy (cell st row column)) && (JsSet.count (_calcOptions st r c) =? 0).

(** One iteration of the loop of [_calcNecessaryOptions]. *)
Definition calc_step (st : state) (row column : nat) (acc : cache + exc) (k : nat * nat)
    : cache + exc :=
  match acc with
  | inr e => inr e
  | inl a =>
      let '(r, c) := k in
      if recalc st row column r c then
        if out_of_options st row column r c then inr OutOfOptionsException
        else inl (insert2 r c (_calcOptions st r c) <$> a)
      else inl a
  end.

(** [_calcNecessaryOptions(row, column)]: the cache it leaves, or the
    exception it throws. *)
Definition _calcNecessaryOptions (row column : nat) (st : state) (a : cache) : cache + exc :=
  fold_left (calc_step st row column) (cache_keys a) (inl a).

(** [_updateAllOptions()]: it calls [this.updateOptions(r, c)] with two
    arguments on the first key whose cell is not fixed, so [number] is the
    key [r], [row] is [c] and [column] is [undefined]: [r] is removed from
    [this.row[c]] if it holds it, and [number in this.column[undefined]]
    throws a [TypeError]. *)
Definition _updateAllOptions (st : state) (a : cache) : state * option exc :=
  match List.find (λ '(r, c), negb (isFixed st r c)) (cache_keys a) with
  | None => (st, None)
  | Some (r, c) =>
      match row st !! c with
      | None => (st, Some TypeError)
      | Some rowOptions =>
          (if JsSet.mem r rowOptions
           then set_row (<[c := JsSet.remove rowOptions r]> (row st)) st else st,
           Some TypeError)
      end
  end.

(** [getOptions(row, column)]: [this.allOptions[row][column]], [None]
    for [undefined], or the [TypeError] of indexing [undefined]. *)
Definition getOptions (a : cache) (r c : nat) : option (gset nat) + exc :=
  match a with
  | None => inr TypeError
  | Some g => match g !! r with None => inr TypeError | Some cells => inl (cells !! c) end
  end.

(** ** Lemmas *)

Lemma calc_step_exc st row column l e :
  fold_left (calc_step st row column) l (inr e) = inr e.
Proof. induction l; simpl; auto. Qed.

(** The loop throws exactly when some recomputed cell has no option while
    the cell asked for is empty; otherwise it writes the recomputed sets. *)
Lemma calc_fold st row column l g :
  fold_left (calc_step st row column) l (inl (Some g)) =
    if existsb (λ '(r, c), recalc st row column r c && out_of_options st row column r c) l
    then inr OutOfOptionsException
    else inl (Some (fold_left (λ g '(r, c),
                      if recalc st row column r c then insert2 r c (_calcOptions st r c) g
                      else g) l g)).
Proof.
  revert g. induction l as [|[r c] l IH]; intros g; simpl; [done|].
  destruct (recalc st row column r c), (out_of_options st row column r c); simpl;
    rewrite ?calc_step_exc; auto.
Qed.

Section FoldInsert.
Context {A : Type} (p : nat → nat → bool) (f : nat → nat → A).

(** Writing [f] at the keys of a duplicate-free list where [p] holds. *)
Lemma fold_insert2_lookup l g r c :
  NoDup l → (∀ r' c', (r', c') ∈ l → is_Some (lookup2 g r' c')) →
  lookup2 (fold_left (λ g '(r, c), if p r c then insert2 r c (f r c) g else g) l g) r c =
    if bool_decide ((r, c) ∈ l) && p r c then Some (f r c) else lookup2 g r c.
Proof.
  revert g. induction l as [|[r' c'] l IH]; intros g Hnd Hs; simpl; [done|].
  apply NoDup_cons in Hnd as [Hnot Hnd].
  rewrite IH; [|done|].
  - destruct (decide ((r, c) = (r', c'))) as [Heq|Hne].
    + simplify_eq. rewrite bool_decide_eq_false_2 by done. rewrite bool_decide_eq_true_2 by set_solver.
      destruct (Hs r' c') as [y Hy]; [set_solver|].
      destruct (p r' c'); simpl; [by eapply lookup2_insert2_eq|done].
    + assert (Hi : (r, c) ∈ (r', c') :: l ↔ (r, c) ∈ l) by set_solver.
      rewrite (bool_decide_ext _ _ Hi).
      destruct (bool_decide ((r, c) ∈ l) && p r c); [done|].
      destruct (p r' c'); [|done]. by apply lookup2_insert2_ne.
  - intros r0 c0 Hin. destruct (p r' c'); [|apply Hs; set_solver].
    destruct (Hs r' c') as [y Hy]; [set_solver|].
    rewrite (lookup2_insert2 _ _ _ _ _ _ y Hy). destruct (decide ((r', c') = (r0, c0))); [by eexists|]. apply Hs; set_solver.
Qed.

Lemma fold_insert2_shape l g :
  shape2 9 9 g →
  shape2 9 9 (fold_left (λ g '(r, c), if p r c then insert2 r c (f r c) g else g) l g).
Proof.
  revert g. induction l as [|[r c] l IH]; intros g Hs; simpl; [done|].
  apply IH. destruct (p r c); [by apply shape2_insert2|done].
Qed.

End FoldInsert.

Lemma existsb_cells (P : nat * nat → bool) :
  existsb P all_cells = true ↔ ∃ r c, r < 9 ∧ c < 9 ∧ P (r, c) = true.
Proof.
  rewrite existsb_exists. split.
  - intros ([r c] & Hin & HP). apply list_elem_of_In, elem_of_all_cells in Hin as [? ?]. eauto.
  - intros (r & c & Hr & Hc & HP). exists (r, c). split; [|done].
    apply list_elem_of_In, elem_of_all_cells. lia.
Qed.

(** ** Theorems *)

(** The code's test on a key is the unit relation of the rules: the
    cell shares a row, a column or a block with [(row, column)]. *)
Lemma recalc_same_unit st row column r c :
  recalc st row column r c = same_unit r c row column && negb (isFixed st r c).
Proof.
  unfold recalc. cbn [same_unit existsb families fam_index].
  by rewrite orb_false_r, !orb_assoc.
Qed.

(** C24: on a 9x9 cache, [_calcNecessaryOptions(row, column)] throws
    [OutOfOptionsException] exactly when the cell [(row, column)] is empty
    and some cell that is not fixed and shares a row, a column or a block
    with it has no option; otherwise it returns normally, and the cache
    then holds the options [_calcOptions] gives on every such cell and is
    unchanged elsewhere. *)
Theorem calcNecessaryOptions_spec row column st g :
  shape2 9 9 g →
  (_calcNecessaryOptions row column st (Some g) = inr OutOfOptionsException ↔
     truthy (cell st row column) = false ∧
     ∃ r c, r < 9 ∧ c < 9 ∧ same_unit r c row column = true ∧ isFixed st r c = false ∧
            JsSet.count (_calcOptions st r c) = 0) ∧
  ∀ a, _calcNecessaryOptions row column st (Some g) = inl a →
    ∃ g', a = Some g' ∧ shape2 9 9 g' ∧
      ∀ r c, r < 9 → c < 9 →
        lookup2 g' r c = if same_unit r c row column && negb (isFixed st r c)
                         then Some (_calcOptions st r c) else lookup2 g r c.
Proof.
  intros Hs. unfold _calcNecessaryOptions, cache_keys.
  rewrite matrix_keys_shape, calc_fold by done.
  destruct (existsb _ all_cells) eqn:E.
  - apply existsb_cells in E as (r & c & Hr & Hc & E).
    rewrite recalc_same_unit in E. unfold out_of_options in E.
    apply andb_true_iff in E as [[Hu Hf]%andb_true_iff [Ht Hz]%andb_true_iff].
    apply negb_true_iff in Ht, Hf. apply Nat.eqb_eq in Hz.
    split; [split; [intros _; split; [done|exists r, c; done]|done]|done].
  - split; [split; [done|]|].
    + intros (Ht & r & c & Hr & Hc & Hu & Hf & Hz). exfalso.
      assert (existsb (λ '(r, c), recalc st row column r c && out_of_options st row column r c)
                all_cells = true) as E'; [|congruence].
      apply existsb_cells. exists r, c. split_and!; [done|done|].
      unfold out_of_options. by rewrite recalc_same_unit, Hu, Hf, Ht, Hz.
    + intros a Ha%(inj inl). subst a. eexists; split; [done|]. split.
      * by apply fold_insert2_shape.
      * intros r c Hr Hc.
        rewrite (fold_insert2_lookup (recalc st row column) (_calcOptions st)).
        -- rewrite bool_decide_eq_true_2 by (apply elem_of_all_cells; lia).
           by rewrite recalc_same_unit.
        -- apply NoDup_all_cells.
        -- intros r' c' Hin. apply elem_of_all_cells in Hin as [? ?].
           by apply (shape2_lookup2 9 9).
Qed.

(** ** Witnesses *)

Lemma calcNecessaryOptions_spec_witness :
  shape2 9 9 (replicate 9 (replicate 9 (∅ : gset nat))) ∧
  ((_calcNecessaryOptions 0 2 easy_loaded (Some (replicate 9 (replicate 9 ∅))) =
      inr OutOfOptionsException ↔
     truthy (cell easy_loaded 0 2) = false ∧
     ∃ r c, r < 9 ∧ c < 9 ∧ same_unit r c 0 2 = true ∧ isFixed easy_loaded r c = false ∧
            JsSet.count (_calcOptions easy_loaded r c) = 0) ∧
   ∀ a, _calcNecessaryOptions 0 2 easy_loaded (Some (replicate 9 (replicate 9 ∅))) = inl a →
     ∃ g', a = Some g' ∧ shape2 9 9 g' ∧
       ∀ r c, r < 9 → c < 9 →
         lookup2 g' r c = if same_unit r c 0 2 && negb (isFixed easy_loaded r c)
                          then Some (_calcOptions easy_loaded r c)
                          else lookup2 (replicate 9 (replicate 9 ∅)) r c).
Proof.
  assert (Hs : shape2 9 9 (replicate 9 (replicate 9 (∅ : gset nat)))) by (split; vm_compute; repeat constructor).
  split; [exact Hs|]. apply (calcNecessaryOptions_spec 0 2 easy_loaded _ Hs).
Defined.

End CachedOptions.

Export CachedOptions.
